(** * abracadabra: landmark-pair audio fingerprinting

    A shallow embedding of the hashing, storage and matching code of
    [audio_hasher.py], [index_db.py], [recognize_snippet.py] and
    [build_from_full_manifest.py], with the properties of the design
    document stated and settled over it. *)

From Stdlib Require Import ZArith List Bool Lia String Ascii.
From Stdlib.Strings Require Import Byte.
From Stdlib Require Import DecimalString Sorted Permutation.
From Stdlib Require Import Reals Lra.
From Stdlib Require DecimalPos DecimalZ.
Import ListNotations.
Local Open Scope Z_scope.

(** ** Parameters of [audio_hasher.py] *)

Definition TOP_PEAKS_PER_FRAME : Z := 16.
Definition PEAK_NEIGHBORHOOD : Z * Z := (16, 16).
Definition TARGET_ZONE_T_FRAMES : Z * Z := (2, 64).
Definition TARGET_ZONE_F_BINS : Z := 48.
Definition HASH_FANOUT : Z := 8.

(** ** MD5 ([hashlib.md5]), over 32-bit words held in [Z] *)

Module MD5.

Definition mask32 (x : Z) : Z := Z.land x 4294967295.

Definition add32 (x y : Z) : Z := mask32 (x + y).

Definition not32 (x : Z) : Z := Z.lxor x 4294967295.

Definition rotl32 (x : Z) (c : Z) : Z :=
  mask32 (Z.lor (Z.shiftl x c) (Z.shiftr x (32 - c))).

(** The constants [floor(2^32 * |sin(i + 1)|)]. *)
Definition sines : list Z :=
  [3614090360; 3905402710; 606105819; 3250441966; 4118548399; 1200080426;
   2821735955; 4249261313; 1770035416; 2336552879; 4294925233; 2304563134;
   1804603682; 4254626195; 2792965006; 1236535329; 4129170786; 3225465664;
   643717713; 3921069994; 3593408605; 38016083; 3634488961; 3889429448;
   568446438; 3275163606; 4107603335; 1163531501; 2850285829; 4243563512;
   1735328473; 2368359562; 4294588738; 2272392833; 1839030562; 4259657740;
   2763975236; 1272893353; 4139469664; 3200236656; 681279174; 3936430074;
   3572445317; 76029189; 3654602809; 3873151461; 530742520; 3299628645;
   4096336452; 1126891415; 2878612391; 4237533241; 1700485571; 2399980690;
   4293915773; 2240044497; 1873313359; 4264355552; 2734768916; 1309151649;
   4149444226; 3174756917; 718787259; 3951481745].

(** The rotation of each round. *)
Definition shifts : list Z :=
  [7; 12; 17; 22; 7; 12; 17; 22; 7; 12; 17; 22; 7; 12; 17; 22;
   5; 9; 14; 20; 5; 9; 14; 20; 5; 9; 14; 20; 5; 9; 14; 20;
   4; 11; 16; 23; 4; 11; 16; 23; 4; 11; 16; 23; 4; 11; 16; 23;
   6; 10; 15; 21; 6; 10; 15; 21; 6; 10; 15; 21; 6; 10; 15; 21].

Definition byteZ (b : byte) : Z := Z.of_N (Byte.to_N b).

Definition Zbyte (z : Z) : byte :=
  match Byte.of_N (Z.to_N (Z.land z 255)) with
  | Some b => b
  | None => x00
  end.

(** Little-endian encoding of the low [n] bytes of a word. *)
Fixpoint le_bytes (n : nat) (w : Z) : list byte :=
  match n with
  | O => []
  | S n' => Zbyte w :: le_bytes n' (Z.shiftr w 8)
  end.

Fixpoint le_word (bs : list byte) : Z :=
  match bs with
  | [] => 0
  | b :: bs' => Z.lor (byteZ b) (Z.shiftl (le_word bs') 8)
  end.

(** Padding: one [0x80] byte, zeros up to 56 modulo 64, then the bit
    length on 64 bits. *)
Definition pad (msg : list byte) : list byte :=
  let len := Z.of_nat (List.length msg) in
  let zeros := Z.to_nat ((55 - len) mod 64) in
  msg ++ x80 :: repeat x00 zeros ++ le_bytes 8 (8 * len).

Fixpoint words (n : nat) (bs : list byte) : list Z :=
  match n with
  | O => []
  | S n' => le_word (firstn 4 bs) :: words n' (skipn 4 bs)
  end.

Record state := mkState { sa : Z; sb : Z; sc : Z; sd : Z }.

Definition init : state :=
  mkState 1732584193 4023233417 2562383102 271733878.

Definition round (M : list Z) (st : state) (i : Z) : state :=
  let '(mkState A B C D) := st in
  let '(F, g) :=
    if i <? 16 then (Z.lor (Z.land B C) (Z.land (not32 B) D), i)
    else if i <? 32 then
      (Z.lor (Z.land D B) (Z.land (not32 D) C), (5 * i + 1) mod 16)
    else if i <? 48 then (Z.lxor (Z.lxor B C) D, (3 * i + 5) mod 16)
    else (Z.lxor C (Z.lor B (not32 D)), (7 * i) mod 16) in
  let n := Z.to_nat i in
  let F' := add32 (add32 (add32 F A) (nth n sines 0)) (nth (Z.to_nat g) M 0) in
  mkState D (add32 B (rotl32 F' (nth n shifts 0))) B C.

Definition compress (st : state) (chunk : list byte) : state :=
  let M := words 16 chunk in
  let st' := fold_left (round M) (map Z.of_nat (seq 0 64)) st in
  mkState (add32 (sa st) (sa st')) (add32 (sb st) (sb st'))
          (add32 (sc st) (sc st')) (add32 (sd st) (sd st')).

Fixpoint chunks (n : nat) (bs : list byte) : list (list byte) :=
  match n with
  | O => []
  | S n' => firstn 64 bs :: chunks n' (skipn 64 bs)
  end.

Definition digest (msg : list byte) : list byte :=
  let p := pad msg in
  let st := fold_left compress (chunks (Nat.div (List.length p) 64) p) init in
  le_bytes 4 (sa st) ++ le_bytes 4 (sb st)
    ++ le_bytes 4 (sc st) ++ le_bytes 4 (sd st).

End MD5.

(** ** Hexadecimal text ([hexdigest], [bytes.fromhex]) *)

Definition hex_digit (n : Z) : ascii :=
  if n <? 10 then ascii_of_N (Z.to_N (48 + n))
  else ascii_of_N (Z.to_N (87 + n)).

Fixpoint hex_of_bytes (bs : list byte) : string :=
  match bs with
  | [] => EmptyString
  | b :: bs' =>
      let z := MD5.byteZ b in
      String (hex_digit (z / 16))
        (String (hex_digit (z mod 16)) (hex_of_bytes bs'))
  end.

Definition hexdigest (msg : list byte) : string :=
  hex_of_bytes (MD5.digest msg).

Definition is_space (c : ascii) : bool :=
  let n := N_of_ascii c in
  (N.eqb n 32 || (N.leb 9 n && N.leb n 13))%bool.

Definition hex_value (c : ascii) : option Z :=
  let n := Z.of_N (N_of_ascii c) in
  if (48 <=? n) && (n <=? 57) then Some (n - 48)
  else if (97 <=? n) && (n <=? 102) then Some (n - 87)
  else if (65 <=? n) && (n <=? 70) then Some (n - 55)
  else None.

(** [bytes.fromhex]: white space is skipped before each pair of digits;
    anything else that is not a pair of hexadecimal digits raises
    [ValueError] ([None]). *)
Fixpoint fromhex (s : string) : option (list byte) :=
  match s with
  | EmptyString => Some []
  | String c s' =>
      if is_space c then fromhex s'
      else
        match hex_value c, s' with
        | Some top, String d s'' =>
            match hex_value d with
            | Some bot =>
                option_map (cons (MD5.Zbyte (16 * top + bot))) (fromhex s'')
            | None => None
            end
        | _, _ => None
        end
  end.

(** ** Landmark-pair hashing ([audio_hasher.py]) *)

(** A peak is a row [(freq_bin, time_frame)] of the array returned by
    [local_maxima]. *)
Definition peak : Type := Z * Z.

(** [f"{int(x)}"] *)
Definition py_str (x : Z) : string := NilZero.string_of_int (Z.to_int x).

Definition hash_pair (anchor_peak_bin target_peak_freq_bin dt : Z) : string :=
  let raw :=
    list_byte_of_string
      (py_str anchor_peak_bin ++ "|" ++ py_str target_peak_freq_bin
         ++ "|" ++ py_str dt)%string in
  hexdigest raw.

(** The inner [while] loop of [make_hash_from_audio] for the anchor
    [(freq1, time1)]: [later] is [peaks[j:]] and [count] the number of
    pairs emitted so far.  It returns the target peaks paired with the
    anchor, in the order the hashes are appended. *)
Fixpoint scan_targets (freq1 time1 count : Z) (later : list peak)
  : list peak :=
  let t_min := time1 + fst TARGET_ZONE_T_FRAMES in
  let t_max := time1 + snd TARGET_ZONE_T_FRAMES in
  match later with
  | [] => []
  | (freq2, time2) :: rest =>
      if time2 <=? t_max then
        if (t_min <=? time2) && (Z.abs (freq2 - freq1) <=? TARGET_ZONE_F_BINS)
        then
          (freq2, time2)
            :: (if HASH_FANOUT <=? count + 1 then []
                else scan_targets freq1 time1 (count + 1) rest)
        else scan_targets freq1 time1 count rest
      else []
  end.

(** The pairs emitted in the iteration of the outer loop whose anchor is
    [anchor], [later] being the peaks after it. *)
Definition anchor_pairs (anchor : peak) (later : list peak)
  : list (peak * peak) :=
  map (fun target => (anchor, target))
      (scan_targets (fst anchor) (snd anchor) 0 later).

(** The outer [for] loop: every peak in turn is the anchor. *)
Fixpoint landmark_pairs (peaks : list peak) : list (peak * peak) :=
  match peaks with
  | [] => []
  | anchor :: later => anchor_pairs anchor later ++ landmark_pairs later
  end.

Definition hash_of_pair (p : peak * peak) : string * Z :=
  let '((freq1, time1), (freq2, time2)) := p in
  (hash_pair freq1 freq2 (time2 - time1), time1).

(** [make_hash_from_audio] once [peaks = local_maxima(spec_in_dB)] is
    known. *)
Definition make_hash_from_peaks (peaks : list peak) : list (string * Z) :=
  map hash_of_pair (landmark_pairs peaks).

(** ** The SQLite store ([index_db.py]) *)

Definition song_row : Type := Z * string * string.
Definition hash_row : Type := list byte * Z * Z.

(** The two tables, rows in insertion order. *)
Record db := mkDb { songs : list song_row; hashes : list hash_row }.

(** A connection: the database as last committed, and as seen by the
    statements of the open transaction. *)
Record conn := mkConn { committed : db; working : db }.

Definition row_song_id (r : song_row) : Z := fst (fst r).
Definition hash_song_id (r : hash_row) : Z := snd (fst r).

Definition commit (c : conn) : conn := mkConn (working c) (working c).

(** [INSERT OR REPLACE INTO songs]: [song_id] is the primary key. *)
Definition add_song (c : conn) (song_id : Z) (artist title : string) : conn :=
  let w := working c in
  mkConn (committed c)
    (mkDb (filter (fun r => negb (row_song_id r =? song_id)) (songs w)
             ++ [(song_id, artist, title)])
          (hashes w)).

(** The exceptions, all derived from [Exception]: what the acquisition
    or the fingerprinting of a track raises, a failure of the backend
    while a statement runs, the [ValueError] of [bytes.fromhex], the
    [OverflowError] of an integer that does not fit SQLite's INTEGER,
    and the [sqlite3.OperationalError] of a statement that SQLite cannot
    read. *)
Inductive exn :=
| AcquisitionError | StoreIOError | ValueError | OverflowError
| OperationalError.

Inductive outcome (A : Type) :=
| Returned (a : A)
| Raised (e : exn).
Arguments Returned {A} a.
Arguments Raised {A} e.

(** An INTEGER of SQLite holds 64 bits: binding a Python integer
    outside this range raises [OverflowError]. *)
Definition int64 (x : Z) : bool := (- 2 ^ 63 <=? x) && (x <? 2 ^ 63).

(** The rows built by [add_hashes] before its [executemany]. *)
Fixpoint hash_rows (song_id : Z) (hash_list : list (string * Z))
  : option (list hash_row) :=
  match hash_list with
  | [] => Some []
  | (h, t) :: rest =>
      match fromhex h with
      | None => None
      | Some b => option_map (cons (b, song_id, t)) (hash_rows song_id rest)
      end
  end.

(** [executemany]: the rows are bound and inserted one after the other.
    The first row with an integer that cannot be bound, or on which the
    backend fails ([fails k] for the row of index [k]), raises, and the
    rows inserted before it stay in the open transaction. *)
Definition fits (r : hash_row) : bool := int64 (hash_song_id r) && int64 (snd r).

Fixpoint executemany (fails : nat -> bool) (k : nat) (rows table : list hash_row)
  : option exn * list hash_row :=
  match rows with
  | [] => (None, table)
  | r :: rest =>
      if negb (fits r) then (Some OverflowError, table)
      else if fails k then (Some StoreIOError, table)
      else executemany fails (S k) rest (table ++ [r])
  end.

(** [add_hashes]: what it returns or raises, and the connection it
    leaves.  The [ValueError] of [bytes.fromhex] comes before any row is
    inserted. *)
Definition add_hashes_run (fails : nat -> bool) (c : conn) (song_id : Z)
  (hash_list : list (string * Z)) : outcome unit * conn :=
  match hash_rows song_id hash_list with
  | None => (Raised ValueError, c)
  | Some rows =>
      let w := working c in
      let '(r, table) := executemany fails 0 rows (hashes w) in
      (match r with
       | None => Returned tt
       | Some e => Raised e
       end,
       mkConn (committed c) (mkDb (songs w) table))
  end.

(** [add_hashes] on a backend that does not fail: the connection it
    leaves when it returns, [None] when it raises. *)
Definition add_hashes (c : conn) (song_id : Z) (hash_list : list (string * Z))
  : option conn :=
  match add_hashes_run (fun _ => false) c song_id hash_list with
  | (Returned _, c') => Some c'
  | (Raised _, _) => None
  end.

Definition song_exists (c : conn) (song_id : Z) : bool :=
  existsb (fun r => row_song_id r =? song_id) (songs (working c)).

Definition delete_song (c : conn) (song_id : Z) : conn :=
  let w := working c in
  let w1 :=
    mkDb (songs w)
         (filter (fun r => negb (hash_song_id r =? song_id)) (hashes w)) in
  let w2 :=
    mkDb (filter (fun r => negb (row_song_id r =? song_id)) (songs w1))
         (hashes w1) in
  commit (mkConn (committed c) w2).

(** Python dictionaries keep insertion order: association lists whose
    keys are distinct, a new key going to the end. *)
Fixpoint dict_set {V : Type} (k : Z) (v : V) (d : list (Z * V))
  : list (Z * V) :=
  match d with
  | [] => [(k, v)]
  | (k', v') :: rest =>
      if k' =? k then (k', v) :: rest else (k', v') :: dict_set k v rest
  end.

Fixpoint dict_get {V : Type} (d : list (Z * V)) (k : Z) : option V :=
  match d with
  | [] => None
  | (k', v) :: rest => if k' =? k then Some v else dict_get rest k
  end.

Definition load_meta (d : db) : list (Z * (string * string)) :=
  fold_left (fun m '(sid, artist, title) => dict_set sid (artist, title) m)
            (songs d) [].

Fixpoint bytes_eqb (a b : list byte) : bool :=
  match a, b with
  | [], [] => true
  | x :: a', y :: b' => Byte.eqb x y && bytes_eqb a' b'
  | _, _ => false
  end.

(** [SELECT song_id, t_song FROM hashes WHERE hash = ?] *)
Definition select_hash (d : db) (hbin : list byte) : list (Z * Z) :=
  map (fun r => (hash_song_id r, snd r))
      (filter (fun r => bytes_eqb (fst (fst r)) hbin) (hashes d)).

(** ** Matching ([match_snippet], [match_hashes_sqlite]) *)

(** [votes]: song_id -> offset -> count, two nested [defaultdict]s. *)
Definition histogram : Type := list (Z * Z).
Definition votes : Type := list (Z * histogram).

(** [offs[delta] += 1] *)
Fixpoint bump (delta : Z) (offs : histogram) : histogram :=
  match offs with
  | [] => [(delta, 1)]
  | (d, n) :: rest =>
      if d =? delta then (d, n + 1) :: rest else (d, n) :: bump delta rest
  end.

(** [votes[song_id][delta] += 1] *)
Fixpoint vote (song_id delta : Z) (v : votes) : votes :=
  match v with
  | [] => [(song_id, [(delta, 1)])]
  | (s, offs) :: rest =>
      if s =? song_id then (s, bump delta offs) :: rest
      else (s, offs) :: vote song_id delta rest
  end.

(** [max(offs.items(), key=lambda x: x[1])]: the first item with the
    largest count.  [max] raises on an empty dictionary; [votes] never
    holds one (lemma [tally_histograms_nonempty]). *)
Definition max_item (offs : histogram) : Z * Z :=
  match offs with
  | [] => (0, 0)
  | x :: rest =>
      fold_left (fun best y => if snd best <? snd y then y else best) rest x
  end.

Definition sum_values (offs : histogram) : Z :=
  fold_left (fun acc y => acc + snd y) offs 0.

(** A candidate [(song_id, count, best_delta, total_hits)]. *)
Definition candidate : Type := Z * Z * Z * Z.

Definition cand_song (x : candidate) : Z := fst (fst (fst x)).
Definition cand_count (x : candidate) : Z := snd (fst (fst x)).
Definition cand_offset (x : candidate) : Z := snd (fst x).
Definition cand_hits (x : candidate) : Z := snd x.

Definition score (v : votes) : list candidate :=
  map (fun '(song_id, offs) =>
         let '(best_delta, count) := max_item offs in
         (song_id, count, best_delta, sum_values offs))
      v.

(** [scored.sort(key=lambda x: x[1], reverse=True)]: Python's sort is
    stable, also with [reverse=True]. *)
Fixpoint insert_by_count (x : candidate) (l : list candidate)
  : list candidate :=
  match l with
  | [] => [x]
  | y :: l' =>
      if cand_count y <=? cand_count x then x :: y :: l'
      else y :: insert_by_count x l'
  end.

Definition sort_by_count (l : list candidate) : list candidate :=
  fold_right insert_by_count [] l.

(** The slice [l[:k]], also for a negative [k]. *)
Definition py_prefix {A : Type} (l : list A) (k : Z) : list A :=
  if 0 <=? k then firstn (Z.to_nat k) l
  else firstn (Z.to_nat (Z.of_nat (List.length l) + k)) l.

(** The pickle index: a dictionary from the hexadecimal hash to its
    postings [(song_id, t_song)]. *)
Definition pickle_index : Type := list (string * list (Z * Z)).

Fixpoint index_get (index : pickle_index) (h : string)
  : option (list (Z * Z)) :=
  match index with
  | [] => None
  | (k, postings) :: rest =>
      if String.eqb k h then Some postings else index_get rest h
  end.

Definition vote_postings (t_query : Z) (postings : list (Z * Z)) (v : votes)
  : votes :=
  fold_left (fun v '(song_id, t_song) => vote song_id (t_song - t_query) v)
            postings v.

Definition tally_snippet (index : pickle_index) (hashes : list (string * Z))
  : votes :=
  fold_left
    (fun v '(h, t_query) =>
       match index_get index h with
       | None => v
       | Some postings => vote_postings t_query postings v
       end)
    hashes [].

(** [match_snippet], from the hashes of the snippet on. *)
Definition match_snippet (hashes : list (string * Z)) (index : pickle_index)
  : list candidate :=
  match hashes with
  | [] => []
  | _ => py_prefix (sort_by_count (score (tally_snippet index hashes))) 1
  end.

(** [by_hash[h].append(int(t))] *)
Fixpoint group_add (h : string) (t : Z) (g : list (string * list Z))
  : list (string * list Z) :=
  match g with
  | [] => [(h, [t])]
  | (k, ts) :: rest =>
      if String.eqb k h then (k, ts ++ [t]) :: rest
      else (k, ts) :: group_add h t rest
  end.

(** The step of the loop that builds [by_hash]. *)
Definition group_step (g : list (string * list Z)) (x : string * Z)
  : list (string * list Z) :=
  let '(h, t) := x in group_add h t g.

Definition by_hash (hashes : list (string * Z)) : list (string * list Z) :=
  fold_left group_step hashes [].

Definition vote_rows (t_queries : list Z) (rows : list (Z * Z)) (v : votes)
  : votes :=
  fold_left
    (fun v '(song_id, ts) =>
       fold_left (fun v tq => vote song_id (ts - tq) v) t_queries v)
    rows v.

(** The voting loop over [by_hash.items()]; [None] when a key is not
    hexadecimal. *)
Fixpoint tally_sqlite (d : db) (groups : list (string * list Z)) (v : votes)
  : option votes :=
  match groups with
  | [] => Some v
  | (hex_hash, t_queries) :: rest =>
      match fromhex hex_hash with
      | None => None
      | Some hbin =>
          tally_sqlite d rest (vote_rows t_queries (select_hash d hbin) v)
      end
  end.

(** A printed result [(artist, title, votes, offset, total_hits)]. *)
Definition result : Type := string * string * Z * Z * Z.

Definition meta_get (meta : list (Z * (string * string))) (song_id : Z)
  : string * string :=
  match dict_get meta song_id with
  | Some m => m
  | None => ("?", "?")%string
  end.

(** [scored] of [match_hashes_sqlite] after the sort; [d] is the
    database that [sqlite3.connect(db_path)] opens. *)
Definition ranked_sqlite (d : db) (hashes : list (string * Z))
  : option (list candidate) :=
  option_map (fun v => sort_by_count (score v))
             (tally_sqlite d (by_hash hashes) []).

Definition match_hashes_sqlite (hashes : list (string * Z)) (d : db) (topk : Z)
  : option (list result) :=
  match hashes with
  | [] => Some []
  | _ =>
      match ranked_sqlite d hashes with
      | None => None
      | Some scored =>
          let meta := load_meta d in
          Some
            (map (fun '(song_id, votes_count, offset, total_hits) =>
                    let '(artist, title) := meta_get meta song_id in
                    (artist, title, votes_count, offset, total_hits))
                 (py_prefix scored topk))
      end
  end.

(** ** Building the index ([build_from_full_manifest.py]) *)

(** An item of the manifest after [normalize_items]. *)
Record item := mkItem
  { item_song_id : Z; item_artist : string; item_title : string;
    item_url : string }.

(** The statements sent to SQLite during a build. *)
Inductive store_call :=
| SelectSong | DeleteHashes | DeleteSongs | InsertSong
| InsertHashes (row : nat) | Commit.

(** The lines printed for an item. *)
Inductive note :=
| SKIP | FORCE | REINDEX | STREAMING | NO_PEAKS | STORED (n : nat)
| FAILED (e : exn).

Record session := mkSession { s_conn : conn; s_log : list (nat * note) }.

(** Computations on a session that return or raise. *)
Definition M (A : Type) : Type := session -> outcome A * session.

Definition ret {A : Type} (a : A) : M A := fun s => (Returned a, s).

Definition raise {A : Type} (e : exn) : M A := fun s => (Raised e, s).

Definition bind {A B : Type} (m : M A) (k : A -> M B) : M B :=
  fun s =>
    match m s with
    | (Returned a, s') => k a s'
    | (Raised e, s') => (Raised e, s')
    end.

(** [try: body except Exception as e: handler(e)] *)
Definition try_except {A : Type} (body : M A) (handler : exn -> M A) : M A :=
  fun s =>
    match body s with
    | (Returned a, s') => (Returned a, s')
    | (Raised e, s') => handler e s'
    end.

Declare Scope build_scope.
Delimit Scope build_scope with build.
Notation "x <- m ;; k" := (bind m (fun x => k))
  (at level 61, m at next level, right associativity) : build_scope.
Notation "m ;;; k" := (bind m (fun _ => k))
  (at level 61, right associativity) : build_scope.

Definition print (i : nat) (n : note) : M unit :=
  fun s => (Returned tt, mkSession (s_conn s) (s_log s ++ [(i, n)])).

Definition delete_hashes_of (song_id : Z) (c : conn) : conn :=
  let w := working c in
  mkConn (committed c)
    (mkDb (songs w)
          (filter (fun r => negb (hash_song_id r =? song_id)) (hashes w))).

Definition delete_songs_of (song_id : Z) (c : conn) : conn :=
  let w := working c in
  mkConn (committed c)
    (mkDb (filter (fun r => negb (row_song_id r =? song_id)) (songs w))
          (hashes w)).

(** ** Opening the database ([init_db]) *)

(** Of SQLite's reading of a statement, what decides the statements of
    [init_db]: a comment runs from [--] to the end of the line, and a
    statement that ends with a parenthesis still open is refused as
    incomplete input, a [sqlite3.OperationalError]. *)
Fixpoint sql_code (in_comment : bool) (s : string) : string :=
  match s with
  | EmptyString => EmptyString
  | String c rest =>
      if in_comment then sql_code (negb (Ascii.eqb c "010")) rest
      else
        match rest with
        | String c' rest' =>
            if Ascii.eqb c "-" && Ascii.eqb c' "-" then sql_code true rest'
            else String c (sql_code false rest)
        | EmptyString => String c EmptyString
        end
  end.

Fixpoint open_parens (s : string) (n : Z) : Z :=
  match s with
  | EmptyString => n
  | String c rest =>
      open_parens rest
        (if Ascii.eqb c "(" then n + 1
         else if Ascii.eqb c ")" then n - 1 else n)
  end.

(** [cur.execute(statement)] for a statement without parameters. *)
Definition execute (statement : string) : outcome unit :=
  if open_parens (sql_code false statement) 0 =? 0 then Returned tt
  else Raised OperationalError.

Definition and_then {A B : Type} (r : outcome A) (k : A -> outcome B)
  : outcome B :=
  match r with
  | Returned a => k a
  | Raised e => Raised e
  end.

(** [init_db], with the statements as the source has them: each is a
    string of one line.  The tables of [d] and their rows are those of
    the file; [CREATE TABLE IF NOT EXISTS] adds no row. *)
Definition init_db (d : db) : outcome conn :=
  and_then (execute "PRAGMA journal_mode=WAL;") (fun _ =>
  and_then (execute "PRAGMA synchronous=NORMAL;") (fun _ =>
  and_then (execute "CREATE TABLE IF NOT EXISTS songs (song_id INTEGER PRIMARY KEY, artist  TEXT, title   TEXT)") (fun _ =>
  and_then (execute "CREATE TABLE IF NOT EXISTS hashes (hash    BLOB NOT NULL,   -- 16-byte MD5 song_id INTEGER NOT NULL, t_song  INTEGER NOT NULL)") (fun _ =>
  and_then (execute "CREATE INDEX IF NOT EXISTS idx_hash ON hashes(hash)") (fun _ =>
  Returned (commit (mkConn d d))))))).

Section Build.

(** [read_full_track_pcm] followed by [make_hash_from_audio]: the hashes
    of the track of an item, or the exception either of them raised. *)
Variable fingerprint_track : item -> outcome (list (string * Z)).

(** Whether the backend fails on a statement sent for the [i]-th item. *)
Variable faulty : nat -> store_call -> bool.

(** A statement: raises [StoreIOError] and changes nothing when the
    backend fails. *)
Definition sql {A : Type} (i : nat) (call : store_call)
  (run : conn -> outcome A * conn) : M A :=
  fun s =>
    if faulty i call then (Raised StoreIOError, s)
    else
      let '(r, c) := run (s_conn s) in
      (r, mkSession c (s_log s)).

(** Binding the integer parameter of a statement, before it runs. *)
Definition bind_int (x : Z) : M unit :=
  fun s => if int64 x then (Returned tt, s) else (Raised OverflowError, s).

Definition song_exists_io (i : nat) (song_id : Z) : M bool :=
  (bind_int song_id ;;;
   sql i SelectSong (fun c => (Returned (song_exists c song_id), c)))%build.

Definition add_song_io (i : nat) (song_id : Z) (artist title : string)
  : M unit :=
  (bind_int song_id ;;;
   sql i InsertSong
     (fun c => (Returned tt, add_song c song_id artist title)))%build.

(** [add_hashes] on the backend of the build: the row of index [k] is
    one more statement on which it may fail. *)
Definition add_hashes_io (i : nat) (song_id : Z)
  (hash_list : list (string * Z)) : M unit :=
  fun s =>
    let '(r, c) :=
      add_hashes_run (fun k => faulty i (InsertHashes k)) (s_conn s) song_id
        hash_list in
    (r, mkSession c (s_log s)).

Definition commit_io (i : nat) : M unit :=
  sql i Commit (fun c => (Returned tt, commit c)).

Definition delete_song_io (i : nat) (song_id : Z) : M unit :=
  (bind_int song_id ;;;
   sql i DeleteHashes (fun c => (Returned tt, delete_hashes_of song_id c)) ;;;
   sql i DeleteSongs (fun c => (Returned tt, delete_songs_of song_id c)) ;;;
   commit_io i)%build.

(** The body of the [try] statement, the same in both loops. *)
Definition index_item (i : nat) (it : item) : M unit :=
  (hashes <- (fun s => (fingerprint_track it, s)) ;;
   match hashes with
   | [] => print i NO_PEAKS
   | _ =>
       add_song_io i (item_song_id it) (item_artist it) (item_title it) ;;;
       add_hashes_io i (item_song_id it) hashes ;;;
       commit_io i ;;;
       print i (STORED (List.length hashes))
   end)%build.

Definition try_index_item (i : nat) (it : item) : M unit :=
  try_except (index_item i it) (fun e => print i (FAILED e)).

(** One iteration of the loop of [build_fingerprint_db_from_json]. *)
Definition build_item (i : nat) (it : item) : M unit :=
  (present <- song_exists_io i (item_song_id it) ;;
   if present then print i SKIP
   else print i STREAMING ;;; try_index_item i it)%build.

Fixpoint build_loop (i : nat) (items : list item) : M unit :=
  match items with
  | [] => ret tt
  | it :: rest => (build_item i it ;;; build_loop (S i) rest)%build
  end.

(** [finally: conn.close()]: what was not committed is lost. *)
Definition close (r : outcome unit * session)
  : outcome unit * db * list (nat * note) :=
  (fst r, committed (s_conn (snd r)), s_log (snd r)).

(** The [try ... finally] statement of [build_fingerprint_db_from_json],
    on the connection that [init_db] returned. *)
Definition build_body (items : list item) (c : conn)
  : outcome unit * db * list (nat * note) :=
  close (build_loop 1 items (mkSession c [])).

(** [d] is the database of the file [db_path].  When [init_db] raises,
    no connection is returned and nothing is printed. *)
Definition build_fingerprint_db_from_json (items : list item) (d : db)
  : outcome unit * db * list (nat * note) :=
  match init_db d with
  | Returned c => build_body items c
  | Raised e => (Raised e, d, [])
  end.

(** One iteration of the loop of [rebuild_specific_ids]. *)
Definition rebuild_item (force : bool) (i : nat) (it : item) : M unit :=
  (present <- song_exists_io i (item_song_id it) ;;
   if present then
     if force then
       print i FORCE ;;;
       delete_song_io i (item_song_id it) ;;;
       try_index_item i it
     else print i SKIP
   else print i REINDEX ;;; try_index_item i it)%build.

Fixpoint rebuild_loop (force : bool) (i : nat) (items : list item) : M unit :=
  match items with
  | [] => ret tt
  | it :: rest =>
      (rebuild_item force i it ;;; rebuild_loop force (S i) rest)%build
  end.

(** The [try ... finally] statement of [rebuild_specific_ids], on the
    connection that [init_db] returned. *)
Definition rebuild_body (force : bool) (items : list item) (c : conn)
  : outcome unit * db * list (nat * note) :=
  close (rebuild_loop force 1 items (mkSession c [])).

Definition rebuild_specific_ids (items : list item) (d : db) (ids : list Z)
  (force : bool) : outcome unit * db * list (nat * note) :=
  let wanted :=
    filter (fun it => existsb (Z.eqb (item_song_id it)) ids) items in
  match wanted with
  | [] => (Returned tt, d, [])
  | _ =>
      match init_db d with
      | Returned c => rebuild_body force wanted c
      | Raised e => (Raised e, d, [])
      end
  end.

End Build.

(** ** Predicates used in the statements *)

Definition peak_eqb (a b : peak) : bool :=
  (fst a =? fst b) && (snd a =? snd b).

(** The pairs of a list whose anchor is [a]. *)
Definition pairs_anchored_at (a : peak) (pairs : list (peak * peak))
  : list (peak * peak) :=
  filter (fun p => peak_eqb (fst p) a) pairs.

Definition res_votes (r : result) : Z := snd (fst (fst r)).
Definition res_hits (r : result) : Z := snd r.

(** The ranking the design document asks for, as far as it shows in a
    printed result: more votes first, then more hits. *)
Definition documented_order (x y : result) : Prop :=
  res_votes x > res_votes y
  \/ (res_votes x = res_votes y /\ res_hits x >= res_hits y).

(** The same on candidates, where the song_id shows: more votes first,
    then more hits, then the smaller song_id. *)
Definition documented_rank (x y : candidate) : Prop :=
  cand_count x > cand_count y
  \/ (cand_count x = cand_count y
      /\ (cand_hits x > cand_hits y
          \/ (cand_hits x = cand_hits y /\ cand_song x <= cand_song y))).

Definition by_votes (x y : result) : Prop := res_votes x >= res_votes y.
Definition by_count (x y : candidate) : Prop := cand_count x >= cand_count y.

Definition no_song_row (d : db) (song_id : Z) : Prop :=
  forall r, In r (songs d) -> row_song_id r <> song_id.

(** What can go wrong for an item inside the [try] statement: the
    acquisition or the fingerprinting raises, or, hashes having been
    found, [add_song] does (the song_id does not fit, or the backend
    fails), or [add_hashes] (a key is not hexadecimal, or [executemany]
    raises on a row), or [commit]. *)
Definition fails_in_try (fingerprint_track : item -> outcome (list (string * Z)))
  (faulty : nat -> store_call -> bool) (i : nat) (it : item) : Prop :=
  match fingerprint_track it with
  | Raised _ => True
  | Returned [] => False
  | Returned hashes =>
      int64 (item_song_id it) = false
      \/ faulty i InsertSong = true
      \/ hash_rows (item_song_id it) hashes = None
      \/ (exists rows,
            hash_rows (item_song_id it) hashes = Some rows
            /\ fst (executemany (fun k => faulty i (InsertHashes k)) 0 rows [])
               <> None)
      \/ faulty i Commit = true
  end.

(** The run went on normally and its last printed line is the failure
    of item [i]. *)
Definition caught_and_logged (i : nat) (r : outcome unit * session) : Prop :=
  fst r = Returned tt
  /\ exists e log, s_log (snd r) = log ++ [(i, FAILED e)].

(** A manifest of two songs, and a backend that fails on one statement
    of the first. *)
Definition two_songs : list item :=
  [mkItem 1 "a" "b" "u1"; mkItem 2 "c" "d" "u2"]%string.

Definition one_hash (it : item) : outcome (list (string * Z)) :=
  Returned [("0a"%string, item_song_id it)].

Definition store_call_eqb (a b : store_call) : bool :=
  match a, b with
  | SelectSong, SelectSong | DeleteHashes, DeleteHashes
  | DeleteSongs, DeleteSongs | InsertSong, InsertSong
  | Commit, Commit => true
  | InsertHashes j, InsertHashes k => Nat.eqb j k
  | _, _ => false
  end.

Definition fails_on_first (call : store_call) (i : nat) (c : store_call)
  : bool :=
  Nat.eqb i 1 && store_call_eqb c call.

(** ** The two matchers as votes over events *)

(** An event [(song_id, delta)]: a posting of the song met a hash of the
    query at the offset [delta]. *)
Definition event : Type := Z * Z.

Definition tally (events : list event) (v : votes) : votes :=
  fold_left (fun v e => vote (fst e) (snd e) v) events v.

(** [index[hash]], nothing for a hash that is not in the index. *)
Definition postings (index : pickle_index) (h : string) : list (Z * Z) :=
  match index_get index h with
  | Some p => p
  | None => []
  end.

(** The rows selected for a hexadecimal key. *)
Definition rows_of (d : db) (h : string) : list (Z * Z) :=
  match fromhex h with
  | Some hbin => select_hash d hbin
  | None => []
  end.

(** The pickle index and the [hashes] table hold the same postings, in
    the same order, for the hashes of the query. *)
Definition same_postings (index : pickle_index) (d : db)
  (hashes : list (string * Z)) : Prop :=
  forall h t,
    In (h, t) hashes ->
    (exists hbin, fromhex h = Some hbin) /\ postings index h = rows_of d h.

(** The events in the order [match_snippet] votes: hash by hash of the
    query, posting by posting. *)
Definition events_snippet (P : string -> list (Z * Z))
  (hashes : list (string * Z)) : list event :=
  flat_map (fun '(h, t_query) =>
              map (fun '(song_id, t_song) => (song_id, t_song - t_query))
                  (P h))
           hashes.

(** The events in the order [match_hashes_sqlite] votes: group by group,
    row by row, query time by query time. *)
Definition events_group (P : string -> list (Z * Z))
  (g : string * list Z) : list event :=
  flat_map (fun '(song_id, ts) => map (fun tq => (song_id, ts - tq)) (snd g))
           (P (fst g)).

Definition events_sqlite (P : string -> list (Z * Z))
  (groups : list (string * list Z)) : list event :=
  flat_map (events_group P) groups.

Definition event_eqb (a b : event) : bool :=
  (fst a =? fst b) && (snd a =? snd b).

(** How many events vote for the song at the offset. *)
Definition offset_votes (events : list event) (song_id delta : Z) : Z :=
  Z.of_nat (List.length (filter (event_eqb (song_id, delta)) events)).

(** How many events vote for the song. *)
Definition song_hits (events : list event) (song_id : Z) : Z :=
  Z.of_nat (List.length (filter (fun e => fst e =? song_id) events)).

Definition votes_count (v : votes) (song_id delta : Z) : Z :=
  match dict_get v song_id with
  | Some offs =>
      match dict_get offs delta with
      | Some n => n
      | None => 0
      end
  | None => 0
  end.

Definition votes_total (v : votes) (song_id : Z) : Z :=
  match dict_get v song_id with
  | Some offs => sum_values offs
  | None => 0
  end.

Definition votes_best (v : votes) (song_id : Z) : Z :=
  match dict_get v song_id with
  | Some offs => snd (max_item offs)
  | None => 0
  end.

(** The order in which songs enter [votes]. *)
Definition add_key (K : list Z) (s : Z) : list Z :=
  if existsb (Z.eqb s) K then K else K ++ [s].

Definition seen_order (l K : list Z) : list Z := fold_left add_key l K.

(** A candidate without its offset. *)
Definition summary (x : candidate) : Z * Z * Z :=
  (cand_song x, cand_count x, cand_hits x).

(** Dictionaries as the votes build them: distinct keys, no empty
    histogram, positive counts. *)
Definition wf_histogram (offs : histogram) : Prop :=
  offs <> [] /\ NoDup (map fst offs) /\ Forall (fun e => 0 < snd e) offs.

Definition wf_votes (v : votes) : Prop :=
  NoDup (map fst v) /\ Forall (fun e => wf_histogram (snd e)) v.

(** The events of one hash of the query met at the time [tq]. *)
Definition block (P : string -> list (Z * Z)) (h : string) (tq : Z)
  : list event :=
  map (fun '(song_id, t_song) => (song_id, t_song - tq)) (P h).

(** The result printed for a candidate. *)
Definition printed (d : db) (x : candidate) : result :=
  let '(song_id, votes_count, offset, total_hits) := x in
  let '(artist, title) := meta_get (load_meta d) song_id in
  (artist, title, votes_count, offset, total_hits).

(** A song whose hashes [0a], [0b], [0c], [0d] sit at the times 10, 20,
    20 and 5, in a pickle index and in a database, and a query of five
    distinct hashes. *)
Definition tie_index : pickle_index :=
  [("0a", [(1, 10)]); ("0b", [(1, 20)]); ("0c", [(1, 20)]);
   ("0d", [(1, 5)])]%string.

Definition tie_db : db :=
  mkDb [] [([x0a], 1, 10); ([x0b], 1, 20); ([x0c], 1, 20); ([x0d], 1, 5)].

Definition tie_query : list (string * Z) :=
  [("0a", 0); ("0b", 0); ("0a", 5); ("0c", 0); ("0d", 0)]%string.

(** ** The spectrogram in decibels ([spectrogram]) *)

(** The samples and the magnitudes are real numbers here; a value in
    decibels is a real number or minus infinity. *)
Inductive dB := NegInf | Fin (x : R).

(** [np.max]; it raises on an empty array, which the STFT, with its
    1025 bins and at least one frame, never is. *)
Definition array_max (l : list R) : R :=
  match l with
  | [] => 0%R
  | x :: rest => fold_left Rmax rest x
  end.

Definition log10 (x : R) : R := (ln x / ln 10)%R.

(** The defaults of [librosa.amplitude_to_db], which [spectrogram]
    leaves as they are. *)
Definition amin : R := (1 / 100000)%R.
Definition top_db : R := 80%R.

(** [librosa.power_to_db(S, ref=ref, amin=amin, top_db=top_db)]: the
    power is clipped from below at [amin] before the logarithm, and the
    result at [top_db] under its largest value. *)
Definition power_to_db (S : list (list R)) (ref amin top_db : R)
  : list (list R) :=
  let ref_value := Rabs ref in
  let log_spec :=
    map (map (fun p =>
                (10 * log10 (Rmax amin p)
                 - 10 * log10 (Rmax amin ref_value))%R))
        S in
  let top := array_max (List.concat log_spec) in
  map (map (fun x => Rmax x (top - top_db))) log_spec.

(** [librosa.amplitude_to_db(S, ref=np.max)] *)
Definition amplitude_to_db (S : list (list R)) : list (list R) :=
  let magnitude := map (map Rabs) S in
  let ref_value := array_max (List.concat magnitude) in
  let power := map (map (fun m => (m * m)%R)) magnitude in
  power_to_db power (ref_value * ref_value) (amin * amin) top_db.

(** [spec_in_dB] of [spectrogram], from [spec], the magnitudes of the
    STFT of the resampled samples, a row for each frequency bin. *)
Definition spec_in_dB (spec : list (list R)) : list (list dB) :=
  map (map Fin) (amplitude_to_db spec).

(** The magnitudes of the STFT of [frames] frames of silence: the
    transform is linear and all the samples are zero. *)
Definition silence (bins frames : nat) : list (list R) :=
  repeat (repeat 0%R frames) bins.

(** ** The peaks ([local_maxima]) *)

Definition dB_leb (a b : dB) : bool :=
  match a, b with
  | NegInf, _ => true
  | Fin _, NegInf => false
  | Fin x, Fin y => if Rle_dec x y then true else false
  end.

Definition dB_eqb (a b : dB) : bool := dB_leb a b && dB_leb b a.

Definition dB_max (a b : dB) : dB := if dB_leb a b then b else a.

(** The cell [(i, j)] of an array, if there is one. *)
Definition cell (S : list (list dB)) (i j : Z) : option dB :=
  if (0 <=? i) && (0 <=? j) then
    match nth_error S (Z.to_nat i) with
    | Some row => nth_error row (Z.to_nat j)
    | None => None
    end
  else None.

(** The offsets of a window of the given size around its centre: for
    16, from -8 to 7. *)
Definition window (size : Z) : list Z :=
  map (fun k => Z.of_nat k - size / 2) (seq 0 (Z.to_nat size)).

(** [maximum_filter(S, footprint=np.ones(PEAK_NEIGHBORHOOD),
    mode='constant')]: outside the array a cell counts for [cval], 0. *)
Definition maximum_filter (S : list (list dB)) (i j : Z) : dB :=
  fold_right dB_max NegInf
    (flat_map
       (fun di =>
          map (fun dj =>
                 match cell S (i + di) (j + dj) with
                 | Some x => x
                 | None => Fin 0
                 end)
              (window (snd PEAK_NEIGHBORHOOD)))
       (window (fst PEAK_NEIGHBORHOOD))).

(** [spec_in_dB == -np.inf], with the [border_value=1] of the erosion
    outside the array. *)
Definition background (S : list (list dB)) (i j : Z) : bool :=
  match cell S i j with
  | Some NegInf => true
  | Some (Fin _) => false
  | None => true
  end.

(** [binary_erosion] by the cross [generate_binary_structure(2, 1)]. *)
Definition background_erroded (S : list (list dB)) (i j : Z) : bool :=
  background S i j && background S (i - 1) j && background S (i + 1) j
  && background S i (j - 1) && background S i (j + 1).

Definition actual_peaks (S : list (list dB)) (i j : Z) : bool :=
  match cell S i j with
  | Some x => dB_eqb x (maximum_filter S i j) && negb (background_erroded S i j)
  | None => false
  end.

(** [np.argwhere(actual_peaks)]: the cells that hold, row by row. *)
Definition argwhere (S : list (list dB)) : list (Z * Z) :=
  flat_map
    (fun i =>
       flat_map
         (fun j =>
            if actual_peaks S (Z.of_nat i) (Z.of_nat j)
            then [(Z.of_nat i, Z.of_nat j)] else [])
         (seq 0 (List.length (nth i S []))))
    (seq 0 (List.length S)).

(** [peak_by_time_frame[time].append((freq, spec_in_dB[freq, time]))] *)
Fixpoint frame_add (time : Z) (x : Z * dB) (g : list (Z * list (Z * dB)))
  : list (Z * list (Z * dB)) :=
  match g with
  | [] => [(time, [x])]
  | (k, arr) :: rest =>
      if k =? time then (k, arr ++ [x]) :: rest
      else (k, arr) :: frame_add time x rest
  end.

Definition frame_step (S : list (list dB)) (g : list (Z * list (Z * dB)))
  (c : Z * Z) : list (Z * list (Z * dB)) :=
  let '(freq, time) := c in
  match cell S freq time with
  | Some x => frame_add time (freq, x) g
  | None => g
  end.

Definition peak_by_time_frame (S : list (list dB))
  : list (Z * list (Z * dB)) :=
  fold_left (frame_step S) (argwhere S) [].

(** [arr.sort(key=lambda x: x[1], reverse=True)] *)
Fixpoint insert_by_strength (x : Z * dB) (l : list (Z * dB))
  : list (Z * dB) :=
  match l with
  | [] => [x]
  | y :: l' =>
      if dB_leb (snd y) (snd x) then x :: y :: l'
      else y :: insert_by_strength x l'
  end.

Definition sort_by_strength (l : list (Z * dB)) : list (Z * dB) :=
  fold_right insert_by_strength [] l.

(** The peaks held by the groups, and the peaks kept of a group. *)
Definition frame_cells (g : list (Z * list (Z * dB))) : list peak :=
  flat_map (fun e => map (fun x => (fst x, fst e)) (snd e)) g.

Definition top_of_frame (e : Z * list (Z * dB)) : list peak :=
  map (fun x => (fst x, fst e))
      (firstn (Z.to_nat TOP_PEAKS_PER_FRAME) (sort_by_strength (snd e))).

(** [kept.sort(key=lambda x: x[1])] *)
Fixpoint insert_by_time (x : peak) (l : list peak) : list peak :=
  match l with
  | [] => [x]
  | y :: l' =>
      if snd x <=? snd y then x :: y :: l' else y :: insert_by_time x l'
  end.

Definition sort_by_time (l : list peak) : list peak :=
  fold_right insert_by_time [] l.

Definition kept (S : list (list dB)) : list peak :=
  flat_map top_of_frame (peak_by_time_frame S).

Definition local_maxima (S : list (list dB)) : list peak :=
  sort_by_time (kept S).

(** [make_hash_from_audio], from the magnitudes of the STFT on. *)
Definition make_hash_from_audio (spec : list (list R)) : list (string * Z) :=
  make_hash_from_peaks (local_maxima (spec_in_dB spec)).

(** ** Predicates on the peaks *)

Definition by_time (a b : peak) : Prop := snd a <= snd b.

(** The peaks of a list that lie in the frame [t]. *)
Definition peaks_of_frame (t : Z) (peaks : list peak) : list peak :=
  filter (fun p => snd p =? t) peaks.

(** The value that [maximum_filter] reads at a cell: the cell, or 0
    outside the array. *)
Definition padded (S : list (list dB)) (i j : Z) : dB :=
  match cell S i j with
  | Some x => x
  | None => Fin 0
  end.

(** A cell accepted as a peak: it holds a value that no cell of its
    neighbourhood exceeds, the array being continued by 0 dB, and it is
    not inside the eroded background. *)
Definition accepted_cell (S : list (list dB)) (p : peak) : Prop :=
  exists x,
    cell S (fst p) (snd p) = Some x
    /\ (forall di dj,
           -8 <= di <= 7 -> -8 <= dj <= 7 ->
           dB_leb (padded S (fst p + di) (snd p + dj)) x = true)
    /\ background_erroded S (fst p) (snd p) = false.

(** A value in decibels between -80 and 0. *)
Definition in_dB_range (x : dB) : Prop :=
  exists r, x = Fin r /\ (-80 <= r <= 0)%R.

(** ** The target zone as a predicate *)

(** [p] lies in the target zone of [anchor]. *)
Definition in_zone (anchor p : peak) : bool :=
  (snd anchor + 2 <=? snd p) && (snd p <=? snd anchor + 64)
  && (Z.abs (fst p - fst anchor) <=? 48).

(** Every peak paired with the first eight later peaks of its zone. *)
Fixpoint zone_pairs (peaks : list peak) : list (peak * peak) :=
  match peaks with
  | [] => []
  | anchor :: later =>
      map (fun target => (anchor, target))
          (firstn 8 (filter (in_zone anchor) later))
        ++ zone_pairs later
  end.

(** The string that [hash_pair] encodes and digests. *)
Definition hash_input (anchor_peak_bin target_peak_freq_bin dt : Z) : string :=
  (py_str anchor_peak_bin ++ "|" ++ py_str target_peak_freq_bin
     ++ "|" ++ py_str dt)%string.

Fixpoint has_bar (s : string) : bool :=
  match s with
  | EmptyString => false
  | String c s' => Ascii.eqb c "|" || has_bar s'
  end.

(** The postings [(song_id, t)] that the hashes of a track give under
    the binary key [hbin]. *)
Definition postings_of (song_id : Z) (hash_list : list (string * Z))
  (hbin : list byte) : list (Z * Z) :=
  map (fun x => (song_id, snd x))
      (filter (fun x => match fromhex (fst x) with
                        | Some b => bytes_eqb b hbin
                        | None => false
                        end)
              hash_list).

Definition no_hash_row (d : db) (song_id : Z) : Prop :=
  forall r, In r (hashes d) -> hash_song_id r <> song_id.

(** ** Predicates on builds *)

(** [d'] is [d] with rows added at the end of its tables, all of them
    rows of songs that satisfy [ok]. *)
Definition grown_by (ok : Z -> Prop) (d d' : db) : Prop :=
  exists new_songs new_hashes,
    songs d' = songs d ++ new_songs
    /\ hashes d' = hashes d ++ new_hashes
    /\ Forall (fun r => ok (row_song_id r)) new_songs
    /\ Forall (fun r => ok (hash_song_id r)) new_hashes.

(** A song of the manifest that is not in the database. *)
Definition new_song (items : list item) (d : db) (song_id : Z) : Prop :=
  In song_id (map item_song_id items)
  /\ song_exists (mkConn d d) song_id = false.

(** The lines of a run that skips [n] items. *)
Definition skipped (n : nat) : list (nat * note) :=
  map (fun i => (i, SKIP)) (seq 1 n).

(** The rows of the songs that a rebuild of [ids] is not asked for. *)
Definition other_songs (ids : list Z) (d : db) : list song_row :=
  filter (fun r => negb (existsb (Z.eqb (row_song_id r)) ids)) (songs d).

Definition other_hashes (ids : list Z) (d : db) : list hash_row :=
  filter (fun r => negb (existsb (Z.eqb (hash_song_id r)) ids)) (hashes d).

(** No statement fails. *)
Definition fault_free (faulty : nat -> store_call -> bool) : Prop :=
  forall i call, faulty i call = false.

(** What a build started on [d] keeps true of its connection: the rows
    committed are those of [d] followed by rows of new songs of the
    manifest, and the open transaction has only added such rows. *)
Definition build_inv (items : list item) (d : db) (c : conn) : Prop :=
  grown_by (new_song items d) d (committed c)
  /\ grown_by (new_song items d) (committed c) (working c).

(** What a rebuild of [ids] started on [d] keeps true of its
    connection: the rows of the other songs are those of [d]. *)
Definition rebuild_inv (ids : list Z) (d : db) (c : conn) : Prop :=
  (other_songs ids (working c) = other_songs ids d
   /\ other_hashes ids (working c) = other_hashes ids d)
  /\ (other_songs ids (committed c) = other_songs ids d
      /\ other_hashes ids (committed c) = other_hashes ids d).

(** The rows of a song. *)
Definition song_rows (d : db) (song_id : Z) : list song_row :=
  filter (fun r => row_song_id r =? song_id) (songs d).

Definition hash_rows_of (d : db) (song_id : Z) : list hash_row :=
  filter (fun r => hash_song_id r =? song_id) (hashes d).

(** ** The pickle index ([build_index]) *)

(** [index.setdefault(hash, []).append((song_id, time))] *)
Fixpoint index_add (h : string) (p : Z * Z) (index : pickle_index)
  : pickle_index :=
  match index with
  | [] => [(h, [p])]
  | (k, ps) :: rest =>
      if String.eqb k h then (k, ps ++ [p]) :: rest
      else (k, ps) :: index_add h p rest
  end.

(** The inner loop of [build_index], over the hashes of one file. *)
Definition index_track (song_id : Z) (hashes : list (string * Z))
  (index : pickle_index) : pickle_index :=
  fold_left (fun index '(h, time) => index_add h (song_id, time) index)
            hashes index.

(** [build_index]; [generate_hashes_from_file] reads the file and
    fingerprints it, and is a parameter here.  The result is the pair of
    the entries ["index"] and ["songs"] of the returned dictionary. *)
Definition build_index {Meta : Type}
  (generate_hashes_from_file : string -> list (string * Z))
  (library_files : list (Z * string * Meta))
  : pickle_index * list (Z * Meta) :=
  fold_left
    (fun '(index, songs) '(song_id, path, meta) =>
       (index_track song_id (generate_hashes_from_file path) index,
        dict_set song_id meta songs))
    library_files ([], []).

(** The tracks of a library: each song_id with the hashes of its file. *)
Definition tracks_of {Meta : Type}
  (generate_hashes_from_file : string -> list (string * Z))
  (library_files : list (Z * string * Meta)) : list (Z * list (string * Z)) :=
  map (fun '(song_id, path, _) => (song_id, generate_hashes_from_file path))
      library_files.

(** The places [(song_id, time)] where the hash [h] occurs in the
    tracks, track by track. *)
Definition postings_in (tracks : list (Z * list (string * Z))) (h : string)
  : list (Z * Z) :=
  flat_map (fun '(song_id, hashes) =>
              map (fun x => (song_id, snd x))
                  (filter (fun x => String.eqb (fst x) h) hashes))
           tracks.

(** A key as [hexdigest] writes it. *)
Definition is_hexdigest (h : string) : Prop := exists b, h = hex_of_bytes b.

(** The item of the manifest and the track are the same song, and
    fingerprinting the item gives the hashes of the track. *)
Definition item_of_track
  (fingerprint_track : item -> outcome (list (string * Z)))
  (it : item) (track : Z * list (string * Z)) : Prop :=
  item_song_id it = fst track /\ fingerprint_track it = Returned (snd track).

(** ** A query taken later *)

(** The hashes of a query whose times are all [k] frames later. *)
Definition delayed (k : Z) (hashes : list (string * Z)) : list (string * Z) :=
  map (fun x => (fst x, snd x + k)) hashes.

(** A candidate and a result with the offset [k] frames earlier. *)
Definition earlier (k : Z) (x : candidate) : candidate :=
  let '(song_id, count, offset, total_hits) := x in
  (song_id, count, offset - k, total_hits).

Definition earlier_result (k : Z) (r : result) : result :=
  let '(artist, title, votes_count, offset, total_hits) := r in
  (artist, title, votes_count, offset - k, total_hits).

(** The votes with every offset [k] frames earlier. *)
Definition earlier_offsets (k : Z) (offs : histogram) : histogram :=
  map (fun e => (fst e - k, snd e)) offs.

Definition earlier_votes (k : Z) (v : votes) : votes :=
  map (fun e => (fst e, earlier_offsets k (snd e))) v.

(** The order of [arr.sort(key=lambda x: x[1], reverse=True)]. *)
Definition by_strength (a b : Z * dB) : Prop := dB_leb (snd b) (snd a) = true.

(** The entries of the groups, each with the time of its group. *)
Definition frame_entries (g : list (Z * list (Z * dB))) : list (Z * (Z * dB)) :=
  flat_map (fun e => map (fun x => (fst e, x)) (snd e)) g.

(** ** The order of the ranking *)

(** The songs in the order in which they first receive a vote. *)
Definition first_voted (events : list event) : list Z :=
  seen_order (map fst events) [].

(** The songs of [l], listed in the order of their first votes, are [l]
    itself: [l] comes in that order. *)
Definition in_first_vote_order (events : list event) (l : list Z) : Prop :=
  filter (fun s => existsb (Z.eqb s) l) (first_voted events) = l.

(** The candidates with [c] votes. *)
Definition tied (c : Z) (scored : list candidate) : list candidate :=
  filter (fun x => cand_count x =? c) scored.

(** The events of the query as [match_hashes_sqlite] votes on them. *)
Definition sqlite_events (d : db) (hashes : list (string * Z)) : list event :=
  events_sqlite (rows_of d) (by_hash hashes).

(** The row that [add_hashes] builds for the hash of a pair of peaks. *)
Definition row_of_pair (song_id : Z) (p : peak * peak) : hash_row :=
  let '((freq1, time1), (freq2, time2)) := p in
  (MD5.digest (list_byte_of_string (hash_input freq1 freq2 (time2 - time1))),
   song_id, time1).

(** The connection with the rows [p] inserted in [hashes] by the open
    transaction. *)
Definition add_rows (c : conn) (p : list hash_row) : conn :=
  mkConn (committed c) (mkDb (songs (working c)) (hashes (working c) ++ p)).

(** The song_ids of the manifest fit SQLite's integers. *)
Definition ids_fit (items : list item) : Prop :=
  Forall (fun it => int64 (item_song_id it) = true) items.

(** The hashes have hexadecimal keys and times that fit SQLite's
    integers. *)
Definition storable (hashes : list (string * Z)) : Prop :=
  Forall (fun x => fromhex (fst x) <> None /\ int64 (snd x) = true) hashes.

(** * Properties *)

(** ** MD5 and hexadecimal keys *)

Example md5_abc :
  hexdigest (list_byte_of_string "abc")
  = "900150983cd24fb0d6963f7d28e17f72"%string.
Proof. vm_compute. reflexivity. Qed.

Example hash_pair_12_34_5 :
  hash_pair 12 34 5 = "3c28d782634d4dc63ee820fa311afe93"%string.
Proof. vm_compute. reflexivity. Qed.

Lemma le_bytes_length (n : nat) (w : Z) : List.length (MD5.le_bytes n w) = n.
Proof.
  revert w. induction n as [|n IH]; intros w; simpl; [reflexivity|].
  now rewrite IH.
Qed.

Lemma digest_length (msg : list byte) : List.length (MD5.digest msg) = 16%nat.
Proof.
  unfold MD5.digest. rewrite !length_app, !le_bytes_length. reflexivity.
Qed.

Lemma hex_of_bytes_length (bs : list byte) :
  String.length (hex_of_bytes bs) = (2 * List.length bs)%nat.
Proof.
  induction bs as [|b bs IH]; simpl; [reflexivity|].
  rewrite IH. lia.
Qed.

(** Decoding the two digits written for a byte gives the byte back. *)
Lemma fromhex_byte (b : byte) (rest : string) :
  fromhex (String (hex_digit (MD5.byteZ b / 16))
             (String (hex_digit (MD5.byteZ b mod 16)) rest))
  = option_map (cons b) (fromhex rest).
Proof. destruct b; reflexivity. Qed.

Lemma fromhex_hex_of_bytes (bs : list byte) :
  fromhex (hex_of_bytes bs) = Some bs.
Proof.
  induction bs as [|b bs IH]; [reflexivity|].
  cbn [hex_of_bytes]. rewrite fromhex_byte, IH. reflexivity.
Qed.

Lemma hex_of_bytes_inj (a b : list byte) :
  hex_of_bytes a = hex_of_bytes b -> a = b.
Proof.
  intros E. pose proof (fromhex_hex_of_bytes a) as Ha.
  rewrite E, fromhex_hex_of_bytes in Ha. congruence.
Qed.

Lemma hash_pair_digest (f1 f2 dt : Z) :
  exists msg, hash_pair f1 f2 dt = hex_of_bytes (MD5.digest msg).
Proof. unfold hash_pair, hexdigest. eexists. reflexivity. Qed.

(** *** What [executemany] leaves *)

Lemma executemany_ok (fails : nat -> bool) (rows : list hash_row) :
  (forall k, fails k = false) -> Forall (fun r => fits r = true) rows ->
  forall k table, executemany fails k rows table = (None, table ++ rows).
Proof.
  intros Hf F. induction F as [|r rows Hr F IH]; intros k table.
  - cbn. now rewrite app_nil_r.
  - cbn [executemany]. rewrite Hr, Hf. cbn [negb]. rewrite IH.
    now rewrite <- app_assoc.
Qed.

Lemma executemany_prefix (fails : nat -> bool) (rows : list hash_row) :
  forall k table,
    exists n, snd (executemany fails k rows table) = table ++ firstn n rows.
Proof.
  induction rows as [|r rows IH]; intros k table.
  - exists 0%nat. cbn. now rewrite app_nil_r.
  - cbn [executemany]. destruct (fits r); cbn [negb].
    + destruct (fails k).
      * exists 0%nat. cbn. now rewrite app_nil_r.
      * destruct (IH (S k) (table ++ [r])) as [n E]. exists (S n).
        rewrite E. cbn [firstn]. now rewrite <- app_assoc.
    + exists 0%nat. cbn. now rewrite app_nil_r.
Qed.

Lemma executemany_None (fails : nat -> bool) (rows : list hash_row) :
  forall k table,
    fst (executemany fails k rows table) = None ->
    Forall (fun r => fits r = true) rows
    /\ snd (executemany fails k rows table) = table ++ rows.
Proof.
  induction rows as [|r rows IH]; intros k table E.
  - cbn. rewrite app_nil_r. split; [constructor | reflexivity].
  - cbn [executemany] in *. destruct (fits r) eqn:Hr; cbn [negb] in *;
      [|discriminate].
    destruct (fails k); [discriminate|].
    destruct (IH _ _ E) as [F S]. split; [now constructor|].
    rewrite S. now rewrite <- app_assoc.
Qed.

(** Whether [executemany] raises, and what, does not depend on the
    rows that the table holds. *)
Lemma executemany_outcome (fails : nat -> bool) (rows : list hash_row) :
  forall k t t',
    fst (executemany fails k rows t) = fst (executemany fails k rows t').
Proof.
  induction rows as [|r rows IH]; intros k t t'; [reflexivity|].
  cbn [executemany]. destruct (fits r); cbn [negb]; [|reflexivity].
  destruct (fails k); [reflexivity | apply IH].
Qed.

Lemma add_hashes_Some (c c' : conn) (sid : Z) (hl : list (string * Z)) :
  add_hashes c sid hl = Some c'
  <-> exists rows,
        hash_rows sid hl = Some rows
        /\ Forall (fun r => fits r = true) rows
        /\ c' = mkConn (committed c)
                       (mkDb (songs (working c)) (hashes (working c) ++ rows)).
Proof.
  unfold add_hashes, add_hashes_run.
  destruct (hash_rows sid hl) as [rows|]; cbn zeta.
  - destruct (executemany (fun _ => false) 0 rows (hashes (working c)))
      as [[e|] table] eqn:E.
    + split; [discriminate|]. intros [rows' [R [F _]]]. injection R as <-.
      rewrite (executemany_ok _ rows (fun _ => eq_refl) F) in E. discriminate.
    + pose proof (executemany_None (fun _ => false) rows 0%nat
                    (hashes (working c))) as N.
      rewrite E in N. destruct (N eq_refl) as [F S]. cbn [snd] in S. subst table.
      split.
      * intros H. injection H as <-. exists rows. auto.
      * intros [rows' [R [_ ->]]]. injection R as <-. reflexivity.
  - split; [discriminate|]. intros [rows [R _]]. discriminate.
Qed.

Lemma add_hashes_run_prefix (fails : nat -> bool) (c : conn) (sid : Z)
  (hl : list (string * Z)) (rows : list hash_row) :
  hash_rows sid hl = Some rows ->
  exists n,
    snd (add_hashes_run fails c sid hl)
    = mkConn (committed c)
        (mkDb (songs (working c)) (hashes (working c) ++ firstn n rows)).
Proof.
  intros R. unfold add_hashes_run. rewrite R. cbn zeta.
  destruct (executemany_prefix fails rows 0%nat (hashes (working c))) as [n E].
  exists n. destruct (executemany fails 0 rows (hashes (working c))) as [r t].
  cbn [snd] in *. now rewrite E.
Qed.

Lemma hash_rows_pairs (sid : Z) (pairs : list (peak * peak)) :
  hash_rows sid (map hash_of_pair pairs) = Some (map (row_of_pair sid) pairs).
Proof.
  induction pairs as [|[[f1 t1] [f2 t2]] pairs IH]; [reflexivity|].
  cbn [map hash_of_pair hash_rows row_of_pair].
  change (hash_pair f1 f2 (t2 - t1))
    with (hex_of_bytes
            (MD5.digest (list_byte_of_string (hash_input f1 f2 (t2 - t1))))).
  rewrite fromhex_hex_of_bytes, IH. reflexivity.
Qed.

Lemma row_of_pair_key (sid : Z) (p : peak * peak) :
  hex_of_bytes (fst (fst (row_of_pair sid p))) = fst (hash_of_pair p)
  /\ List.length (fst (fst (row_of_pair sid p))) = 16%nat
  /\ hash_song_id (row_of_pair sid p) = sid
  /\ snd (row_of_pair sid p) = snd (hash_of_pair p).
Proof.
  destruct p as [[f1 t1] [f2 t2]]. cbn [row_of_pair hash_of_pair fst snd].
  split; [reflexivity|]. split; [apply digest_length|]. split; reflexivity.
Qed.

(** ** The target zone and the fan-out *)

Lemma scan_targets_zone (freq1 time1 : Z) (later : list peak) :
  forall count freq2 time2,
    In (freq2, time2) (scan_targets freq1 time1 count later) ->
    2 <= time2 - time1 <= 64 /\ Z.abs (freq2 - freq1) <= 48.
Proof.
  induction later as [|[f t] rest IH]; intros count freq2 time2 H;
    [contradiction|].
  cbn [scan_targets] in H.
  unfold TARGET_ZONE_T_FRAMES, TARGET_ZONE_F_BINS, fst, snd in H.
  destruct (t <=? time1 + 64) eqn:Emax; [|contradiction].
  destruct ((time1 + 2 <=? t) && (Z.abs (f - freq1) <=? 48)) eqn:Ezone.
  - destruct H as [H|H].
    + inversion H; subst. apply andb_prop in Ezone. lia.
    + destruct (HASH_FANOUT <=? count + 1); [contradiction|].
      exact (IH _ _ _ H).
  - exact (IH _ _ _ H).
Qed.

(** C3: every pair emitted for an anchor [(f1, t1)] and a target
    [(f2, t2)] has [2 <= t2 - t1 <= 64] and [|f2 - f1| <= 48], whatever
    the list of peaks. *)
Theorem C3_pairs_in_target_zone (peaks : list peak) (f1 t1 f2 t2 : Z)
  (H : In ((f1, t1), (f2, t2)) (landmark_pairs peaks)) :
  2 <= t2 - t1 <= 64 /\ Z.abs (f2 - f1) <= 48.
Proof.
  induction peaks as [|anchor later IH]; [contradiction|].
  cbn [landmark_pairs] in H. apply in_app_or in H. destruct H as [H|H].
  - unfold anchor_pairs in H. apply in_map_iff in H.
    destruct H as [[f t] [E H]]. injection E as -> -> ->.
    cbn [fst snd] in H.
    exact (scan_targets_zone _ _ _ _ _ _ H).
  - exact (IH H).
Qed.

Lemma C3_witness :
  In ((1, 0), (3, 2)) (landmark_pairs [(1, 0); (2, 1); (3, 2)])
  /\ (2 <= 2 - 0 <= 64 /\ Z.abs (3 - 1) <= 48).
Proof.
  assert (H : In ((1, 0), (3, 2)) (landmark_pairs [(1, 0); (2, 1); (3, 2)]))
    by (vm_compute; auto).
  split; [exact H | exact (C3_pairs_in_target_zone _ _ _ _ _ H)].
Defined.

Lemma scan_targets_fanout (freq1 time1 : Z) (later : list peak) :
  forall count,
    0 <= count < HASH_FANOUT ->
    Z.of_nat (List.length (scan_targets freq1 time1 count later))
    <= HASH_FANOUT - count.
Proof.
  unfold HASH_FANOUT.
  induction later as [|[f t] rest IH]; intros count Hc; cbn [scan_targets].
  - cbn [List.length]. lia.
  - destruct (t <=? _); [|cbn [List.length]; lia].
    destruct (_ && _).
    + unfold HASH_FANOUT. destruct (8 <=? count + 1) eqn:E.
      * cbn [List.length]. lia.
      * apply Z.leb_gt in E. specialize (IH (count + 1)).
        cbn [List.length]. lia.
    + apply IH, Hc.
Qed.

Lemma anchor_pairs_fanout (anchor : peak) (later : list peak) :
  Z.of_nat (List.length (anchor_pairs anchor later)) <= HASH_FANOUT.
Proof.
  unfold anchor_pairs. rewrite length_map.
  pose proof (scan_targets_fanout (fst anchor) (snd anchor) later 0).
  unfold HASH_FANOUT in *. lia.
Qed.

Lemma peak_eqb_eq (a b : peak) : peak_eqb a b = true <-> a = b.
Proof.
  destruct a as [f t], b as [f' t']. unfold peak_eqb. cbn [fst snd].
  rewrite andb_true_iff, !Z.eqb_eq. split.
  - intros [-> ->]. reflexivity.
  - intros E. inversion E. auto.
Qed.

Lemma anchor_pairs_anchor (anchor : peak) (later : list peak) (p : peak * peak) :
  In p (anchor_pairs anchor later) -> fst p = anchor.
Proof.
  unfold anchor_pairs. rewrite in_map_iff. intros [t [<- _]]. reflexivity.
Qed.

Lemma landmark_pairs_anchor (peaks : list peak) (p : peak * peak) :
  In p (landmark_pairs peaks) -> In (fst p) peaks.
Proof.
  induction peaks as [|anchor later IH]; [contradiction|].
  cbn [landmark_pairs]. rewrite in_app_iff. intros [H|H].
  - left. symmetry. exact (anchor_pairs_anchor _ _ _ H).
  - right. exact (IH H).
Qed.

(** C9: [hash_pair] always returns the 32 hexadecimal characters of an
    MD5 digest, which decode to 16 bytes.  [add_hashes] applied to the
    hashes of a track builds for each hash the row of the 16 bytes of
    its digest, the song_id and the time of the anchor; it stores these
    rows, in their order, after the rows of the table, which stay as
    they were: all of them when the song_id and the times fit SQLite's
    integers, otherwise and whenever it raises some first ones, so that
    every key it stores is 16 bytes long. *)
Theorem C9_hash_keys_16_bytes :
  (forall f1 f2 dt,
      String.length (hash_pair f1 f2 dt) = 32%nat
      /\ exists key,
           fromhex (hash_pair f1 f2 dt) = Some key
           /\ List.length key = 16%nat
           /\ hex_of_bytes key = hash_pair f1 f2 dt)
  /\ (forall fails c song_id peaks,
         exists rows,
           map (fun r : hash_row => (hex_of_bytes (fst (fst r)), snd r)) rows
           = make_hash_from_peaks peaks
           /\ Forall (fun r : hash_row =>
                        hash_song_id r = song_id
                        /\ List.length (fst (fst r)) = 16%nat)
                     rows
           /\ (exists n,
                 snd (add_hashes_run fails c song_id
                        (make_hash_from_peaks peaks))
                 = mkConn (committed c)
                     (mkDb (songs (working c))
                           (hashes (working c) ++ firstn n rows)))
           /\ (int64 song_id = true ->
               Forall (fun p : peak => int64 (snd p) = true) peaks ->
               add_hashes c song_id (make_hash_from_peaks peaks)
               = Some (mkConn (committed c)
                         (mkDb (songs (working c))
                               (hashes (working c) ++ rows))))).
Proof.
  split.
  - intros f1 f2 dt. destruct (hash_pair_digest f1 f2 dt) as [msg Hm].
    rewrite Hm. split.
    + rewrite hex_of_bytes_length, digest_length. reflexivity.
    + exists (MD5.digest msg).
      auto using fromhex_hex_of_bytes, digest_length.
  - intros fails c song_id peaks. unfold make_hash_from_peaks.
    exists (map (row_of_pair song_id) (landmark_pairs peaks)).
    pose proof (hash_rows_pairs song_id (landmark_pairs peaks)) as R.
    split; [|split; [|split]].
    + rewrite map_map. apply map_ext. intros p.
      destruct (row_of_pair_key song_id p) as [H1 [_ [_ H4]]].
      rewrite H1, H4. now destruct (hash_of_pair p).
    + apply Forall_forall. intros r Hr. apply in_map_iff in Hr.
      destruct Hr as [p [<- _]].
      destruct (row_of_pair_key song_id p) as [_ [H2 [H3 _]]]. auto.
    + exact (add_hashes_run_prefix fails c song_id _ _ R).
    + intros Hs Ht. apply add_hashes_Some.
      exists (map (row_of_pair song_id) (landmark_pairs peaks)).
      split; [exact R|]. split; [|reflexivity].
      apply Forall_forall. intros r Hr. apply in_map_iff in Hr.
      destruct Hr as [p [<- Hp]]. unfold fits.
      destruct (row_of_pair_key song_id p) as [_ [_ [H3 H4]]].
      rewrite H3, H4, Hs. cbn [andb].
      apply landmark_pairs_anchor in Hp. rewrite Forall_forall in Ht.
      destruct p as [[f1 t1] [f2 t2]]. cbn [hash_of_pair snd fst] in *.
      exact (Ht _ Hp).
Qed.

Lemma C9_witness :
  exists c',
    add_hashes (mkConn (mkDb [] []) (mkDb [] [])) 7
      (make_hash_from_peaks [(12, 0); (34, 5)]) = Some c'
    /\ Forall (fun r : hash_row => List.length (fst (fst r)) = 16%nat)
              (hashes (working c')).
Proof.
  destruct (proj2 C9_hash_keys_16_bytes (fun _ => false)
              (mkConn (mkDb [] []) (mkDb [] [])) 7 [(12, 0); (34, 5)])
    as [rows [_ [F [_ H]]]].
  exists (mkConn (mkDb [] []) (mkDb [] ([] ++ rows))). split.
  - apply H; [reflexivity | repeat constructor].
  - cbn [working hashes app]. eapply Forall_impl; [|exact F].
    intros r [_ L]. exact L.
Defined.

Lemma filter_none {A : Type} (f : A -> bool) (l : list A) :
  (forall x, In x l -> f x = false) -> filter f l = [].
Proof.
  induction l as [|x l IH]; intros H; [reflexivity|].
  simpl. rewrite (H x (or_introl eq_refl)). apply IH.
  intros y Hy. apply H. now right.
Qed.

Lemma filter_all {A : Type} (f : A -> bool) (l : list A) :
  (forall x, In x l -> f x = true) -> filter f l = l.
Proof.
  induction l as [|x l IH]; intros H; [reflexivity|].
  simpl. rewrite (H x (or_introl eq_refl)). f_equal. apply IH.
  intros y Hy. apply H. now right.
Qed.

(** Distinct peaks: at most 8 pairs have a given peak as anchor. *)
Lemma fanout_of_distinct_peaks (peaks : list peak) (a : peak) :
  NoDup peaks ->
  Z.of_nat (List.length (pairs_anchored_at a (landmark_pairs peaks))) <= 8.
Proof.
  intros ND. unfold pairs_anchored_at.
  induction ND as [|anchor later Hnot ND IH]; [simpl; lia|].
  cbn [landmark_pairs]. rewrite filter_app, length_app.
  destruct (peak_eqb anchor a) eqn:E.
  - apply peak_eqb_eq in E. subst a.
    rewrite (filter_none _ (landmark_pairs later)).
    + pose proof (anchor_pairs_fanout anchor later) as F.
      pose proof (filter_length_le
                    (fun p => peak_eqb (fst p) anchor)
                    (anchor_pairs anchor later)).
      unfold HASH_FANOUT in F. simpl. lia.
    + intros p Hp. destruct (peak_eqb (fst p) anchor) eqn:E'; [|reflexivity].
      apply peak_eqb_eq in E'. apply landmark_pairs_anchor in Hp.
      rewrite E' in Hp. contradiction.
  - rewrite (filter_none _ (anchor_pairs anchor later)).
    + simpl. exact IH.
    + intros p Hp. apply anchor_pairs_anchor in Hp. rewrite Hp. exact E.
Qed.

(** ** Deleting a song *)

Lemma filter_filter_other {A : Type} (key : A -> Z) (sid other : Z)
  (l : list A) :
  other <> sid ->
  filter (fun r => key r =? other) (filter (fun r => negb (key r =? sid)) l)
  = filter (fun r => key r =? other) l.
Proof.
  intros Hne. induction l as [|x l IH]; [reflexivity|].
  simpl. destruct (key x =? sid) eqn:Es; simpl.
  - apply Z.eqb_eq in Es.
    destruct (key x =? other) eqn:Eo; [apply Z.eqb_eq in Eo; lia | exact IH].
  - destruct (key x =? other); [f_equal|]; exact IH.
Qed.

Lemma filter_not_sid {A : Type} (key : A -> Z) (sid : Z) (l : list A) (r : A) :
  In r (filter (fun r => negb (key r =? sid)) l) -> key r <> sid.
Proof.
  rewrite filter_In, negb_true_iff, Z.eqb_neq. tauto.
Qed.

(** C8: after [delete_song(sid)] no row of [songs] or [hashes] has that
    song_id, the rows of every other song_id are the same, in the same
    order, and the deletion is committed. *)
Theorem C8_delete_song_frame (c : conn) (sid : Z) :
  let c' := delete_song c sid in
  (forall r, In r (songs (working c')) -> row_song_id r <> sid)
  /\ (forall r, In r (hashes (working c')) -> hash_song_id r <> sid)
  /\ (forall other,
         other <> sid ->
         filter (fun r => row_song_id r =? other) (songs (working c'))
         = filter (fun r => row_song_id r =? other) (songs (working c))
         /\ filter (fun r => hash_song_id r =? other) (hashes (working c'))
            = filter (fun r => hash_song_id r =? other) (hashes (working c)))
  /\ committed c' = working c'.
Proof.
  cbn. repeat split.
  - intros r. apply filter_not_sid.
  - intros r. apply filter_not_sid.
  - now apply filter_filter_other.
  - now apply filter_filter_other.
Qed.

Example delete_song_7 :
  let d := mkDb [(7, "a", "b"); (8, "c", "d")]%string
                [([x01], 7, 0); ([x01], 8, 3); ([x02], 7, 5)] in
  delete_song (mkConn d d) 7
  = (let d' := mkDb [(8, "c", "d")]%string [([x01], 8, 3)] in mkConn d' d').
Proof. reflexivity. Qed.

Lemma C8_witness :
  let d := mkDb [(7, "a", "b"); (8, "c", "d")]%string
                [([x01], 7, 0); ([x01], 8, 3); ([x02], 7, 5)] in
  let c' := delete_song (mkConn d d) 7 in
  ~ In (7, "a", "b")%string (songs (working c'))
  /\ ~ In ([x02], 7, 5) (hashes (working c'))
  /\ filter (fun r => hash_song_id r =? 8) (hashes (working c'))
     = [([x01], 8, 3)].
Proof.
  intros d c'.
  destruct (C8_delete_song_frame (mkConn d d) 7) as [Hs [Hh [Hf _]]].
  split; [|split].
  - intros H. exact (Hs _ H eq_refl).
  - intros H. exact (Hh _ H eq_refl).
  - destruct (Hf 8 ltac:(lia)) as [_ E]. exact E.
Defined.

(** ** Candidates without metadata *)

Lemma dict_get_set_other {V : Type} (k k' : Z) (v : V) (m : list (Z * V)) :
  k' <> k -> dict_get (dict_set k' v m) k = dict_get m k.
Proof.
  intros Hne. induction m as [|[k0 v0] m IH]; simpl.
  - destruct (k' =? k) eqn:E; [apply Z.eqb_eq in E; lia | reflexivity].
  - destruct (k0 =? k') eqn:E0; simpl.
    + apply Z.eqb_eq in E0. subst k0.
      destruct (k' =? k) eqn:E; [apply Z.eqb_eq in E; lia | reflexivity].
    + destruct (k0 =? k); [reflexivity | exact IH].
Qed.

Lemma load_meta_missing (d : db) (song_id : Z) :
  no_song_row d song_id -> dict_get (load_meta d) song_id = None.
Proof.
  unfold no_song_row, load_meta.
  assert (G : forall rows m,
             (forall r, In r rows -> row_song_id r <> song_id) ->
             dict_get m song_id = None ->
             dict_get
               (fold_left
                  (fun m '(sid, artist, title) => dict_set sid (artist, title) m)
                  rows m) song_id = None).
  { induction rows as [|[[sid a] t] rows IH]; intros m Hr Hm; [exact Hm|].
    simpl. apply IH.
    - intros r Hin. apply Hr. now right.
    - rewrite dict_get_set_other; [exact Hm|].
      exact (Hr (sid, a, t) (or_introl eq_refl)). }
  intros H. now apply G.
Qed.

(** C10: a ranked song_id without a row in [songs] is still returned, at
    its rank and with its votes, offset and hits, under the artist and
    the title ["?"]. *)
Theorem C10_missing_meta_placeholder
  (hashes : list (string * Z)) (d : db) (topk : Z) (scored : list candidate)
  (n : nat) (song_id votes_count offset total_hits : Z)
  (Hq : hashes <> [])
  (Hrank : ranked_sqlite d hashes = Some scored)
  (Hn : nth_error (py_prefix scored topk) n
        = Some (song_id, votes_count, offset, total_hits))
  (Hmiss : no_song_row d song_id) :
  exists results,
    match_hashes_sqlite hashes d topk = Some results
    /\ nth_error results n
       = Some ("?", "?", votes_count, offset, total_hits)%string.
Proof.
  unfold match_hashes_sqlite. destruct hashes as [|q qs]; [congruence|].
  rewrite Hrank. eexists. split; [reflexivity|].
  rewrite nth_error_map. unfold candidate in *. rewrite Hn. cbn [option_map].
  unfold meta_get. rewrite (load_meta_missing d song_id Hmiss). reflexivity.
Qed.

Lemma C10_witness :
  exists results,
    match_hashes_sqlite [("01", 0); ("02", 0); ("03", 0)]%string
      (mkDb [(3, "a3", "t3")%string]
            [([x01], 5, 0); ([x02], 3, 0); ([x03], 3, 7)]) 2
    = Some results
    /\ nth_error results 0 = Some ("?", "?", 1, 0, 1)%string.
Proof.
  apply (C10_missing_meta_placeholder _ _ 2 [(5, 1, 0, 1); (3, 1, 0, 2)] 0 5).
  - discriminate.
  - reflexivity.
  - reflexivity.
  - intros r [<-|[]]. discriminate.
Defined.

(** ** The order of the candidates *)

Lemma insert_by_count_In (x y : candidate) (l : list candidate) :
  In y (insert_by_count x l) <-> y = x \/ In y l.
Proof.
  induction l as [|z l IH]; simpl.
  - intuition.
  - destruct (cand_count z <=? cand_count x); simpl.
    + intuition.
    + rewrite IH. intuition.
Qed.

Lemma sort_by_count_In (y : candidate) (l : list candidate) :
  In y (sort_by_count l) <-> In y l.
Proof.
  induction l as [|x l IH]; simpl; [reflexivity|].
  rewrite insert_by_count_In, IH. intuition.
Qed.

Lemma insert_by_count_sorted (x : candidate) (l : list candidate) :
  StronglySorted by_count l -> StronglySorted by_count (insert_by_count x l).
Proof.
  induction 1 as [|y l Hs IH Hy]; simpl.
  - repeat constructor.
  - destruct (cand_count y <=? cand_count x) eqn:E.
    + apply Z.leb_le in E. constructor; [constructor; assumption|].
      constructor; [unfold by_count; lia|].
      eapply Forall_impl; [|exact Hy]. unfold by_count. intros; lia.
    + apply Z.leb_gt in E. constructor; [exact IH|].
      apply Forall_forall. intros z Hz. apply insert_by_count_In in Hz.
      destruct Hz as [->|Hz]; [unfold by_count; lia|].
      rewrite Forall_forall in Hy. auto.
Qed.

Lemma sort_by_count_sorted (l : list candidate) :
  StronglySorted by_count (sort_by_count l).
Proof.
  induction l as [|x l IH]; simpl; [constructor|].
  now apply insert_by_count_sorted.
Qed.

(** The sort is stable: candidates with equal counts keep their order. *)
Lemma insert_by_count_stable (x : candidate) (l : list candidate) (c : Z) :
  filter (fun y => cand_count y =? c) (insert_by_count x l)
  = filter (fun y => cand_count y =? c) (x :: l).
Proof.
  induction l as [|y l IH]; [reflexivity|].
  cbn [insert_by_count]. destruct (cand_count y <=? cand_count x) eqn:E;
    [reflexivity|].
  apply Z.leb_gt in E. cbn [filter] in *. rewrite IH.
  destruct (cand_count y =? c) eqn:Ey, (cand_count x =? c) eqn:Ex;
    try reflexivity.
  apply Z.eqb_eq in Ey, Ex. lia.
Qed.

Lemma sort_by_count_stable (l : list candidate) (c : Z) :
  filter (fun y => cand_count y =? c) (sort_by_count l)
  = filter (fun y => cand_count y =? c) l.
Proof.
  induction l as [|x l IH]; [reflexivity|].
  cbn [sort_by_count fold_right]. rewrite insert_by_count_stable.
  cbn [filter]. fold (sort_by_count l). now rewrite IH.
Qed.

Lemma In_firstn {A : Type} (n : nat) (l : list A) (x : A) :
  In x (firstn n l) -> In x l.
Proof.
  intros H. rewrite <- (firstn_skipn n l). apply in_or_app. now left.
Qed.

Lemma StronglySorted_firstn {A : Type} (R : A -> A -> Prop) (n : nat)
  (l : list A) :
  StronglySorted R l -> StronglySorted R (firstn n l).
Proof.
  intros H. revert n. induction H as [|x l Hs IH Hx]; intros [|n]; simpl;
    try constructor.
  - apply IH.
  - apply Forall_forall. intros y Hy. rewrite Forall_forall in Hx.
    apply Hx. eapply In_firstn, Hy.
Qed.

Lemma StronglySorted_prefix {A : Type} (R : A -> A -> Prop) (k : Z)
  (l : list A) :
  StronglySorted R l -> StronglySorted R (py_prefix l k).
Proof.
  intros H. unfold py_prefix. destruct (0 <=? k);
    now apply StronglySorted_firstn.
Qed.

Lemma StronglySorted_map {A B : Type} (R : A -> A -> Prop)
  (Q : B -> B -> Prop) (f : A -> B) (l : list A) :
  (forall x y, R x y -> Q (f x) (f y)) ->
  StronglySorted R l -> StronglySorted Q (map f l).
Proof.
  intros HRQ. induction 1 as [|x l Hs IH Hx]; simpl; constructor.
  - exact IH.
  - apply Forall_map. eapply Forall_impl; [|exact Hx]. auto.
Qed.

Lemma sorted_head_max (x : candidate) (l : list candidate) (y : candidate) :
  StronglySorted by_count (x :: l) -> In y (x :: l) ->
  cand_count y <= cand_count x.
Proof.
  intros H Hy. inversion H as [|? ? _ Hx]; subst.
  destruct Hy as [<-|Hy]; [lia|].
  rewrite Forall_forall in Hx. specialize (Hx y Hy). unfold by_count in Hx.
  lia.
Qed.

(** ** Errors during a build *)

Section BuildErrors.

Variable fingerprint_track : item -> outcome (list (string * Z)).
Variable faulty : nat -> store_call -> bool.

(** The [try] statement of an item, with its [except Exception] clause,
    never raises. *)
Lemma try_index_item_returns (i : nat) (it : item) (s : session) :
  fst (try_index_item fingerprint_track faulty i it s) = Returned tt.
Proof.
  unfold try_index_item, try_except.
  destruct (index_item fingerprint_track faulty i it s) as [[[]|e] s'];
    reflexivity.
Qed.

Lemma try_index_item_caught (i : nat) (it : item) (s : session) :
  fails_in_try fingerprint_track faulty i it ->
  caught_and_logged i (try_index_item fingerprint_track faulty i it s).
Proof.
  unfold fails_in_try, caught_and_logged. intros F.
  split; [apply try_index_item_returns|].
  unfold try_index_item, try_except, index_item, bind.
  destruct (fingerprint_track it) as [[|h hs]|e]; [contradiction| |].
  - unfold add_song_io, add_hashes_io, commit_io, bind, bind_int, sql, print.
    destruct (int64 (item_song_id it)) eqn:Hi; [|cbn; eauto].
    destruct (faulty i InsertSong); [cbn; eauto|].
    cbn [s_conn s_log]. unfold add_hashes_run.
    destruct (hash_rows (item_song_id it) (h :: hs)) as [rows|] eqn:R;
      [|cbn; eauto].
    cbn zeta. cbn [working committed songs hashes].
    destruct (executemany (fun k => faulty i (InsertHashes k)) 0 rows
                (hashes (working (add_song (s_conn s) (item_song_id it)
                                    (item_artist it) (item_title it)))))
      as [[e|] table] eqn:E; [cbn; eauto|].
    cbn [s_conn s_log].
    destruct (faulty i Commit); [cbn; eauto|].
    destruct F as [F|[F|[F|[[rows' [R' N]]|F]]]]; try discriminate.
    injection R' as <-. destruct N.
    rewrite (executemany_outcome _ rows 0%nat []
               (hashes (working (add_song (s_conn s) (item_song_id it)
                                   (item_artist it) (item_title it))))).
    now rewrite E.
  - cbn. eauto.
Qed.

(** What [song_exists] does at the head of an iteration. *)
Lemma song_exists_io_ok (i : nat) (song_id : Z) (s : session) :
  int64 song_id = true -> faulty i SelectSong = false ->
  song_exists_io faulty i song_id s
  = (Returned (song_exists (s_conn s) song_id), s).
Proof.
  intros Hi Hf. unfold song_exists_io, bind, bind_int, sql.
  rewrite Hi, Hf. now destruct s.
Qed.

Lemma song_exists_io_raises (i : nat) (song_id : Z) (s : session) :
  int64 song_id = false \/ faulty i SelectSong = true ->
  exists e, song_exists_io faulty i song_id s = (Raised e, s).
Proof.
  intros H. unfold song_exists_io, bind, bind_int, sql.
  destruct (int64 song_id); [|eauto].
  destruct H as [H|H]; [discriminate|]. rewrite H. eauto.
Qed.

Lemma build_loop_next (i : nat) (it : item) (rest : list item) (s : session) :
  int64 (item_song_id it) = true -> faulty i SelectSong = false ->
  build_loop fingerprint_track faulty i (it :: rest) s
  = build_loop fingerprint_track faulty (S i) rest
      (snd (build_item fingerprint_track faulty i it s)).
Proof.
  intros Hi E. cbn [build_loop]. unfold bind at 1.
  assert (R : fst (build_item fingerprint_track faulty i it s) = Returned tt).
  { unfold build_item. unfold bind at 1. rewrite song_exists_io_ok by assumption.
    destruct (song_exists (s_conn s) (item_song_id it)); [reflexivity|].
    unfold bind. cbn [print]. apply try_index_item_returns. }
  destruct (build_item fingerprint_track faulty i it s) as [r s'].
  cbn in R. subst r. reflexivity.
Qed.

Lemma build_loop_abort (i : nat) (it : item) (rest : list item) (s : session) :
  int64 (item_song_id it) = false \/ faulty i SelectSong = true ->
  exists e,
    build_loop fingerprint_track faulty i (it :: rest) s = (Raised e, s).
Proof.
  intros H. destruct (song_exists_io_raises i _ s H) as [e E]. exists e.
  cbn [build_loop]. unfold bind at 1. unfold build_item. unfold bind at 1.
  now rewrite E.
Qed.

Lemma rebuild_loop_next (force : bool) (i : nat) (it : item)
  (rest : list item) (s : session) :
  int64 (item_song_id it) = true -> faulty i SelectSong = false ->
  force && song_exists (s_conn s) (item_song_id it) = false
  \/ (faulty i DeleteHashes = false /\ faulty i DeleteSongs = false
      /\ faulty i Commit = false) ->
  rebuild_loop fingerprint_track faulty force i (it :: rest) s
  = rebuild_loop fingerprint_track faulty force (S i) rest
      (snd (rebuild_item fingerprint_track faulty force i it s)).
Proof.
  intros Hi E Hf. cbn [rebuild_loop]. unfold bind at 1.
  assert (R : fst (rebuild_item fingerprint_track faulty force i it s)
              = Returned tt).
  { unfold rebuild_item. unfold bind at 1.
    rewrite song_exists_io_ok by assumption.
    destruct (song_exists (s_conn s) (item_song_id it)).
    - destruct force; [|reflexivity].
      destruct Hf as [Hf|[H1 [H2 H3]]]; [discriminate|].
      unfold delete_song_io, commit_io, bind, bind_int, sql, print.
      cbn [s_conn s_log]. rewrite Hi, H1. cbn [s_conn s_log]. rewrite H2.
      cbn [s_conn s_log]. rewrite H3. apply try_index_item_returns.
    - unfold bind. cbn [print]. apply try_index_item_returns. }
  destruct (rebuild_item fingerprint_track faulty force i it s) as [r s'].
  cbn in R. subst r. reflexivity.
Qed.

Lemma rebuild_loop_abort_select (force : bool) (i : nat) (it : item)
  (rest : list item) (s : session) :
  int64 (item_song_id it) = false \/ faulty i SelectSong = true ->
  exists e,
    rebuild_loop fingerprint_track faulty force i (it :: rest) s
    = (Raised e, s).
Proof.
  intros H. destruct (song_exists_io_raises i _ s H) as [e E]. exists e.
  cbn [rebuild_loop]. unfold bind at 1. unfold rebuild_item. unfold bind at 1.
  now rewrite E.
Qed.

Lemma rebuild_loop_abort (i : nat) (it : item) (rest : list item)
  (s : session) :
  int64 (item_song_id it) = true -> faulty i SelectSong = false ->
  song_exists (s_conn s) (item_song_id it) = true ->
  faulty i DeleteHashes = true \/ faulty i DeleteSongs = true
  \/ faulty i Commit = true ->
  fst (rebuild_loop fingerprint_track faulty true i (it :: rest) s)
  = Raised StoreIOError.
Proof.
  intros Hi E Hp Hd. cbn [rebuild_loop]. unfold bind at 1.
  unfold rebuild_item. unfold bind at 1.
  rewrite song_exists_io_ok by assumption. rewrite Hp.
  unfold delete_song_io, commit_io, bind, bind_int, sql, print.
  cbn [s_conn s_log]. rewrite Hi.
  destruct (faulty i DeleteHashes); [reflexivity|]. cbn [s_conn s_log].
  destruct (faulty i DeleteSongs); [reflexivity|]. cbn [s_conn s_log].
  destruct (faulty i Commit); [reflexivity|].
  destruct Hd as [Hd|[Hd|Hd]]; discriminate.
Qed.

End BuildErrors.

(** C7, as the code has it, in the loops of the two builds, that is once
    [init_db] has returned a connection: every exception raised for an
    item inside the [try] statement, by the acquisition or the
    fingerprinting and just as well by [add_song], [add_hashes] or
    [commit], is caught and printed, and the loop goes on with the next
    item.  What is raised for an item outside the [try] ends the loop:
    by [song_exists], and by [delete_song] in a forced rebuild. *)
Theorem C7_failures_in_try_are_caught
  (fingerprint_track : item -> outcome (list (string * Z)))
  (faulty : nat -> store_call -> bool) :
  (forall i it s,
      fst (try_index_item fingerprint_track faulty i it s) = Returned tt)
  /\ (forall i it s,
         fails_in_try fingerprint_track faulty i it ->
         caught_and_logged i (try_index_item fingerprint_track faulty i it s))
  /\ (forall i it rest s,
         int64 (item_song_id it) = true -> faulty i SelectSong = false ->
         build_loop fingerprint_track faulty i (it :: rest) s
         = build_loop fingerprint_track faulty (S i) rest
             (snd (build_item fingerprint_track faulty i it s)))
  /\ (forall force i it rest s,
         int64 (item_song_id it) = true -> faulty i SelectSong = false ->
         force && song_exists (s_conn s) (item_song_id it) = false
         \/ (faulty i DeleteHashes = false /\ faulty i DeleteSongs = false
             /\ faulty i Commit = false) ->
         rebuild_loop fingerprint_track faulty force i (it :: rest) s
         = rebuild_loop fingerprint_track faulty force (S i) rest
             (snd (rebuild_item fingerprint_track faulty force i it s)))
  /\ (forall i it rest s,
         int64 (item_song_id it) = false \/ faulty i SelectSong = true ->
         exists e,
           build_loop fingerprint_track faulty i (it :: rest) s
           = (Raised e, s))
  /\ (forall force i it rest s,
         int64 (item_song_id it) = false \/ faulty i SelectSong = true ->
         exists e,
           rebuild_loop fingerprint_track faulty force i (it :: rest) s
           = (Raised e, s))
  /\ (forall i it rest s,
         int64 (item_song_id it) = true -> faulty i SelectSong = false ->
         song_exists (s_conn s) (item_song_id it) = true ->
         faulty i DeleteHashes = true \/ faulty i DeleteSongs = true
         \/ faulty i Commit = true ->
         fst (rebuild_loop fingerprint_track faulty true i (it :: rest) s)
         = Raised StoreIOError).
Proof.
  split; [apply try_index_item_returns|].
  split; [apply try_index_item_caught|].
  split; [apply build_loop_next|].
  split; [apply rebuild_loop_next|].
  split; [apply build_loop_abort|].
  split; [intros force; apply rebuild_loop_abort_select|].
  apply rebuild_loop_abort.
Qed.

Lemma C7_witness :
  caught_and_logged 1
    (try_index_item one_hash (fails_on_first InsertSong) 1
       (mkItem 1 "a" "b" "u1") (mkSession (mkConn (mkDb [] []) (mkDb [] [])) []))
  /\ build_loop one_hash (fails_on_first Commit) 1 two_songs
       (mkSession (mkConn (mkDb [] []) (mkDb [] [])) [])
     = build_loop one_hash (fails_on_first Commit) 2
         [mkItem 2 "c" "d" "u2"]%string
         (snd (build_item one_hash (fails_on_first Commit) 1
                 (mkItem 1 "a" "b" "u1")
                 (mkSession (mkConn (mkDb [] []) (mkDb [] [])) [])))
  /\ exists e,
       build_loop one_hash (fails_on_first SelectSong) 1 two_songs
         (mkSession (mkConn (mkDb [] []) (mkDb [] [])) [])
       = (Raised e, mkSession (mkConn (mkDb [] []) (mkDb [] [])) []).
Proof.
  destruct (C7_failures_in_try_are_caught one_hash (fails_on_first InsertSong))
    as [_ [H1 _]].
  destruct (C7_failures_in_try_are_caught one_hash (fails_on_first Commit))
    as [_ [_ [H2 _]]].
  destruct (C7_failures_in_try_are_caught one_hash (fails_on_first SelectSong))
    as [_ [_ [_ [_ [H4 _]]]]].
  split; [|split].
  - apply H1. right. left. reflexivity.
  - apply H2; reflexivity.
  - apply H4. right. reflexivity.
Defined.

(** In the loop of a build, on an open connection, a failure of
    [add_song], of [add_hashes] or of [commit] on the first song does
    not abort the build: it is printed, the second song is stored and
    the run ends normally.  After a failed [commit], or [add_hashes],
    what the transaction of the first song had inserted is committed
    along with the second. *)
Lemma C7_counterexample :
  build_body one_hash (fails_on_first InsertSong) two_songs
    (mkConn (mkDb [] []) (mkDb [] []))
  = (Returned tt,
     mkDb [(2, "c", "d")%string] [([x0a], 2, 2)],
     [(1, STREAMING); (1, FAILED StoreIOError);
      (2, STREAMING); (2, STORED 1)]%nat)
  /\ build_body one_hash (fails_on_first (InsertHashes 0)) two_songs
       (mkConn (mkDb [] []) (mkDb [] []))
     = (Returned tt,
        mkDb [(1, "a", "b"); (2, "c", "d")]%string [([x0a], 2, 2)],
        [(1, STREAMING); (1, FAILED StoreIOError);
         (2, STREAMING); (2, STORED 1)]%nat)
  /\ build_body one_hash (fails_on_first Commit) two_songs
       (mkConn (mkDb [] []) (mkDb [] []))
     = (Returned tt,
        mkDb [(1, "a", "b"); (2, "c", "d")]%string
             [([x0a], 1, 1); ([x0a], 2, 2)],
        [(1, STREAMING); (1, FAILED StoreIOError);
         (2, STREAMING); (2, STORED 1)]%nat).
Proof. repeat split. Qed.

(** ** The votes as functions of the events *)

Ltac zeqb :=
  repeat match goal with
    | |- context [Z.eqb ?a ?b] =>
        destruct (Z.eqb_spec a b); subst; cbn [dict_get fst snd] in *;
        try reflexivity; try congruence; try lia
    | H : context [Z.eqb ?a ?b] |- _ =>
        destruct (Z.eqb_spec a b); subst; cbn [dict_get fst snd] in *;
        try congruence; try lia
    end.

Lemma dict_get_bump (delta delta' : Z) (offs : histogram) :
  dict_get (bump delta offs) delta'
  = if delta' =? delta
    then Some (match dict_get offs delta with Some n => n + 1 | None => 1 end)
    else dict_get offs delta'.
Proof.
  induction offs as [|[d n] rest IH]; cbn [bump dict_get]; zeqb;
    try (cbn [bump dict_get]; rewrite IH; zeqb).
Qed.

Lemma dict_get_vote (song_id delta s : Z) (v : votes) :
  dict_get (vote song_id delta v) s
  = if s =? song_id
    then Some (bump delta
                 (match dict_get v song_id with Some o => o | None => [] end))
    else dict_get v s.
Proof.
  induction v as [|[k offs] rest IH]; cbn [vote dict_get]; zeqb;
    try (cbn [vote dict_get]; rewrite IH; zeqb).
Qed.

Lemma existsb_eqb_In (s : Z) (K : list Z) :
  existsb (Z.eqb s) K = true <-> In s K.
Proof.
  rewrite existsb_exists. split.
  - intros [x [Hx E]]. apply Z.eqb_eq in E. now subst.
  - intros H. exists s. split; [exact H | apply Z.eqb_refl].
Qed.

Lemma keys_dict_bump (delta : Z) (offs : histogram) :
  map fst (bump delta offs) = add_key (map fst offs) delta.
Proof.
  unfold add_key. induction offs as [|[d n] rest IH]; [reflexivity|].
  cbn [bump map fst existsb]. destruct (Z.eqb_spec d delta) as [->|Hne].
  - rewrite Z.eqb_refl. reflexivity.
  - cbn [map fst]. rewrite IH.
    destruct (Z.eqb_spec delta d); [congruence|]. cbn [orb].
    destruct (existsb (Z.eqb delta) (map fst rest)); reflexivity.
Qed.

Lemma keys_vote (song_id delta : Z) (v : votes) :
  map fst (vote song_id delta v) = add_key (map fst v) song_id.
Proof.
  unfold add_key. induction v as [|[k offs] rest IH]; [reflexivity|].
  cbn [vote map fst existsb]. destruct (Z.eqb_spec k song_id) as [->|Hne].
  - rewrite Z.eqb_refl. reflexivity.
  - cbn [map fst]. rewrite IH.
    destruct (Z.eqb_spec song_id k); [congruence|]. cbn [orb].
    destruct (existsb (Z.eqb song_id) (map fst rest)); reflexivity.
Qed.

Lemma add_key_In (K : list Z) (s x : Z) :
  In x (add_key K s) <-> In x K \/ x = s.
Proof.
  unfold add_key. destruct (existsb (Z.eqb s) K) eqn:E.
  - apply existsb_eqb_In in E. split; [auto|]. intros [H | ->]; assumption.
  - rewrite in_app_iff. simpl. intuition.
Qed.

Lemma add_key_NoDup (K : list Z) (s : Z) : NoDup K -> NoDup (add_key K s).
Proof.
  intros ND. unfold add_key. destruct (existsb (Z.eqb s) K) eqn:E; [exact ND|].
  apply NoDup_app; [exact ND | repeat constructor; intros [] | ].
  intros x Hx Hs. destruct Hs as [Hs | []]. subst x.
  apply existsb_eqb_In in Hx. congruence.
Qed.

Lemma sum_values_shift (offs : histogram) (a : Z) :
  fold_left (fun acc y => acc + snd y) offs a = a + sum_values offs.
Proof.
  unfold sum_values. revert a. induction offs as [|e rest IH]; intros a;
    cbn [fold_left]; [lia|].
  rewrite IH, (IH (0 + snd e)). lia.
Qed.

Lemma sum_values_cons (e : Z * Z) (offs : histogram) :
  sum_values (e :: offs) = snd e + sum_values offs.
Proof. unfold sum_values at 1. cbn [fold_left]. apply sum_values_shift. Qed.

Lemma sum_values_bump (delta : Z) (offs : histogram) :
  sum_values (bump delta offs) = sum_values offs + 1.
Proof.
  induction offs as [|[d n] rest IH]; [reflexivity|].
  cbn [bump]. destruct (d =? delta); rewrite !sum_values_cons; cbn [snd]; lia.
Qed.

Lemma bump_wf (delta : Z) (offs : histogram) :
  NoDup (map fst offs) -> Forall (fun e => 0 < snd e) offs ->
  wf_histogram (bump delta offs).
Proof.
  intros ND Pos. split; [|split].
  - destruct offs as [|[d n] rest]; cbn [bump]; [discriminate|].
    destruct (d =? delta); discriminate.
  - rewrite keys_dict_bump. now apply add_key_NoDup.
  - induction Pos as [|[d n] rest Hn Pos IH]; cbn [bump].
    + repeat constructor.
    + inversion ND; subst. cbn [snd] in Hn.
      destruct (d =? delta); constructor; cbn [snd]; auto; lia.
Qed.

Lemma vote_wf (song_id delta : Z) (v : votes) :
  wf_votes v -> wf_votes (vote song_id delta v).
Proof.
  intros [ND W]. split.
  - rewrite keys_vote. now apply add_key_NoDup.
  - clear ND. induction W as [|[k offs] rest Hk W IH]; cbn [vote].
    + constructor; [|constructor]. cbn [snd].
      apply (bump_wf delta []); constructor.
    + destruct (k =? song_id); constructor; auto.
      cbn [snd] in *. destruct Hk as [_ [ND Pos]]. now apply bump_wf.
Qed.

Lemma tally_wf (events : list event) (v : votes) :
  wf_votes v -> wf_votes (tally events v).
Proof.
  revert v. induction events as [|e events IH]; intros v W; [exact W|].
  cbn [tally fold_left]. apply IH, vote_wf, W.
Qed.

Lemma wf_votes_nil : wf_votes [].
Proof. split; constructor. Qed.

(** No histogram of the votes is empty: [max] never raises. *)
Lemma tally_histograms_nonempty (events : list event) (s : Z)
  (offs : histogram) :
  In (s, offs) (tally events []) -> offs <> [].
Proof.
  intros H. destruct (tally_wf events [] wf_votes_nil) as [_ W].
  rewrite Forall_forall in W. exact (proj1 (W _ H)).
Qed.

Lemma votes_count_vote (song_id delta s d : Z) (v : votes) :
  votes_count (vote song_id delta v) s d
  = votes_count v s d + (if event_eqb (s, d) (song_id, delta) then 1 else 0).
Proof.
  unfold votes_count, event_eqb. cbn [fst snd]. rewrite dict_get_vote.
  destruct (Z.eqb_spec s song_id) as [->|Hs]; cbn [andb].
  - rewrite dict_get_bump. destruct (dict_get v song_id) as [offs|].
    + destruct (Z.eqb_spec d delta) as [->|Hd].
      * destruct (dict_get offs delta); lia.
      * lia.
    + cbn [dict_get]. destruct (Z.eqb_spec d delta); lia.
  - lia.
Qed.

Lemma votes_total_vote (song_id delta s : Z) (v : votes) :
  votes_total (vote song_id delta v) s
  = votes_total v s + (if song_id =? s then 1 else 0).
Proof.
  unfold votes_total. rewrite dict_get_vote, (Z.eqb_sym song_id s).
  destruct (Z.eqb_spec s song_id) as [->|Hs]; [|lia].
  rewrite sum_values_bump. destruct (dict_get v song_id); reflexivity.
Qed.

Lemma votes_count_tally (events : list event) (v : votes) (s d : Z) :
  votes_count (tally events v) s d = votes_count v s d + offset_votes events s d.
Proof.
  unfold offset_votes. revert v.
  induction events as [|[s' d'] events IH]; intros v; cbn [tally fold_left].
  - simpl. lia.
  - fold (tally events (vote (fst (s', d')) (snd (s', d')) v)).
    rewrite IH, votes_count_vote. cbn [fst snd filter].
    destruct (event_eqb (s, d) (s', d')); cbn [List.length]; lia.
Qed.

Lemma votes_total_tally (events : list event) (v : votes) (s : Z) :
  votes_total (tally events v) s = votes_total v s + song_hits events s.
Proof.
  unfold song_hits. revert v.
  induction events as [|[s' d'] events IH]; intros v; cbn [tally fold_left].
  - simpl. lia.
  - fold (tally events (vote (fst (s', d')) (snd (s', d')) v)).
    rewrite IH, votes_total_vote. cbn [fst snd filter].
    destruct (s' =? s); cbn [List.length]; lia.
Qed.

Lemma keys_tally (events : list event) (v : votes) :
  map fst (tally events v) = seen_order (map fst events) (map fst v).
Proof.
  revert v. induction events as [|e events IH]; intros v; [reflexivity|].
  cbn [tally fold_left map seen_order].
  fold (tally events (vote (fst e) (snd e) v)).
  rewrite IH, keys_vote. reflexivity.
Qed.

Lemma dict_get_In {V : Type} (d : list (Z * V)) (k : Z) (x : V) :
  NoDup (map fst d) -> In (k, x) d -> dict_get d k = Some x.
Proof.
  induction d as [|[k' x'] rest IH]; intros ND H; [contradiction|].
  cbn [map fst] in ND. inversion ND as [|? ? Hnot ND']; subst.
  cbn [dict_get]. destruct H as [E|H].
  - inversion E; subst. now rewrite Z.eqb_refl.
  - destruct (Z.eqb_spec k' k) as [->|_]; [|now apply IH].
    exfalso. apply Hnot. apply in_map_iff. exists (k, x). auto.
Qed.

Lemma dict_get_Some_In {V : Type} (d : list (Z * V)) (k : Z) (x : V) :
  dict_get d k = Some x -> In (k, x) d.
Proof.
  induction d as [|[k' x'] rest IH]; cbn [dict_get]; [discriminate|].
  destruct (Z.eqb_spec k' k) as [->|_].
  - intros E. inversion E. now left.
  - intros E. right. now apply IH.
Qed.

Lemma dict_get_keys {V : Type} (d : list (Z * V)) (k : Z) :
  In k (map fst d) -> exists x, dict_get d k = Some x.
Proof.
  induction d as [|[k' x'] rest IH]; [contradiction|].
  cbn [map fst dict_get]. destruct (Z.eqb_spec k' k) as [->|Hne].
  - eauto.
  - intros [E|H]; [congruence | now apply IH].
Qed.

Lemma max_item_fold (rest : histogram) (x : Z * Z) :
  let m := fold_left (fun best y => if snd best <? snd y then y else best)
                     rest x in
  In m (x :: rest) /\ snd x <= snd m /\ forall e, In e rest -> snd e <= snd m.
Proof.
  revert x. induction rest as [|y rest IH]; intros x; cbn [fold_left].
  - split; [now left | split; [lia | contradiction]].
  - destruct (Z.ltb_spec (snd x) (snd y)) as [Hlt|Hge].
    + destruct (IH y) as [Hin [Hy Hrest]]. split; [now right|].
      split; [lia|]. intros e [<-|He]; auto.
    + destruct (IH x) as [Hin [Hx Hrest]]. split.
      * destruct Hin as [E|Hin]; [now left | right; now right].
      * split; [exact Hx|]. intros e [<-|He]; [lia | auto].
Qed.

Lemma max_item_spec (offs : histogram) :
  offs <> [] ->
  In (max_item offs) offs /\ forall e, In e offs -> snd e <= snd (max_item offs).
Proof.
  destruct offs as [|x rest]; [congruence|]. intros _.
  unfold max_item. destruct (max_item_fold rest x) as [Hin [Hx Hrest]].
  split; [exact Hin|]. intros e [<-|He]; auto.
Qed.

Lemma score_summary (v : votes) :
  wf_votes v ->
  map summary (score v)
  = map (fun s => (s, votes_best v s, votes_total v s)) (map fst v).
Proof.
  intros [ND _]. unfold score. rewrite !map_map. apply map_ext_in.
  intros [s offs] Hin. unfold votes_best, votes_total.
  cbn [fst]. rewrite (dict_get_In v s offs ND Hin).
  destruct (max_item offs). reflexivity.
Qed.

(** The offset reported for a candidate collected as many votes as the
    candidate is given. *)
Lemma score_offset_votes (v : votes) (x : candidate) :
  wf_votes v -> In x (score v) ->
  votes_count v (cand_song x) (cand_offset x) = cand_count x.
Proof.
  intros [ND W] Hx. unfold score in Hx. apply in_map_iff in Hx.
  destruct Hx as [[s offs] [E Hin]]. rewrite Forall_forall in W.
  destruct (W _ Hin) as [Hne [NDo _]]. cbn [snd] in *.
  destruct (max_item_spec offs Hne) as [Hm _].
  destruct (max_item offs) as [b c] eqn:Em. subst x.
  unfold votes_count, cand_song, cand_offset, cand_count. cbn [fst snd].
  rewrite (dict_get_In v s offs ND Hin), (dict_get_In offs b c NDo Hm).
  reflexivity.
Qed.

Lemma votes_best_le (v1 v2 : votes) (s : Z) :
  wf_votes v1 -> wf_votes v2 ->
  In s (map fst v1) -> In s (map fst v2) ->
  (forall d, votes_count v1 s d = votes_count v2 s d) ->
  votes_best v1 s <= votes_best v2 s.
Proof.
  intros [ND1 W1] [ND2 W2] K1 K2 Hc. unfold votes_best.
  destruct (dict_get_keys v1 s K1) as [o1 E1].
  destruct (dict_get_keys v2 s K2) as [o2 E2]. rewrite E1, E2.
  rewrite Forall_forall in W1, W2.
  destruct (W1 _ (dict_get_Some_In _ _ _ E1)) as [N1 [D1 P1]].
  destruct (W2 _ (dict_get_Some_In _ _ _ E2)) as [N2 [D2 P2]].
  cbn [snd] in *.
  destruct (max_item_spec o1 N1) as [M1 _].
  destruct (max_item_spec o2 N2) as [_ M2].
  destruct (max_item o1) as [b c] eqn:Em. cbn [snd].
  rewrite Forall_forall in P1. pose proof (P1 _ M1) as Hpos. cbn [snd] in Hpos.
  specialize (Hc b). unfold votes_count in Hc. rewrite E1, E2 in Hc.
  rewrite (dict_get_In o1 b c D1 M1) in Hc.
  destruct (dict_get o2 b) as [c'|] eqn:E; [|lia]. subst c'.
  exact (M2 _ (dict_get_Some_In _ _ _ E)).
Qed.

Lemma votes_best_eq (v1 v2 : votes) (s : Z) :
  wf_votes v1 -> wf_votes v2 ->
  In s (map fst v1) -> In s (map fst v2) ->
  (forall d, votes_count v1 s d = votes_count v2 s d) ->
  votes_best v1 s = votes_best v2 s.
Proof.
  intros W1 W2 K1 K2 Hc. apply Z.le_antisymm.
  - now apply votes_best_le.
  - apply votes_best_le; auto.
Qed.

Lemma cons_eq_inv {A : Type} (x y : A) (l m : list A) :
  x :: l = y :: m -> x = y /\ l = m.
Proof. intros E. injection E. auto. Qed.

(** Candidates that agree but for their offsets are sorted alike. *)
Lemma insert_by_count_summary (x y : candidate) (l m : list candidate) :
  summary x = summary y -> map summary l = map summary m ->
  map summary (insert_by_count x l) = map summary (insert_by_count y m).
Proof.
  intros Hxy. revert m. induction l as [|a l IH]; intros [|b m] Hlm;
    try discriminate; cbn [insert_by_count map].
  - now rewrite Hxy.
  - cbn [map] in Hlm. apply cons_eq_inv in Hlm. destruct Hlm as [Hab Hlm].
    assert (Ca : cand_count a = cand_count b).
    { unfold summary in Hab. congruence. }
    assert (Cx : cand_count x = cand_count y).
    { unfold summary in Hxy. congruence. }
    rewrite Ca, Cx. destruct (cand_count b <=? cand_count y); cbn [map].
    + now rewrite Hxy, Hab, Hlm.
    + rewrite Hab. f_equal. now apply IH.
Qed.

Lemma sort_by_count_summary (l m : list candidate) :
  map summary l = map summary m ->
  map summary (sort_by_count l) = map summary (sort_by_count m).
Proof.
  revert m. induction l as [|x l IH]; intros [|y m] H; try discriminate;
    [reflexivity|].
  cbn [map] in H. apply cons_eq_inv in H. destruct H as [Hxy Hlm].
  cbn [sort_by_count fold_right]. apply insert_by_count_summary; auto.
Qed.

(** ** The two orders of voting *)

Lemma tally_app (a b : list event) (v : votes) :
  tally (a ++ b) v = tally b (tally a v).
Proof. unfold tally. apply fold_left_app. Qed.

Lemma seen_order_app (a b K : list Z) :
  seen_order (a ++ b) K = seen_order b (seen_order a K).
Proof. unfold seen_order. apply fold_left_app. Qed.

Lemma add_key_known (K : list Z) (s : Z) : In s K -> add_key K s = K.
Proof.
  intros H. unfold add_key. apply existsb_eqb_In in H. now rewrite H.
Qed.

Lemma seen_order_known (l K : list Z) :
  (forall x, In x l -> In x K) -> seen_order l K = K.
Proof.
  induction l as [|x l IH]; intros H; [reflexivity|].
  cbn [seen_order fold_left]. rewrite add_key_known by (apply H; now left).
  apply IH. intros y Hy. apply H. now right.
Qed.

Lemma seen_order_In (l K : list Z) (x : Z) :
  In x (seen_order l K) <-> In x K \/ In x l.
Proof.
  revert K. induction l as [|y l IH]; intros K; cbn [seen_order fold_left].
  - simpl. tauto.
  - fold (seen_order l (add_key K y)). rewrite IH, add_key_In. simpl.
    intuition.
Qed.

Lemma seen_order_repeat {A : Type} (s : Z) (l : list A) (K : list Z) :
  l <> [] -> seen_order (map (fun _ => s) l) K = add_key K s.
Proof.
  destruct l as [|a l]; [congruence|]. intros _.
  cbn [map seen_order fold_left]. apply seen_order_known.
  intros x Hx. apply in_map_iff in Hx. destruct Hx as [_ [<- _]].
  apply add_key_In. now right.
Qed.

Lemma group_add_nonempty (h : string) (t : Z) (g : list (string * list Z)) :
  Forall (fun x => snd x <> []) g ->
  Forall (fun x => snd x <> []) (group_add h t g).
Proof.
  induction 1 as [|[k ts] rest Hk Hrest IH]; cbn [group_add].
  - repeat constructor. discriminate.
  - destruct (String.eqb k h); constructor; auto.
    cbn [snd]. now destruct ts.
Qed.

Lemma group_add_keys (h : string) (t : Z) (g : list (string * list Z))
  (k : string) :
  In k (map fst (group_add h t g)) <-> k = h \/ In k (map fst g).
Proof.
  induction g as [|[k' ts] rest IH]; cbn [group_add map fst].
  - simpl. intuition.
  - destruct (String.eqb_spec k' h) as [->|Hne]; cbn [map fst In].
    + intuition.
    + rewrite IH. intuition.
Qed.

Lemma by_hash_fold (hashes : list (string * Z)) :
  by_hash hashes = fold_left group_step hashes [].
Proof. reflexivity. Qed.

Lemma fold_groups_keys (hashes : list (string * Z)) :
  forall g k,
    In k (map fst (fold_left group_step hashes g)) ->
    In k (map fst g) \/ In k (map fst hashes).
Proof.
  induction hashes as [|[h t] rest IH]; intros g k; cbn [fold_left].
  - auto.
  - intros H. apply IH in H. cbn [group_step] in H.
    rewrite group_add_keys in H. cbn [map fst In]. intuition.
Qed.

Section Events.

Variable P : string -> list (Z * Z).

Lemma events_snippet_cons (h : string) (tq : Z) (hashes : list (string * Z)) :
  events_snippet P ((h, tq) :: hashes) = block P h tq ++ events_snippet P hashes.
Proof. reflexivity. Qed.

Lemma events_group_songs (h : string) (tqs : list Z) (K : list Z) :
  tqs <> [] ->
  seen_order (map fst (events_group P (h, tqs))) K
  = seen_order (map fst (P h)) K.
Proof.
  intros Hne. unfold events_group. cbn [fst snd]. revert K.
  induction (P h) as [|[s ts] rows IH]; intros K; [reflexivity|].
  cbn [flat_map map fst]. rewrite map_app, seen_order_app, map_map.
  cbn [fst]. rewrite seen_order_repeat by exact Hne.
  cbn [seen_order fold_left]. apply IH.
Qed.

Lemma block_songs (h : string) (tq : Z) : map fst (block P h tq) = map fst (P h).
Proof.
  unfold block. rewrite map_map. apply map_ext. now intros [s ts].
Qed.

Lemma events_group_snoc (h : string) (tqs : list Z) (t : Z) :
  Permutation (events_group P (h, tqs ++ [t]))
              (events_group P (h, tqs) ++ block P h t).
Proof.
  unfold events_group, block. cbn [fst snd].
  induction (P h) as [|[s ts] rows IH]; [constructor|].
  cbn [flat_map map]. rewrite IH, map_app. cbn [map].
  rewrite <- !app_assoc. apply Permutation_app_head.
  cbn [app]. apply Permutation_middle.
Qed.

Lemma events_group_single (h : string) (t : Z) :
  events_group P (h, [t]) = block P h t.
Proof.
  unfold events_group, block. cbn [fst snd map].
  induction (P h) as [|[s ts] rows IH]; [reflexivity|].
  cbn [flat_map map app]. now rewrite IH.
Qed.

Lemma events_group_add (h : string) (t : Z) (g : list (string * list Z)) :
  Permutation (events_sqlite P (group_add h t g))
              (events_sqlite P g ++ block P h t).
Proof.
  unfold events_sqlite. induction g as [|[k ts] rest IH].
  - cbn [group_add flat_map]. rewrite events_group_single, app_nil_r.
    reflexivity.
  - cbn [group_add]. destruct (String.eqb_spec k h) as [->|Hne].
    + cbn [flat_map]. rewrite events_group_snoc, <- !app_assoc.
      apply Permutation_app_head, Permutation_app_comm.
    + cbn [flat_map]. rewrite IH, app_assoc. reflexivity.
Qed.

Lemma songs_group_add (h : string) (t : Z) (g : list (string * list Z)) :
  Forall (fun x => snd x <> []) g ->
  forall K,
    seen_order (map fst (events_sqlite P (group_add h t g))) K
    = seen_order (map fst (P h))
        (seen_order (map fst (events_sqlite P g)) K).
Proof.
  unfold events_sqlite. induction 1 as [|[k ts] rest Hk Hrest IH]; intros K.
  - cbn [group_add flat_map]. rewrite events_group_single, app_nil_r.
    now rewrite block_songs.
  - cbn [snd] in Hk. cbn [group_add].
    destruct (String.eqb_spec k h) as [->|Hne].
    + cbn [flat_map]. rewrite !map_app, !seen_order_app.
      rewrite !events_group_songs; [|exact Hk|now destruct ts].
      symmetry. apply seen_order_known. intros x Hx.
      apply seen_order_In. left. apply seen_order_In. now right.
    + cbn [flat_map]. rewrite !map_app, !seen_order_app. apply IH.
Qed.

Lemma fold_groups_events (hashes : list (string * Z)) :
  forall g,
    Permutation (events_sqlite P (fold_left group_step hashes g))
                (events_sqlite P g ++ events_snippet P hashes).
Proof.
  induction hashes as [|[h t] rest IH]; intros g; cbn [fold_left].
  - cbn. now rewrite app_nil_r.
  - rewrite IH. cbn [group_step]. rewrite events_group_add.
    rewrite events_snippet_cons, app_assoc. reflexivity.
Qed.

Lemma fold_groups_songs (hashes : list (string * Z)) :
  forall g K,
    Forall (fun x => snd x <> []) g ->
    seen_order (map fst (events_sqlite P (fold_left group_step hashes g))) K
    = seen_order (map fst (events_snippet P hashes))
        (seen_order (map fst (events_sqlite P g)) K).
Proof.
  induction hashes as [|[h t] rest IH]; intros g K Hg; cbn [fold_left].
  - reflexivity.
  - rewrite IH by (now apply group_add_nonempty). cbn [group_step].
    rewrite songs_group_add by exact Hg.
    rewrite events_snippet_cons, map_app, seen_order_app, block_songs.
    reflexivity.
Qed.

(** The sqlite matcher votes on a permutation of the events of the other
    one, and meets the songs in the same order. *)
Lemma by_hash_events (hashes : list (string * Z)) :
  Permutation (events_sqlite P (by_hash hashes)) (events_snippet P hashes).
Proof. rewrite by_hash_fold. apply (fold_groups_events hashes []). Qed.

Lemma by_hash_songs (hashes : list (string * Z)) :
  seen_order (map fst (events_sqlite P (by_hash hashes))) []
  = seen_order (map fst (events_snippet P hashes)) [].
Proof.
  rewrite by_hash_fold. apply (fold_groups_songs hashes [] []). constructor.
Qed.

End Events.

Lemma filter_length_perm {A : Type} (f : A -> bool) (l m : list A) :
  Permutation l m -> List.length (filter f l) = List.length (filter f m).
Proof.
  induction 1 as [|x l m _ IH|x y l|l m n _ IH1 _ IH2]; cbn [filter].
  - reflexivity.
  - destruct (f x); cbn [List.length]; congruence.
  - destruct (f x), (f y); reflexivity.
  - congruence.
Qed.

Lemma vote_postings_tally (P : string -> list (Z * Z)) (h : string)
  (tq : Z) (v : votes) :
  vote_postings tq (P h) v = tally (block P h tq) v.
Proof.
  unfold vote_postings, block, tally. revert v.
  induction (P h) as [|[s ts] rows IH]; intros v; [reflexivity|].
  cbn [fold_left map fst snd]. apply IH.
Qed.

Lemma tally_snippet_events (index : pickle_index)
  (hashes : list (string * Z)) :
  tally_snippet index hashes
  = tally (events_snippet (postings index) hashes) [].
Proof.
  unfold tally_snippet. generalize (@nil (Z * histogram)).
  induction hashes as [|[h tq] rest IH]; intros v; [reflexivity|].
  cbn [fold_left]. rewrite IH, events_snippet_cons, tally_app. f_equal.
  rewrite <- vote_postings_tally. unfold postings.
  destruct (index_get index h); reflexivity.
Qed.

Lemma vote_rows_tally (P : string -> list (Z * Z)) (h : string)
  (tqs : list Z) (v : votes) :
  vote_rows tqs (P h) v = tally (events_group P (h, tqs)) v.
Proof.
  unfold vote_rows, events_group. cbn [fst snd]. revert v.
  induction (P h) as [|[s ts] rows IH]; intros v; [reflexivity|].
  cbn [fold_left flat_map]. rewrite tally_app, IH. f_equal. f_equal.
  clear IH. revert v. induction tqs as [|tq tqs IH]; intros v; [reflexivity|].
  cbn [fold_left map tally fst snd]. apply IH.
Qed.

Lemma tally_sqlite_events (d : db) (groups : list (string * list Z)) :
  (forall k, In k (map fst groups) -> exists hbin, fromhex k = Some hbin) ->
  forall v,
    tally_sqlite d groups v
    = Some (tally (events_sqlite (rows_of d) groups) v).
Proof.
  induction groups as [|[k tqs] rest IH]; intros Hk v; [reflexivity|].
  cbn [tally_sqlite]. destruct (Hk k (or_introl eq_refl)) as [hbin E].
  pose proof (vote_rows_tally (rows_of d) k tqs v) as R.
  unfold rows_of in R at 1. rewrite E in *. rewrite R.
  rewrite IH by (intros k' H'; apply Hk; now right).
  unfold events_sqlite. cbn [flat_map]. now rewrite tally_app.
Qed.

Lemma events_snippet_ext (P Q : string -> list (Z * Z))
  (hashes : list (string * Z)) :
  (forall h t, In (h, t) hashes -> P h = Q h) ->
  events_snippet P hashes = events_snippet Q hashes.
Proof.
  induction hashes as [|[h t] rest IH]; intros H; [reflexivity|].
  unfold events_snippet in *. cbn [flat_map].
  rewrite (H h t (or_introl eq_refl)), IH; [reflexivity|].
  intros h' t' Hin. apply (H h' t'). now right.
Qed.

Lemma ranked_sqlite_events (d : db) (hashes : list (string * Z)) :
  (forall h t, In (h, t) hashes -> exists hbin, fromhex h = Some hbin) ->
  ranked_sqlite d hashes
  = Some (sort_by_count
            (score (tally (events_sqlite (rows_of d) (by_hash hashes)) []))).
Proof.
  intros Hk. unfold ranked_sqlite. rewrite tally_sqlite_events; [reflexivity|].
  intros k Hin. rewrite by_hash_fold in Hin.
  apply fold_groups_keys in Hin. destruct Hin as [[]|Hin].
  apply in_map_iff in Hin. destruct Hin as [[h t] [<- Hin]].
  exact (Hk h t Hin).
Qed.

(** C6, as the code has it: on the same query, and with the same
    postings in the pickle index and in the [hashes] table, the two
    matchers rank the same songs in the same order with the same vote
    counts and total hits, so that the top-ranked song, its vote count
    and its total hits agree.  Each reports for a song an offset that
    collected that many votes; when several offsets of a song tie for
    the largest count the two may report different ones, the first met
    in their own order of voting. *)
Theorem C6_same_ranking_offsets_may_differ
  (hashes : list (string * Z)) (index : pickle_index) (d : db)
  (Hsame : same_postings index d hashes) :
  exists scored,
    ranked_sqlite d hashes = Some scored
    /\ match_hashes_sqlite hashes d 1 = Some (map (printed d) (firstn 1 scored))
    /\ map summary scored
       = map summary (sort_by_count (score (tally_snippet index hashes)))
    /\ map summary (firstn 1 scored) = map summary (match_snippet hashes index)
    /\ (forall x,
           In x scored \/ In x (match_snippet hashes index) ->
           offset_votes (events_snippet (postings index) hashes)
             (cand_song x) (cand_offset x)
           = cand_count x).
Proof.
  set (E1 := events_snippet (postings index) hashes).
  set (E2 := events_sqlite (rows_of d) (by_hash hashes)).
  assert (Hk : forall h t, In (h, t) hashes ->
                           exists hbin, fromhex h = Some hbin).
  { intros h t Hin. exact (proj1 (Hsame h t Hin)). }
  assert (HE : E1 = events_snippet (rows_of d) hashes).
  { apply events_snippet_ext. intros h t Hin. exact (proj2 (Hsame h t Hin)). }
  assert (HP : Permutation E2 E1).
  { rewrite HE. apply by_hash_events. }
  assert (HS : seen_order (map fst E2) [] = seen_order (map fst E1) []).
  { rewrite HE. apply by_hash_songs. }
  pose proof (tally_wf E1 [] wf_votes_nil) as W1.
  pose proof (tally_wf E2 [] wf_votes_nil) as W2.
  assert (Hsum : map summary (score (tally E2 []))
                 = map summary (score (tally E1 []))).
  { rewrite !score_summary by assumption. rewrite !keys_tally. cbn [map].
    rewrite HS. apply map_ext_in. intros s Hs. f_equal; [f_equal|].
    - apply votes_best_eq; auto.
      + rewrite keys_tally. cbn [map]. now rewrite HS.
      + now rewrite keys_tally.
      + intros dl. rewrite !votes_count_tally. unfold offset_votes.
        now rewrite (filter_length_perm _ _ _ HP).
    - rewrite !votes_total_tally. unfold song_hits.
      now rewrite (filter_length_perm _ _ _ HP). }
  assert (Hsorted : map summary (sort_by_count (score (tally E2 [])))
                    = map summary (sort_by_count (score (tally E1 [])))).
  { now apply sort_by_count_summary. }
  assert (Hoff : forall E x,
             In x (sort_by_count (score (tally E []))) ->
             offset_votes E (cand_song x) (cand_offset x) = cand_count x).
  { intros E x Hx. apply (proj1 (sort_by_count_In _ _)) in Hx.
    rewrite <- (score_offset_votes (tally E []) x
                  (tally_wf E [] wf_votes_nil) Hx).
    rewrite votes_count_tally. unfold votes_count. cbn [dict_get]. lia. }
  exists (sort_by_count (score (tally E2 []))).
  rewrite tally_snippet_events. fold E1.
  assert (Hr : ranked_sqlite d hashes
               = Some (sort_by_count (score (tally E2 [])))).
  { now apply ranked_sqlite_events. }
  split; [exact Hr|]. split; [|split; [exact Hsorted|split]].
  - unfold match_hashes_sqlite. destruct hashes as [|q qs]; [reflexivity|].
    rewrite Hr. unfold py_prefix. cbn [Z.leb Z.compare].
    change (Z.to_nat 1) with 1%nat. reflexivity.
  - unfold match_snippet. destruct hashes as [|q qs]; [reflexivity|].
    rewrite tally_snippet_events. fold E1. unfold py_prefix. cbn [Z.leb Z.compare].
    change (Z.to_nat 1) with 1%nat. rewrite <- !firstn_map. now rewrite Hsorted.
  - intros x [Hx|Hx].
    + rewrite <- (Hoff E2 x Hx). unfold offset_votes.
      now rewrite (filter_length_perm _ _ _ HP).
    + apply Hoff. unfold match_snippet in Hx.
      destruct hashes as [|q qs]; [contradiction|].
      rewrite tally_snippet_events in Hx. fold E1 in Hx.
      unfold py_prefix in Hx. cbn [Z.leb Z.compare] in Hx.
      eapply In_firstn, Hx.
Qed.

Lemma tie_same_postings : same_postings tie_index tie_db tie_query.
Proof.
  intros h t Hin. unfold tie_query in Hin. cbn [In] in Hin.
  repeat (destruct Hin as [E|Hin];
          [injection E as <- <-; split; [eexists|]; reflexivity|]).
  contradiction.
Qed.

Lemma C6_witness :
  exists scored,
    ranked_sqlite tie_db tie_query = Some scored
    /\ map summary (firstn 1 scored) = [(1, 2, 5)]
    /\ map summary (match_snippet tie_query tie_index) = [(1, 2, 5)].
Proof.
  destruct (C6_same_ranking_offsets_may_differ tie_query tie_index tie_db
              tie_same_postings) as [scored [Hr [_ [_ [Hs _]]]]].
  exists scored. split; [exact Hr|]. split; [|reflexivity].
  rewrite Hs. reflexivity.
Defined.

(** The offsets differ: three offsets of song 1 are voted for, 20 and 5
    twice each; [match_snippet] meets 20 before 5 and reports 20,
    [match_hashes_sqlite], which votes hash by hash, meets 5 first and
    reports 5. *)
Lemma C6_counterexample :
  same_postings tie_index tie_db tie_query
  /\ match_snippet tie_query tie_index = [(1, 2, 20, 5)]
  /\ ranked_sqlite tie_db tie_query = Some [(1, 2, 5, 5)]
  /\ match_hashes_sqlite tie_query tie_db 1 = Some [("?", "?", 2, 5, 5)%string].
Proof.
  split; [exact tie_same_postings|]. repeat split.
Qed.

(** ** Silence *)

Lemma map_map_repeat {A B : Type} (f : A -> B) (x : A) (c r : nat) :
  map (map f) (repeat (repeat x c) r) = repeat (repeat (f x) c) r.
Proof. now rewrite map_repeat, map_repeat. Qed.

Lemma concat_repeat_In {A : Type} (x y : A) (c r : nat) :
  In y (List.concat (repeat (repeat x c) r)) -> y = x.
Proof.
  rewrite in_concat. intros [row [Hrow Hy]].
  apply repeat_spec in Hrow. subst row. now apply repeat_spec in Hy.
Qed.

Lemma array_max_zeros (l : list R) :
  (forall y, In y l -> y = 0%R) -> array_max l = 0%R.
Proof.
  destruct l as [|x rest]; [reflexivity|]. intros H. cbn [array_max].
  rewrite (H x (or_introl eq_refl)).
  assert (Hr : forall y, In y rest -> y = 0%R) by (intros y Hy; apply H; now right).
  clear H. induction rest as [|y rest IH]; [reflexivity|].
  cbn [fold_left]. rewrite (Hr y (or_introl eq_refl)).
  rewrite Rmax_left by lra. apply IH. intros z Hz. apply Hr. now right.
Qed.

Lemma power_to_db_silence (bins frames : nat) :
  power_to_db (silence bins frames) 0 (amin * amin) top_db
  = silence bins frames.
Proof.
  unfold power_to_db, silence. rewrite map_map_repeat.
  replace (10 * log10 (Rmax (amin * amin) 0)
           - 10 * log10 (Rmax (amin * amin) (Rabs 0)))%R with 0%R
    by (rewrite Rabs_R0; ring).
  rewrite array_max_zeros by (intros y Hy; exact (concat_repeat_In _ _ _ _ Hy)).
  rewrite map_map_repeat. rewrite Rmax_left by (unfold top_db; lra).
  reflexivity.
Qed.

Lemma amplitude_to_db_silence (bins frames : nat) :
  amplitude_to_db (silence bins frames) = silence bins frames.
Proof.
  unfold amplitude_to_db. unfold silence at 1 2. rewrite !map_map_repeat.
  rewrite Rabs_R0, Rmult_0_l.
  rewrite array_max_zeros by (intros y Hy; exact (concat_repeat_In _ _ _ _ Hy)).
  rewrite Rmult_0_l. apply power_to_db_silence.
Qed.

Lemma spec_in_dB_silence (bins frames : nat) :
  spec_in_dB (silence bins frames) = repeat (repeat (Fin 0) frames) bins.
Proof.
  unfold spec_in_dB. rewrite amplitude_to_db_silence. unfold silence.
  apply map_map_repeat.
Qed.

Lemma cell_flat (c : dB) (bins frames : nat) (i j : Z) (x : dB) :
  cell (repeat (repeat c frames) bins) i j = Some x -> x = c.
Proof.
  unfold cell. destruct ((0 <=? i) && (0 <=? j)); [|discriminate].
  destruct (nth_error _ (Z.to_nat i)) as [row|] eqn:Er; [|discriminate].
  apply nth_error_In, repeat_spec in Er. subst row. intros Ec.
  now apply nth_error_In, repeat_spec in Ec.
Qed.

Lemma log10_le (x y : R) : (0 < x)%R -> (x <= y)%R -> (log10 x <= log10 y)%R.
Proof.
  intros Hx Hxy. unfold log10.
  assert (H10 : (0 < ln 10)%R).
  { rewrite <- ln_1. apply ln_increasing; lra. }
  assert (Hln : (ln x <= ln y)%R).
  { destruct Hxy as [Hlt | ->]; [|lra]. left. now apply ln_increasing. }
  apply Rmult_le_compat_r; [|exact Hln].
  left. now apply Rinv_0_lt_compat.
Qed.

Lemma fold_Rmax_bounds (rest : list R) (a : R) :
  (a <= fold_left Rmax rest a)%R
  /\ forall x, In x rest -> (x <= fold_left Rmax rest a)%R.
Proof.
  revert a. induction rest as [|y rest IH]; intros a; cbn [fold_left].
  - split; [lra | contradiction].
  - destruct (IH (Rmax a y)) as [Ha Hr]. split.
    + pose proof (Rmax_l a y). lra.
    + intros x [E|Hx]; [subst x | auto]. pose proof (Rmax_r a y). lra.
Qed.

Lemma array_max_ge (l : list R) (x : R) : In x l -> (x <= array_max l)%R.
Proof.
  destruct l as [|a rest]; [contradiction|]. cbn [array_max].
  destruct (fold_Rmax_bounds rest a) as [Ha Hr].
  intros [<-|Hx]; auto.
Qed.

Lemma array_max_le_0 (l : list R) :
  (forall x, In x l -> (x <= 0)%R) -> (array_max l <= 0)%R.
Proof.
  destruct l as [|a rest]; [intros _; cbn; lra|]. intros H. cbn [array_max].
  assert (Ha : (a <= 0)%R) by (apply H; now left).
  assert (Hr : forall x, In x rest -> (x <= 0)%R)
    by (intros x Hx; apply H; now right).
  clear H. revert a Ha. induction rest as [|y rest IH]; intros a Ha;
    cbn [fold_left]; [exact Ha|].
  apply IH.
  - intros x Hx. apply Hr. now right.
  - apply Rmax_lub; [exact Ha | apply Hr; now left].
Qed.

Lemma concat_map_map_In {A B : Type} (f : A -> B) (M : list (list A)) (y : B) :
  In y (List.concat (map (map f) M)) ->
  exists x, In x (List.concat M) /\ y = f x.
Proof.
  rewrite in_concat. intros [row [Hrow Hy]]. apply in_map_iff in Hrow.
  destruct Hrow as [row' [<- Hrow']]. apply in_map_iff in Hy.
  destruct Hy as [x [<- Hx]]. exists x. split; [|reflexivity].
  apply in_concat. eauto.
Qed.

Lemma cell_In (S : list (list dB)) (i j : Z) (x : dB) :
  cell S i j = Some x -> In x (List.concat S).
Proof.
  unfold cell. destruct ((0 <=? i) && (0 <=? j)); [|discriminate].
  destruct (nth_error S (Z.to_nat i)) as [row|] eqn:Er; [|discriminate].
  intros Ec. apply in_concat. exists row.
  split; eauto using nth_error_In.
Qed.

(** With the maximum as reference no cell is above 0 dB. *)
Lemma amplitude_to_db_le_0 (spec : list (list R)) (r : R) :
  In r (List.concat (amplitude_to_db spec)) -> (r <= 0)%R.
Proof.
  unfold amplitude_to_db, power_to_db.
  set (magnitude := map (map Rabs) spec).
  set (ref_value := array_max (List.concat magnitude)).
  set (floor := (amin * amin)%R).
  assert (Hfloor : (0 < floor)%R) by (unfold floor, amin; lra).
  assert (Hlog : forall l,
             In l (List.concat
                     (map (map (fun p =>
                                  (10 * log10 (Rmax floor p)
                                   - 10 * log10
                                            (Rmax floor
                                               (Rabs (ref_value * ref_value))))%R))
                          (map (map (fun m => (m * m)%R)) magnitude))) ->
             (l <= 0)%R).
  { intros l Hl. apply concat_map_map_In in Hl. destruct Hl as [p [Hp ->]].
    apply concat_map_map_In in Hp. destruct Hp as [m [Hm ->]].
    assert (Hm0 : (0 <= m)%R).
    { unfold magnitude in Hm. apply concat_map_map_In in Hm.
      destruct Hm as [s [_ ->]]. apply Rabs_pos. }
    assert (Hmr : (m <= ref_value)%R) by (now apply array_max_ge).
    assert (Hsq : (m * m <= ref_value * ref_value)%R)
      by (apply Rmult_le_compat; lra).
    rewrite (Rabs_pos_eq (ref_value * ref_value)) by nra.
    assert (Hle : (log10 (Rmax floor (m * m))
                   <= log10 (Rmax floor (ref_value * ref_value)))%R).
    { apply log10_le; [|now apply Rle_max_compat_l].
      pose proof (Rmax_l floor (m * m)). lra. }
    lra. }
  intros Hr. apply concat_map_map_In in Hr. destruct Hr as [l [Hl ->]].
  apply Rmax_lub; [now apply Hlog|].
  pose proof (array_max_le_0 _ Hlog). unfold top_db. lra.
Qed.

(** Every cell of the spectrogram is a real number of decibels, at most
    0: none is minus infinity, whatever its magnitude. *)
Lemma spec_in_dB_finite (spec : list (list R)) (i j : Z) (x : dB) :
  cell (spec_in_dB spec) i j = Some x -> exists r, x = Fin r /\ (r <= 0)%R.
Proof.
  intros H. apply cell_In in H. unfold spec_in_dB in H.
  apply concat_map_map_In in H. destruct H as [r [Hr ->]].
  exists r. split; [reflexivity | exact (amplitude_to_db_le_0 spec r Hr)].
Qed.

(** C2 at silence: the spectrogram of a track whose samples are all
    zero is 0 dB in every cell; its magnitudes are all zero and none of
    its cells is minus infinity. *)
Theorem C2_silence_is_0_dB (bins frames : nat) :
  spec_in_dB (silence bins frames) = repeat (repeat (Fin 0) frames) bins
  /\ forall i j, cell (spec_in_dB (silence bins frames)) i j <> Some NegInf.
Proof.
  split; [apply spec_in_dB_silence|]. intros i j E.
  rewrite spec_in_dB_silence in E. apply cell_flat in E. discriminate.
Qed.

Lemma dB_leb_refl (a : dB) : dB_leb a a = true.
Proof.
  destruct a as [|x]; [reflexivity|]. cbn.
  destruct (Rle_dec x x) as [_|H]; [reflexivity | exfalso; apply H; lra].
Qed.

Lemma fold_max_const (c : dB) (l : list dB) :
  l <> [] -> (forall x, In x l -> x = c) -> fold_right dB_max NegInf l = c.
Proof.
  induction l as [|x l IH]; [congruence|]. intros _ H. cbn [fold_right].
  rewrite (H x (or_introl eq_refl)). destruct l as [|y l].
  - cbn. unfold dB_max. now destruct c.
  - rewrite IH; [|discriminate|intros z Hz; apply H; now right].
    unfold dB_max. now rewrite dB_leb_refl.
Qed.

(** On an array that is 0 dB everywhere the filter returns 0 dB
    everywhere: the cells and the constant outside are all equal. *)
Lemma maximum_filter_flat (S : list (list dB)) (i j : Z) :
  (forall i j x, cell S i j = Some x -> x = Fin 0) ->
  maximum_filter S i j = Fin 0.
Proof.
  intros H. unfold maximum_filter. apply fold_max_const.
  - intros E.
    assert (Hin : In (match cell S (i + -8) (j + -8) with
                      | Some x => x
                      | None => Fin 0
                      end)
                     (flat_map
                        (fun di =>
                           map (fun dj =>
                                  match cell S (i + di) (j + dj) with
                                  | Some x => x
                                  | None => Fin 0
                                  end)
                               (window (snd PEAK_NEIGHBORHOOD)))
                        (window (fst PEAK_NEIGHBORHOOD)))).
    { apply in_flat_map. exists (-8). split; [vm_compute; auto|].
      apply in_map_iff. exists (-8). split; [reflexivity | vm_compute; auto]. }
    rewrite E in Hin. contradiction.
  - intros x Hx. apply in_flat_map in Hx. destruct Hx as [di [_ Hx]].
    apply in_map_iff in Hx. destruct Hx as [dj [<- _]].
    destruct (cell S (i + di) (j + dj)) as [y|] eqn:E; [|reflexivity].
    exact (H _ _ _ E).
Qed.

Lemma frame_add_nonempty (time : Z) (x : Z * dB)
  (g : list (Z * list (Z * dB))) :
  Forall (fun e => snd e <> []) g ->
  frame_add time x g <> []
  /\ Forall (fun e => snd e <> []) (frame_add time x g).
Proof.
  intros H. split.
  - destruct g as [|[k arr] rest]; cbn [frame_add]; [discriminate|].
    destruct (k =? time); discriminate.
  - induction H as [|[k arr] rest Hk Hrest IH]; cbn [frame_add].
    + repeat constructor. discriminate.
    + destruct (k =? time); constructor; auto.
      cbn [snd]. now destruct arr.
Qed.

Lemma frame_step_eq (S : list (list dB)) (g : list (Z * list (Z * dB)))
  (freq time : Z) :
  frame_step S g (freq, time)
  = match cell S freq time with
    | Some x => frame_add time (freq, x) g
    | None => g
    end.
Proof. reflexivity. Qed.

Lemma frames_fold_nonempty (S : list (list dB)) (cells : list (Z * Z)) :
  forall g,
    g <> [] -> Forall (fun e => snd e <> []) g ->
    let g' := fold_left (frame_step S) cells g in
    g' <> [] /\ Forall (fun e => snd e <> []) g'.
Proof.
  induction cells as [|[freq time] cells IH]; intros g Hne Hg;
    cbn [fold_left]; [auto|].
  rewrite frame_step_eq.
  destruct (cell S freq time) as [x|]; [|now apply IH].
  destruct (frame_add_nonempty time (freq, x) g Hg). now apply IH.
Qed.

Lemma insert_by_strength_nonempty (x : Z * dB) (l : list (Z * dB)) :
  insert_by_strength x l <> [].
Proof.
  destruct l as [|y l]; cbn [insert_by_strength]; [discriminate|].
  destruct (dB_leb (snd y) (snd x)); discriminate.
Qed.

Lemma insert_by_time_nonempty (x : peak) (l : list peak) :
  insert_by_time x l <> [].
Proof.
  destruct l as [|y l]; cbn [insert_by_time]; [discriminate|].
  destruct (snd x <=? snd y); discriminate.
Qed.

(** A cell that is accepted as a peak and heads [argwhere] gives a peak
    list that is not empty. *)
Lemma local_maxima_nonempty (S : list (list dB)) (freq time : Z) (x : dB)
  (rest : list (Z * Z)) :
  argwhere S = (freq, time) :: rest ->
  cell S freq time = Some x ->
  local_maxima S <> [].
Proof.
  intros Ha Hc. unfold local_maxima, kept, peak_by_time_frame.
  rewrite Ha. cbn [fold_left]. rewrite frame_step_eq, Hc.
  cbn [frame_add].
  destruct (frames_fold_nonempty S rest [(time, [(freq, x)])])
    as [Hne Hall]; [discriminate | repeat constructor; discriminate|].
  destruct (fold_left _ rest _) as [|[t arr] groups]; [congruence|].
  inversion Hall as [|? ? Harr _]; subst. cbn [snd] in Harr.
  cbn [flat_map]. unfold top_of_frame at 1. cbn [fst snd].
  destruct arr as [|a arr]; [congruence|].
  cbn [sort_by_strength fold_right].
  pose proof (insert_by_strength_nonempty a
                (fold_right insert_by_strength [] arr)) as Hi.
  destruct (insert_by_strength a _) as [|b sorted]; [congruence|].
  change (Z.to_nat TOP_PEAKS_PER_FRAME) with 16%nat.
  cbn [firstn map app sort_by_time fold_right].
  apply insert_by_time_nonempty.
Qed.

Lemma dB_eqb_refl (a : dB) : dB_eqb a a = true.
Proof. unfold dB_eqb. now rewrite dB_leb_refl. Qed.

Lemma argwhere_head (S : list (list dB)) :
  (0 < List.length S)%nat -> (0 < List.length (nth 0 S []))%nat ->
  actual_peaks S 0 0 = true ->
  exists rest, argwhere S = (0, 0) :: rest.
Proof.
  intros Hr Hc Hp. unfold argwhere.
  destruct (List.length S) as [|r]; [lia|]. cbn [seq flat_map].
  destruct (List.length (nth 0 S [])) as [|c]; [lia|]. cbn [seq flat_map].
  change (Z.of_nat 0) with 0. rewrite Hp. cbn [app]. eauto.
Qed.

(** ** The peaks of a track are distinct *)

Lemma NoDup_app_disjoint {A : Type} (l m : list A) (a : A) :
  NoDup (l ++ m) -> In a l -> ~ In a m.
Proof.
  induction l as [|x l IH]; [contradiction|]. cbn [app]. intros ND Ha Hm.
  inversion ND as [|? ? Hnot ND']; subst. destruct Ha as [->|Ha].
  - apply Hnot. apply in_or_app. now right.
  - exact (IH ND' Ha Hm).
Qed.

Lemma NoDup_flat_map {A B : Type} (f : A -> list B) (l : list A) :
  (forall x, In x l -> NoDup (f x)) ->
  (forall x y b, In x l -> In y l -> In b (f x) -> In b (f y) -> x = y) ->
  NoDup l -> NoDup (flat_map f l).
Proof.
  intros Hf Hinj ND. induction ND as [|a l Hnot ND IH]; [constructor|].
  cbn [flat_map]. apply NoDup_app.
  - apply Hf. now left.
  - apply IH.
    + intros x Hx. apply Hf. now right.
    + intros x y b Hx Hy. apply Hinj; now right.
  - intros b Hb Hb'. apply in_flat_map in Hb'. destruct Hb' as [y [Hy Hby]].
    apply Hnot. rewrite (Hinj a y b); auto; [now left | now right].
Qed.

Lemma NoDup_firstn {A : Type} (n : nat) (l : list A) :
  NoDup l -> NoDup (firstn n l).
Proof.
  intros H. rewrite <- (firstn_skipn n l) in H.
  exact (NoDup_app_remove_r _ _ H).
Qed.

Lemma argwhere_NoDup (S : list (list dB)) : NoDup (argwhere S).
Proof.
  unfold argwhere. apply NoDup_flat_map; [| |apply seq_NoDup].
  - intros i _. apply NoDup_flat_map; [| |apply seq_NoDup].
    + intros j _. destruct (actual_peaks S _ _); repeat constructor.
      intros [].
    + intros j j' b _ _ Hb Hb'.
      destruct (actual_peaks S (Z.of_nat i) (Z.of_nat j)); [|contradiction].
      destruct (actual_peaks S (Z.of_nat i) (Z.of_nat j')); [|contradiction].
      destruct Hb as [<-|[]]. destruct Hb' as [E|[]].
      injection E as E. now apply Nat2Z.inj in E.
  - intros i i' b _ _ Hb Hb'.
    apply in_flat_map in Hb. destruct Hb as [j [_ Hb]].
    apply in_flat_map in Hb'. destruct Hb' as [j' [_ Hb']].
    destruct (actual_peaks S (Z.of_nat i) (Z.of_nat j)); [|contradiction].
    destruct (actual_peaks S (Z.of_nat i') (Z.of_nat j')); [|contradiction].
    destruct Hb as [<-|[]]. destruct Hb' as [E|[]].
    injection E as E _. now apply Nat2Z.inj in E.
Qed.

Lemma frame_add_cells (time : Z) (x : Z * dB) (g : list (Z * list (Z * dB))) :
  Permutation (frame_cells (frame_add time x g))
              (frame_cells g ++ [(fst x, time)]).
Proof.
  unfold frame_cells. induction g as [|[k arr] rest IH]; cbn [frame_add].
  - reflexivity.
  - destruct (Z.eqb_spec k time) as [->|Hne]; cbn [flat_map fst snd].
    + rewrite map_app. cbn [map]. rewrite <- !app_assoc.
      apply Permutation_app_head, Permutation_app_comm.
    + rewrite IH, app_assoc. reflexivity.
Qed.

Lemma frames_fold_NoDup (S : list (list dB)) (cells : list (Z * Z)) :
  forall g,
    NoDup (frame_cells g ++ cells) ->
    NoDup (frame_cells (fold_left (frame_step S) cells g)).
Proof.
  induction cells as [|[freq time] cells IH]; intros g ND; cbn [fold_left].
  - now rewrite app_nil_r in ND.
  - apply IH. rewrite frame_step_eq.
    destruct (cell S freq time) as [x|].
    + eapply Permutation_NoDup; [|exact ND].
      rewrite frame_add_cells. cbn [fst]. rewrite <- app_assoc. reflexivity.
    + exact (NoDup_remove_1 _ _ _ ND).
Qed.

Lemma insert_by_strength_perm (x : Z * dB) (l : list (Z * dB)) :
  Permutation (insert_by_strength x l) (x :: l).
Proof.
  induction l as [|y l IH]; cbn [insert_by_strength]; [reflexivity|].
  destruct (dB_leb (snd y) (snd x)); [reflexivity|].
  rewrite IH. apply perm_swap.
Qed.

Lemma sort_by_strength_perm (l : list (Z * dB)) :
  Permutation (sort_by_strength l) l.
Proof.
  induction l as [|x l IH]; [reflexivity|].
  cbn [sort_by_strength fold_right]. rewrite insert_by_strength_perm.
  now constructor.
Qed.

Lemma insert_by_time_perm (x : peak) (l : list peak) :
  Permutation (insert_by_time x l) (x :: l).
Proof.
  induction l as [|y l IH]; cbn [insert_by_time]; [reflexivity|].
  destruct (snd x <=? snd y); [reflexivity|].
  rewrite IH. apply perm_swap.
Qed.

Lemma sort_by_time_perm (l : list peak) : Permutation (sort_by_time l) l.
Proof.
  induction l as [|x l IH]; [reflexivity|].
  cbn [sort_by_time fold_right]. rewrite insert_by_time_perm.
  now constructor.
Qed.

Lemma top_of_frame_In (e : Z * list (Z * dB)) (p : peak) :
  In p (top_of_frame e) -> In p (map (fun x => (fst x, fst e)) (snd e)).
Proof.
  unfold top_of_frame. rewrite !in_map_iff. intros [x [E Hx]].
  exists x. split; [exact E|]. apply In_firstn in Hx.
  eapply Permutation_in; [apply sort_by_strength_perm | exact Hx].
Qed.

Lemma top_of_frame_NoDup (e : Z * list (Z * dB)) :
  NoDup (map (fun x => (fst x, fst e)) (snd e)) -> NoDup (top_of_frame e).
Proof.
  intros ND. unfold top_of_frame. rewrite <- firstn_map. apply NoDup_firstn.
  eapply Permutation_NoDup; [|exact ND].
  apply Permutation_map. symmetry. apply sort_by_strength_perm.
Qed.

Lemma kept_frames_NoDup (g : list (Z * list (Z * dB))) :
  NoDup (frame_cells g) -> NoDup (flat_map top_of_frame g).
Proof.
  unfold frame_cells. induction g as [|e rest IH]; [constructor|].
  cbn [flat_map]. intros ND. apply NoDup_app.
  - apply top_of_frame_NoDup. exact (NoDup_app_remove_r _ _ ND).
  - apply IH. exact (NoDup_app_remove_l _ _ ND).
  - intros p Hp Hp'. apply top_of_frame_In in Hp.
    apply (NoDup_app_disjoint _ _ p ND Hp).
    apply in_flat_map in Hp'. destruct Hp' as [e' [He' Hp']].
    apply in_flat_map. exists e'. split; [exact He'|].
    now apply top_of_frame_In.
Qed.

(** The peaks returned by [local_maxima] are distinct cells. *)
Lemma local_maxima_NoDup (S : list (list dB)) : NoDup (local_maxima S).
Proof.
  unfold local_maxima. eapply Permutation_NoDup.
  - symmetry. apply sort_by_time_perm.
  - unfold kept, peak_by_time_frame. apply kept_frames_NoDup.
    apply frames_fold_NoDup. cbn [frame_cells flat_map app].
    apply argwhere_NoDup.
Qed.

Lemma flat_map_nil {A B : Type} (f : A -> list B) (l : list A) :
  (forall x, f x = []) -> flat_map f l = [].
Proof.
  intros H. induction l as [|x l IH]; [reflexivity|].
  cbn [flat_map]. now rewrite H, IH.
Qed.

(** An array that is minus infinity everywhere has no peak: all of it
    is background. *)
Lemma local_maxima_background (S : list (list dB)) :
  (forall i j x, cell S i j = Some x -> x = NegInf) ->
  local_maxima S = [].
Proof.
  intros H.
  assert (Hb : forall i j, background S i j = true).
  { intros i j. unfold background.
    destruct (cell S i j) as [x|] eqn:E; [|reflexivity].
    now rewrite (H i j x E). }
  assert (Ha : argwhere S = []).
  { unfold argwhere. apply flat_map_nil. intros i.
    apply flat_map_nil. intros j. unfold actual_peaks, background_erroded.
    rewrite !Hb. destruct (cell S _ _); [|reflexivity].
    now rewrite andb_false_r. }
  unfold local_maxima, kept, peak_by_time_frame. now rewrite Ha.
Qed.

(** C5 at silence: for a track whose samples are all zero the
    spectrogram is 0 dB everywhere, no cell is background, every cell is
    a local maximum, and [local_maxima] returns peaks: the list is not
    empty. *)
Theorem C5_silence_has_peaks (bins frames : nat) :
  (0 < bins)%nat -> (0 < frames)%nat ->
  local_maxima (spec_in_dB (silence bins frames)) <> [].
Proof.
  intros Hb Hf. rewrite spec_in_dB_silence.
  destruct bins as [|b]; [lia|]. destruct frames as [|f]; [lia|].
  set (S := repeat (repeat (Fin 0) (S f)) (S b)).
  assert (Hc : cell S 0 0 = Some (Fin 0)) by reflexivity.
  assert (Hp : actual_peaks S 0 0 = true).
  { unfold actual_peaks. rewrite Hc.
    rewrite maximum_filter_flat by (intros i j x; apply cell_flat).
    rewrite dB_eqb_refl. unfold background_erroded, background.
    rewrite Hc. reflexivity. }
  destruct (argwhere_head S) as [rest Ha]; [simpl; lia | | exact Hp |].
  - subst S. cbn [repeat nth List.length]. lia.
  - exact (local_maxima_nonempty S 0 0 (Fin 0) rest Ha Hc).
Qed.

Lemma C5_witness :
  local_maxima (spec_in_dB (silence 1025 16)) <> [].
Proof. apply C5_silence_has_peaks; lia. Defined.

Lemma C2_witness :
  cell (spec_in_dB (silence 1025 16)) 0 0 <> Some NegInf.
Proof. exact (proj2 (C2_silence_is_0_dB 1025 16) 0 0). Defined.

(** ** The fan-out, for every track *)

(** C4: at most [HASH_FANOUT = 8] pairs are emitted for an anchor: in
    each iteration of the outer loop, whatever the peaks; and, the peaks
    returned by [local_maxima] being distinct cells, at most 8 of the
    pairs emitted for a track have a given peak as anchor. *)
Theorem C4_fanout_cap :
  (forall anchor later,
      Z.of_nat (List.length (anchor_pairs anchor later)) <= HASH_FANOUT)
  /\ (forall (spec : list (list R)) (a : peak),
         Z.of_nat
           (List.length
              (pairs_anchored_at a
                 (landmark_pairs (local_maxima (spec_in_dB spec)))))
         <= HASH_FANOUT)
  /\ (forall spec,
         List.length (make_hash_from_audio spec)
         = List.length (landmark_pairs (local_maxima (spec_in_dB spec)))).
Proof.
  split; [exact anchor_pairs_fanout | split].
  - intros spec a. apply fanout_of_distinct_peaks, local_maxima_NoDup.
  - intros spec. unfold make_hash_from_audio, make_hash_from_peaks.
    apply length_map.
Qed.

Example fanout_of_eleven_peaks :
  pairs_anchored_at (1, 0)
    (landmark_pairs
       [(1, 0); (2, 2); (3, 2); (4, 2); (5, 2); (6, 3); (7, 3);
        (8, 3); (9, 3); (10, 4); (11, 4)])
  = [((1, 0), (2, 2)); ((1, 0), (3, 2)); ((1, 0), (4, 2)); ((1, 0), (5, 2));
     ((1, 0), (6, 3)); ((1, 0), (7, 3)); ((1, 0), (8, 3)); ((1, 0), (9, 3))].
Proof. reflexivity. Qed.

(** * Further properties of the code *)

(** ** The peaks returned by [local_maxima] *)

Lemma insert_by_time_In (x y : peak) (l : list peak) :
  In y (insert_by_time x l) <-> y = x \/ In y l.
Proof.
  split; intros H.
  - apply (Permutation_in _ (insert_by_time_perm x l)) in H.
    destruct H as [<-|H]; auto.
  - apply (Permutation_in _ (Permutation_sym (insert_by_time_perm x l))).
    destruct H as [->|H]; [now left | now right].
Qed.

Lemma insert_by_time_sorted (x : peak) (l : list peak) :
  StronglySorted by_time l -> StronglySorted by_time (insert_by_time x l).
Proof.
  induction 1 as [|y l Hs IH Hy]; cbn [insert_by_time].
  - repeat constructor.
  - destruct (snd x <=? snd y) eqn:E.
    + apply Z.leb_le in E. constructor; [constructor; assumption|].
      constructor; [exact E|].
      eapply Forall_impl; [|exact Hy]. unfold by_time. intros; lia.
    + apply Z.leb_gt in E. constructor; [exact IH|].
      apply Forall_forall. intros z Hz. apply insert_by_time_In in Hz.
      destruct Hz as [->|Hz]; [unfold by_time; lia|].
      rewrite Forall_forall in Hy. auto.
Qed.

(** X1: the peaks returned by [local_maxima] are in the order of their
    time frames, whatever the spectrogram. *)
Theorem local_maxima_sorted_by_time (S : list (list dB)) :
  StronglySorted by_time (local_maxima S).
Proof.
  unfold local_maxima, sort_by_time.
  induction (kept S) as [|x l IH]; cbn [fold_right]; [constructor|].
  now apply insert_by_time_sorted.
Qed.

(** X2: no cell is returned twice by [local_maxima]. *)
Theorem local_maxima_distinct (S : list (list dB)) : NoDup (local_maxima S).
Proof. apply local_maxima_NoDup. Qed.

Lemma frame_add_keys (time : Z) (x : Z * dB) (g : list (Z * list (Z * dB))) :
  map fst (frame_add time x g) = add_key (map fst g) time.
Proof.
  unfold add_key. induction g as [|[k arr] rest IH]; [reflexivity|].
  cbn [frame_add map fst existsb]. destruct (Z.eqb_spec k time) as [->|Hne].
  - rewrite Z.eqb_refl. reflexivity.
  - cbn [map fst]. rewrite IH.
    destruct (Z.eqb_spec time k); [congruence|]. cbn [orb].
    destruct (existsb (Z.eqb time) (map fst rest)); reflexivity.
Qed.

Lemma frames_fold_keys (S : list (list dB)) (cells : list (Z * Z)) :
  forall g,
    NoDup (map fst g) ->
    NoDup (map fst (fold_left (frame_step S) cells g)).
Proof.
  induction cells as [|[freq time] cells IH]; intros g ND; cbn [fold_left];
    [exact ND|].
  apply IH. rewrite frame_step_eq. destruct (cell S freq time); [|exact ND].
  rewrite frame_add_keys. now apply add_key_NoDup.
Qed.

Lemma frames_fold_cells (S : list (list dB)) (cells : list (Z * Z)) (p : peak) :
  forall g,
    In p (frame_cells (fold_left (frame_step S) cells g)) ->
    In p (frame_cells g) \/ In p cells.
Proof.
  induction cells as [|[freq time] cells IH]; intros g H; cbn [fold_left] in H;
    [now left|].
  apply IH in H. destruct H as [H|H]; [|right; now right].
  rewrite frame_step_eq in H. destruct (cell S freq time) as [x|]; [|now left].
  apply (Permutation_in _ (frame_add_cells time (freq, x) g)) in H.
  apply in_app_or in H. destruct H as [H|[<-|[]]]; [now left|].
  right. now left.
Qed.

Lemma top_of_frame_length (e : Z * list (Z * dB)) :
  Z.of_nat (List.length (top_of_frame e)) <= TOP_PEAKS_PER_FRAME.
Proof.
  unfold top_of_frame. rewrite length_map, length_firstn.
  unfold TOP_PEAKS_PER_FRAME. lia.
Qed.

Lemma top_of_frame_time (e : Z * list (Z * dB)) (p : peak) :
  In p (top_of_frame e) -> snd p = fst e.
Proof.
  unfold top_of_frame. rewrite in_map_iff. now intros [x [<- _]].
Qed.

Lemma peaks_of_frame_app (t : Z) (a b : list peak) :
  peaks_of_frame t (a ++ b) = peaks_of_frame t a ++ peaks_of_frame t b.
Proof. apply filter_app. Qed.

Lemma peaks_of_frame_none (t : Z) (l : list peak) :
  (forall p, In p l -> snd p <> t) -> peaks_of_frame t l = [].
Proof.
  intros H. apply filter_none. intros p Hp.
  destruct (Z.eqb_spec (snd p) t) as [E|]; [|reflexivity].
  now apply H in Hp.
Qed.

Lemma frames_of_other_time (t : Z) (g : list (Z * list (Z * dB))) :
  ~ In t (map fst g) -> peaks_of_frame t (flat_map top_of_frame g) = [].
Proof.
  intros H. apply peaks_of_frame_none. intros p Hp E.
  apply in_flat_map in Hp. destruct Hp as [e [He Hp]].
  apply top_of_frame_time in Hp.
  apply H. apply in_map_iff. exists e. split; [congruence | exact He].
Qed.

Lemma kept_frames_top (t : Z) (g : list (Z * list (Z * dB))) :
  NoDup (map fst g) ->
  Z.of_nat (List.length (peaks_of_frame t (flat_map top_of_frame g)))
  <= TOP_PEAKS_PER_FRAME.
Proof.
  induction g as [|e rest IH]; intros ND.
  - cbn. unfold TOP_PEAKS_PER_FRAME. lia.
  - cbn [map] in ND. inversion ND as [|? ? Hnot ND']; subst.
    cbn [flat_map]. rewrite peaks_of_frame_app, length_app.
    destruct (Z.eq_dec (fst e) t) as [E|Hne].
    + subst t. rewrite (frames_of_other_time _ _ Hnot).
      assert (F : (List.length (peaks_of_frame (fst e) (top_of_frame e))
                   <= List.length (top_of_frame e))%nat)
        by apply filter_length_le.
      pose proof (top_of_frame_length e). cbn [List.length]. lia.
    + rewrite (peaks_of_frame_none t (top_of_frame e)).
      * cbn [List.length]. now apply IH.
      * intros p Hp. apply top_of_frame_time in Hp. congruence.
Qed.

(** X3: at most [TOP_PEAKS_PER_FRAME = 16] of the peaks returned by
    [local_maxima] lie in any one time frame. *)
Theorem local_maxima_top_per_frame (S : list (list dB)) (t : Z) :
  Z.of_nat (List.length (peaks_of_frame t (local_maxima S)))
  <= TOP_PEAKS_PER_FRAME.
Proof.
  unfold local_maxima. unfold peaks_of_frame at 1.
  rewrite (filter_length_perm _ _ _ (sort_by_time_perm (kept S))).
  apply kept_frames_top. unfold peak_by_time_frame.
  apply frames_fold_keys. constructor.
Qed.

Lemma dB_leb_total (a b : dB) : dB_leb a b = false -> dB_leb b a = true.
Proof.
  destruct a as [|x], b as [|y]; cbn; try discriminate; try reflexivity.
  destruct (Rle_dec x y); [discriminate|]. intros _.
  destruct (Rle_dec y x) as [_|H]; [reflexivity | exfalso; lra].
Qed.

Lemma dB_leb_trans (a b c : dB) :
  dB_leb a b = true -> dB_leb b c = true -> dB_leb a c = true.
Proof.
  destruct a as [|x], b as [|y], c as [|z]; cbn; try discriminate;
    try reflexivity.
  destruct (Rle_dec x y); [|discriminate].
  destruct (Rle_dec y z); [|discriminate]. intros _ _.
  destruct (Rle_dec x z) as [_|H]; [reflexivity | exfalso; lra].
Qed.

Lemma fold_max_ge (l : list dB) (y : dB) :
  In y l -> dB_leb y (fold_right dB_max NegInf l) = true.
Proof.
  induction l as [|x l IH]; [contradiction|]. cbn [fold_right].
  unfold dB_max at 1. intros [->|Hy].
  - destruct (dB_leb y (fold_right dB_max NegInf l)) eqn:E; [exact E|].
    apply dB_leb_refl.
  - specialize (IH Hy).
    destruct (dB_leb x (fold_right dB_max NegInf l)) eqn:E; [exact IH|].
    apply dB_leb_total in E. exact (dB_leb_trans _ _ _ IH E).
Qed.

Lemma window_In (d : Z) : -8 <= d <= 7 -> In d (window 16).
Proof.
  intros H. change (window 16) with
    [-8; -7; -6; -5; -4; -3; -2; -1; 0; 1; 2; 3; 4; 5; 6; 7].
  cbn [In]. lia.
Qed.

Lemma maximum_filter_ge (S : list (list dB)) (i j di dj : Z) :
  -8 <= di <= 7 -> -8 <= dj <= 7 ->
  dB_leb (padded S (i + di) (j + dj)) (maximum_filter S i j) = true.
Proof.
  intros Hi Hj. unfold maximum_filter. apply fold_max_ge.
  apply in_flat_map. exists di. split; [now apply window_In|].
  apply in_map_iff. exists dj. split; [reflexivity | now apply window_In].
Qed.

Lemma argwhere_In (S : list (list dB)) (p : Z * Z) :
  In p (argwhere S) -> actual_peaks S (fst p) (snd p) = true.
Proof.
  unfold argwhere. intros H. apply in_flat_map in H.
  destruct H as [i [_ H]]. apply in_flat_map in H. destruct H as [j [_ H]].
  destruct (actual_peaks S (Z.of_nat i) (Z.of_nat j)) eqn:E; [|contradiction].
  destruct H as [<-|[]]. exact E.
Qed.

Lemma local_maxima_argwhere (S : list (list dB)) (p : peak) :
  In p (local_maxima S) -> In p (argwhere S).
Proof.
  unfold local_maxima. intros H.
  apply (Permutation_in _ (sort_by_time_perm (kept S))) in H.
  unfold kept in H. apply in_flat_map in H. destruct H as [e [He H]].
  apply top_of_frame_In in H.
  assert (Hc : In p (frame_cells (peak_by_time_frame S))).
  { unfold frame_cells. apply in_flat_map. eauto. }
  unfold peak_by_time_frame in Hc. apply frames_fold_cells in Hc.
  destruct Hc as [[]|Hc]. exact Hc.
Qed.

(** X4: every peak returned by [local_maxima] is a cell of the
    spectrogram whose value no cell of its 16 x 16 neighbourhood
    exceeds, a cell outside the array counting for 0 dB, and which is
    not in the eroded background. *)
Theorem local_maxima_accepted (S : list (list dB)) :
  Forall (accepted_cell S) (local_maxima S).
Proof.
  apply Forall_forall. intros p Hp. apply local_maxima_argwhere in Hp.
  apply argwhere_In in Hp. unfold actual_peaks in Hp.
  destruct (cell S (fst p) (snd p)) as [x|] eqn:Ec; [|discriminate].
  apply andb_prop in Hp. destruct Hp as [Hmax Hbg].
  exists x. split; [exact Ec | split].
  - intros di dj Hi Hj. unfold dB_eqb in Hmax. apply andb_prop in Hmax.
    eapply dB_leb_trans; [now apply maximum_filter_ge | exact (proj2 Hmax)].
  - now apply negb_true_iff in Hbg.
Qed.

Lemma all_cells_In (S : list (list dB)) (P : dB -> Prop) :
  Forall (Forall P) S -> forall i j x, cell S i j = Some x -> P x.
Proof.
  intros H i j x Hc. apply cell_In in Hc. apply in_concat in Hc.
  destruct Hc as [row [Hrow Hx]]. rewrite Forall_forall in H.
  specialize (H row Hrow). rewrite Forall_forall in H. auto.
Qed.

(** X5: a spectrogram that is minus infinity in every cell has no
    peak: all of it is eroded as background. *)
Theorem local_maxima_of_background (S : list (list dB)) :
  Forall (Forall (fun x => x = NegInf)) S -> local_maxima S = [].
Proof.
  intros H. apply local_maxima_background.
  exact (all_cells_In S (fun x => x = NegInf) H).
Qed.

Lemma local_maxima_of_background_witness :
  local_maxima [[NegInf; NegInf]; [NegInf; NegInf]] = [].
Proof. apply local_maxima_of_background. repeat constructor. Defined.

(** ** The range of the spectrogram *)

Lemma array_max_In (l : list R) : l <> [] -> In (array_max l) l.
Proof.
  destruct l as [|a rest]; [congruence|]. intros _. cbn [array_max].
  revert a. induction rest as [|y rest IH]; intros a; cbn [fold_left].
  - now left.
  - destruct (IH (Rmax a y)) as [E|Hin].
    + rewrite <- E. unfold Rmax. destruct (Rle_dec a y); [right|]; now left.
    + right. now right.
Qed.

Lemma concat_map_map_In' {A B : Type} (f : A -> B) (M : list (list A)) (x : A) :
  In x (List.concat M) -> In (f x) (List.concat (map (map f) M)).
Proof.
  rewrite !in_concat. intros [row [Hrow Hx]]. exists (map f row).
  split; now apply in_map.
Qed.

Lemma amplitude_to_db_ge_floor (spec : list (list R)) (r : R) :
  In r (List.concat (amplitude_to_db spec)) -> (- 80 <= r)%R.
Proof.
  unfold amplitude_to_db, power_to_db.
  set (magnitude := map (map Rabs) spec).
  set (ref_value := array_max (List.concat magnitude)).
  set (floor := (amin * amin)%R).
  set (g := fun p =>
              (10 * log10 (Rmax floor p)
               - 10 * log10 (Rmax floor (Rabs (ref_value * ref_value))))%R).
  set (log_spec := map (map g) (map (map (fun m => (m * m)%R)) magnitude)).
  intros Hr. apply concat_map_map_In in Hr. destruct Hr as [l [Hl ->]].
  assert (Hne : List.concat magnitude <> []).
  { unfold log_spec in Hl. apply concat_map_map_In in Hl.
    destruct Hl as [p [Hp _]]. apply concat_map_map_In in Hp.
    destruct Hp as [m [Hm _]]. intros E. rewrite E in Hm. contradiction. }
  assert (Htop : (0 <= array_max (List.concat log_spec))%R).
  { pose proof (array_max_In _ Hne) as Hin. fold ref_value in Hin.
    apply (concat_map_map_In' (fun m => (m * m)%R)) in Hin.
    apply (concat_map_map_In' g) in Hin. fold log_spec in Hin.
    apply array_max_ge in Hin.
    assert (E : g (ref_value * ref_value)%R = 0%R).
    { unfold g. rewrite (Rabs_pos_eq (ref_value * ref_value)) by nra. ring. }
    rewrite E in Hin. exact Hin. }
  pose proof (Rmax_r l (array_max (List.concat log_spec) - top_db)) as Hm.
  unfold top_db in *. lra.
Qed.

(** X7: every cell of the spectrogram returned by [spectrogram] is a
    real number of decibels between -80 and 0: the reference is the
    largest magnitude and [amplitude_to_db] cuts at 80 dB under it. *)
Theorem spec_in_dB_range (spec : list (list R)) :
  Forall (Forall in_dB_range) (spec_in_dB spec).
Proof.
  apply Forall_forall. intros row Hrow. apply Forall_forall. intros x Hx.
  assert (Hin : In x (List.concat (spec_in_dB spec)))
    by (apply in_concat; eauto).
  unfold spec_in_dB in Hin. apply concat_map_map_In in Hin.
  destruct Hin as [r [Hr ->]]. exists r. split; [reflexivity|].
  split; [exact (amplitude_to_db_ge_floor spec r Hr)
         | exact (amplitude_to_db_le_0 spec r Hr)].
Qed.

(** ** The pairs of time-sorted peaks *)

Lemma in_zone_too_late (anchor p : peak) :
  snd anchor + 64 < snd p -> in_zone anchor p = false.
Proof.
  intros H. unfold in_zone.
  destruct (Z.leb_spec (snd p) (snd anchor + 64)); [lia|].
  now rewrite andb_false_r.
Qed.

Lemma scan_targets_sorted (freq1 time1 : Z) (later : list peak) :
  StronglySorted by_time later ->
  forall count,
    0 <= count < 8 ->
    scan_targets freq1 time1 count later
    = firstn (Z.to_nat (8 - count)) (filter (in_zone (freq1, time1)) later).
Proof.
  induction 1 as [|[f t] rest Hs IH Hall]; intros count Hc.
  - now rewrite firstn_nil.
  - cbn [scan_targets filter].
    unfold TARGET_ZONE_T_FRAMES, TARGET_ZONE_F_BINS, HASH_FANOUT, in_zone.
    cbn [fst snd].
    destruct (t <=? time1 + 64) eqn:E2.
    + destruct (time1 + 2 <=? t) eqn:E1;
        destruct (Z.abs (f - freq1) <=? 48) eqn:E3; cbn [andb];
        try (now apply IH).
      replace (Z.to_nat (8 - count)) with (S (Z.to_nat (7 - count))) by lia.
      cbn [firstn]. f_equal.
      destruct (Z.leb_spec 8 (count + 1)) as [H8|H8].
      * replace (Z.to_nat (7 - count)) with 0%nat by lia. reflexivity.
      * rewrite IH by lia.
        replace (8 - (count + 1)) with (7 - count) by lia. reflexivity.
    + rewrite andb_false_r. cbn [andb].
      rewrite filter_none; [now rewrite firstn_nil|].
      intros p Hp. apply (in_zone_too_late (freq1, time1) p). cbn [snd].
      rewrite Forall_forall in Hall. specialize (Hall p Hp).
      unfold by_time in Hall. cbn [snd] in Hall. apply Z.leb_gt in E2. lia.
Qed.

Lemma landmark_pairs_sorted (peaks : list peak) :
  StronglySorted by_time peaks -> landmark_pairs peaks = zone_pairs peaks.
Proof.
  induction 1 as [|[f t] later Hs IH Hall]; [reflexivity|].
  cbn [landmark_pairs zone_pairs]. rewrite IH. f_equal.
  unfold anchor_pairs. cbn [fst snd].
  rewrite scan_targets_sorted; [reflexivity | exact Hs | lia].
Qed.

(** X9: when the peaks are in the order of their time frames, as those
    of [local_maxima] are, the loops of [make_hash_from_audio] pair
    every peak with exactly the first eight later peaks of its target
    zone: the early exit of the inner loop loses no pair. *)
Theorem landmark_pairs_are_zone_pairs :
  (forall peaks,
      StronglySorted by_time peaks -> landmark_pairs peaks = zone_pairs peaks)
  /\ (forall S,
         landmark_pairs (local_maxima S) = zone_pairs (local_maxima S)).
Proof.
  split; [exact landmark_pairs_sorted|].
  intros S. unfold local_maxima, sort_by_time.
  apply landmark_pairs_sorted.
  induction (kept S) as [|x l IH]; cbn [fold_right]; [constructor|].
  now apply insert_by_time_sorted.
Qed.

Lemma landmark_pairs_are_zone_pairs_witness :
  landmark_pairs [(10, 0); (70, 1); (20, 2); (30, 5); (12, 70)]
  = zone_pairs [(10, 0); (70, 1); (20, 2); (30, 5); (12, 70)].
Proof.
  apply (proj1 landmark_pairs_are_zone_pairs).
  repeat (constructor; [|repeat constructor; unfold by_time; cbn; lia]).
  constructor.
Defined.

(** ** The list of hashes *)

Lemma hash_of_pair_time (p : peak * peak) : snd (hash_of_pair p) = snd (fst p).
Proof. now destruct p as [[f1 t1] [f2 t2]]. Qed.

Lemma StronglySorted_app {A : Type} (R : A -> A -> Prop) (l m : list A) :
  StronglySorted R l -> StronglySorted R m ->
  (forall x y, In x l -> In y m -> R x y) ->
  StronglySorted R (l ++ m).
Proof.
  intros Hl Hm H. induction Hl as [|x l Hl IH Hx]; [exact Hm|].
  cbn [app]. constructor.
  - apply IH. intros a b Ha. apply H. now right.
  - apply Forall_app. split; [exact Hx|].
    apply Forall_forall. intros y Hy. apply H; [now left | exact Hy].
Qed.

Lemma anchor_times_sorted (peaks : list peak) :
  StronglySorted by_time peaks ->
  StronglySorted Z.le (map snd (make_hash_from_peaks peaks)).
Proof.
  unfold make_hash_from_peaks. rewrite map_map.
  induction 1 as [|anchor later Hs IH Hall]; [constructor|].
  cbn [landmark_pairs]. rewrite map_app. apply StronglySorted_app.
  - unfold anchor_pairs. rewrite map_map.
    induction (scan_targets _ _ _ _) as [|target l IHl]; cbn [map];
      constructor; [exact IHl|].
    apply Forall_forall. intros y Hy. apply in_map_iff in Hy.
    destruct Hy as [t' [<- _]]. rewrite !hash_of_pair_time. cbn [fst]. lia.
  - exact IH.
  - intros x y Hx Hy. apply in_map_iff in Hx, Hy.
    destruct Hx as [p [<- Hp]]. destruct Hy as [q [<- Hq]].
    rewrite !hash_of_pair_time.
    apply anchor_pairs_anchor in Hp. apply landmark_pairs_anchor in Hq.
    rewrite Hp. rewrite Forall_forall in Hall. exact (Hall _ Hq).
Qed.

(** X10: the hashes of a track come in the order of their anchor times:
    the times stored with the hashes never decrease along the list
    returned by [make_hash_from_audio]. *)
Theorem hashes_in_anchor_order (spec : list (list R)) :
  StronglySorted Z.le (map snd (make_hash_from_audio spec)).
Proof.
  unfold make_hash_from_audio. apply anchor_times_sorted.
  unfold local_maxima, sort_by_time.
  induction (kept (spec_in_dB spec)) as [|x l IH]; cbn [fold_right];
    [constructor|].
  now apply insert_by_time_sorted.
Qed.

(** X11: a list of [n] peaks gives at most [8 * n] hashes, and none when
    it has fewer than two peaks. *)
Theorem hashes_count_bound (peaks : list peak) :
  Z.of_nat (List.length (make_hash_from_peaks peaks))
  <= HASH_FANOUT * Z.of_nat (List.length peaks)
  /\ ((List.length peaks < 2)%nat -> make_hash_from_peaks peaks = []).
Proof.
  unfold make_hash_from_peaks. rewrite length_map. split.
  - induction peaks as [|anchor later IH]; [cbn; unfold HASH_FANOUT; lia|].
    cbn [landmark_pairs]. rewrite length_app.
    pose proof (anchor_pairs_fanout anchor later).
    cbn [List.length]. unfold HASH_FANOUT in *. lia.
  - destruct peaks as [|[f t] [|q rest]]; cbn [List.length]; try lia;
      reflexivity.
Qed.

Lemma hashes_count_bound_witness : make_hash_from_peaks [(3, 7)] = [].
Proof. apply (proj2 (hashes_count_bound [(3, 7)])). cbn. lia. Defined.

(** ** The string that is hashed *)

Lemma uint_no_bar (d : Decimal.uint) :
  has_bar (NilEmpty.string_of_uint d) = false.
Proof. induction d; cbn; auto. Qed.

Lemma py_str_no_bar (x : Z) : has_bar (py_str x) = false.
Proof.
  unfold py_str, NilZero.string_of_int, NilZero.string_of_uint.
  destruct (Z.to_int x) as [d|d]; destruct d; cbn; auto using uint_no_bar.
Qed.

Lemma py_str_inj (x y : Z) : py_str x = py_str y -> x = y.
Proof.
  unfold py_str. intros E.
  assert (N : forall z, Z.to_int z <> Decimal.Pos Decimal.Nil
                        /\ Z.to_int z <> Decimal.Neg Decimal.Nil).
  { intros [|p|p]; cbn; split; try discriminate;
      intros H; injection H as H;
      exact (DecimalPos.Unsigned.to_uint_nonnil p H). }
  pose proof (NilZero.isi (Z.to_int x) (proj1 (N x)) (proj2 (N x))) as Ex.
  pose proof (NilZero.isi (Z.to_int y) (proj1 (N y)) (proj2 (N y))) as Ey.
  rewrite E, Ey in Ex. injection Ex as Ex.
  rewrite <- (DecimalZ.of_to x), <- (DecimalZ.of_to y). now rewrite Ex.
Qed.

(** Two strings cut at their first bar. *)
Lemma split_at_bar (s1 s2 r1 r2 : string) :
  has_bar s1 = false -> has_bar s2 = false ->
  (s1 ++ String "|" r1 = s2 ++ String "|" r2)%string ->
  s1 = s2 /\ r1 = r2.
Proof.
  revert s2. induction s1 as [|c s1 IH]; intros [|c' s2] H1 H2 E;
    cbn [String.append has_bar] in *.
  - injection E as E. auto.
  - injection E as Ec E. subst c'. cbn in H2. discriminate.
  - injection E as Ec E. subst c. cbn in H1. discriminate.
  - injection E as Ec E. subst c'. apply orb_false_elim in H1, H2.
    destruct (IH s2 (proj2 H1) (proj2 H2) E) as [-> ->]. auto.
Qed.

(** X12: [hash_pair] digests a string that determines the two bins and
    the time difference: two triples are given the same string only if
    they are equal, so that two pairs share a key only if they agree or
    MD5 collides. *)
Theorem hash_input_injective (f1 f2 dt f1' f2' dt' : Z) :
  hash_pair f1 f2 dt = hexdigest (list_byte_of_string (hash_input f1 f2 dt))
  /\ (hash_input f1 f2 dt = hash_input f1' f2' dt' ->
      f1 = f1' /\ f2 = f2' /\ dt = dt').
Proof.
  split; [reflexivity|]. unfold hash_input. intros E.
  change ("|" ++ ?s)%string with (String "|" s) in E.
  apply split_at_bar in E; try apply py_str_no_bar.
  destruct E as [E1 E].
  change ("|" ++ ?s)%string with (String "|" s) in E.
  apply split_at_bar in E; try apply py_str_no_bar.
  destruct E as [E2 E3].
  auto using py_str_inj.
Qed.

Lemma hash_input_injective_witness :
  hash_input 12 34 5 = "12|34|5"%string
  /\ (12 = 12 /\ 34 = 34 /\ 5 = 5).
Proof.
  split; [reflexivity|].
  apply (proj2 (hash_input_injective 12 34 5 12 34 5)). reflexivity.
Defined.

(** ** The store: songs and their metadata *)

Lemma dict_get_set_same {V : Type} (k : Z) (v : V) (m : list (Z * V)) :
  dict_get (dict_set k v m) k = Some v.
Proof.
  induction m as [|[k0 v0] m IH]; cbn [dict_set dict_get].
  - now rewrite Z.eqb_refl.
  - destruct (k0 =? k) eqn:E; cbn [dict_get]; rewrite E; [reflexivity | exact IH].
Qed.

Lemma meta_fold_other (k sid : Z) (rows : list song_row)
  (m m' : list (Z * (string * string))) :
  k <> sid -> dict_get m k = dict_get m' k ->
  dict_get
    (fold_left (fun m '(sid, artist, title) => dict_set sid (artist, title) m)
               (filter (fun r => negb (row_song_id r =? sid)) rows) m) k
  = dict_get
      (fold_left (fun m '(sid, artist, title) => dict_set sid (artist, title) m)
                 rows m') k.
Proof.
  intros Hk. revert m m'.
  induction rows as [|[[s a] t] rows IH]; intros m m' E; [exact E|].
  cbn [filter row_song_id fst]. destruct (Z.eqb_spec s sid) as [->|Hs];
    cbn [negb fold_left].
  - apply IH. rewrite dict_get_set_other by congruence. exact E.
  - apply IH. destruct (Z.eqb_spec s k) as [->|Hsk].
    + now rewrite !dict_get_set_same.
    + now rewrite !dict_get_set_other by exact Hsk.
Qed.

Lemma existsb_filter_other (sid other : Z) (rows : list song_row) :
  other <> sid ->
  existsb (fun r => row_song_id r =? other)
          (filter (fun r => negb (row_song_id r =? sid)) rows)
  = existsb (fun r => row_song_id r =? other) rows.
Proof.
  intros Hne. induction rows as [|r rows IH]; [reflexivity|].
  cbn [filter existsb]. destruct (Z.eqb_spec (row_song_id r) sid) as [E|E];
    cbn [negb existsb].
  - rewrite IH. destruct (Z.eqb_spec (row_song_id r) other); [lia | reflexivity].
  - now rewrite IH.
Qed.

(** X13: [add_song] followed by [load_meta]: the song is then in the
    table, once, under the artist and the title given last, whether or
    not it was there before; what is read for every other song_id, the
    [hashes] table and what is committed do not change. *)
Theorem add_song_then_load_meta (c : conn) (sid : Z) (artist title : string) :
  let c' := add_song c sid artist title in
  song_exists c' sid = true
  /\ dict_get (load_meta (working c')) sid = Some (artist, title)
  /\ filter (fun r => row_song_id r =? sid) (songs (working c'))
     = [(sid, artist, title)]
  /\ (forall other,
         other <> sid ->
         song_exists c' other = song_exists c other
         /\ dict_get (load_meta (working c')) other
            = dict_get (load_meta (working c)) other)
  /\ hashes (working c') = hashes (working c)
  /\ committed c' = committed c.
Proof.
  cbn zeta. unfold song_exists, load_meta, add_song.
  cbn [working committed songs hashes].
  repeat split.
  - rewrite existsb_app. cbn [existsb row_song_id fst].
    rewrite Z.eqb_refl. now rewrite orb_true_r.
  - rewrite fold_left_app. cbn [fold_left]. apply dict_get_set_same.
  - rewrite filter_app. cbn [filter row_song_id fst]. rewrite Z.eqb_refl.
    rewrite filter_none; [reflexivity|].
    intros r Hr. apply filter_In in Hr. destruct Hr as [_ Hr].
    now apply negb_true_iff in Hr.
  - rewrite existsb_app. cbn [existsb row_song_id fst].
    destruct (Z.eqb_spec sid other) as [E|_]; [congruence|].
    rewrite !orb_false_r. now apply existsb_filter_other.
  - rewrite fold_left_app. cbn [fold_left].
    rewrite dict_get_set_other by congruence.
    now apply meta_fold_other.
Qed.

Lemma add_song_then_load_meta_witness :
  let d := mkDb [(7, "a", "b"); (8, "c", "d")]%string [([x01], 7, 0)] in
  let c' := add_song (mkConn d d) 7 "e" "f" in
  dict_get (load_meta (working c')) 7 = Some ("e", "f")%string
  /\ dict_get (load_meta (working c')) 8 = Some ("c", "d")%string.
Proof.
  intros d c'.
  destruct (add_song_then_load_meta (mkConn d d) 7 "e" "f")
    as [_ [H1 [_ [H2 _]]]].
  split; [exact H1|].
  destruct (H2 8 ltac:(lia)) as [_ E].
  exact (eq_trans E eq_refl).
Defined.

(** ** The store: hashes *)

Lemma bytes_eqb_eq (a b : list byte) : bytes_eqb a b = true <-> a = b.
Proof.
  revert b. induction a as [|x a IH]; intros [|y b]; cbn [bytes_eqb];
    try (split; [discriminate | congruence]); [tauto|].
  rewrite andb_true_iff, IH. split.
  - intros [E ->]. apply Byte.byte_dec_bl in E. now subst.
  - intros E. injection E as -> ->. split; [|reflexivity].
    now apply Byte.byte_dec_lb.
Qed.

Lemma hash_rows_select (sid : Z) (hl : list (string * Z)) (rows : list hash_row)
  (hbin : list byte) :
  hash_rows sid hl = Some rows ->
  map (fun r => (hash_song_id r, snd r))
      (filter (fun r => bytes_eqb (fst (fst r)) hbin) rows)
  = postings_of sid hl hbin.
Proof.
  unfold postings_of. revert rows.
  induction hl as [|[h t] hl IH]; intros rows E; cbn [hash_rows] in E.
  - injection E as <-. reflexivity.
  - cbn [filter fst]. destruct (fromhex h) as [b|]; [|discriminate].
    destruct (hash_rows sid hl) as [rows'|]; [|discriminate].
    injection E as <-. cbn [filter fst].
    destruct (bytes_eqb b hbin); cbn [map]; rewrite (IH rows' eq_refl);
      reflexivity.
Qed.

Lemma hash_rows_None (sid : Z) (hl : list (string * Z)) :
  hash_rows sid hl = None <-> Exists (fun x => fromhex (fst x) = None) hl.
Proof.
  induction hl as [|[h t] hl IH]; cbn [hash_rows].
  - split; [discriminate | intros H; inversion H].
  - destruct (fromhex h) as [b|] eqn:Eh.
    + destruct (hash_rows sid hl) as [rows|]; cbn [option_map]; split.
      * discriminate.
      * intros H. inversion H as [? ? Hx|? ? Hx]; subst.
        -- cbn [fst] in Hx. congruence.
        -- now apply IH in Hx.
      * intros _. apply Exists_cons_tl. now apply IH.
      * reflexivity.
    + split; [|reflexivity]. intros _. now apply Exists_cons_hd.
Qed.

Lemma hash_rows_times (sid : Z) (hl : list (string * Z)) (rows : list hash_row) :
  hash_rows sid hl = Some rows ->
  map (fun r => (hash_song_id r, snd r)) rows = map (fun x => (sid, snd x)) hl.
Proof.
  revert rows. induction hl as [|[h t] hl IH]; intros rows E;
    cbn [hash_rows] in E.
  - now injection E as <-.
  - destruct (fromhex h); [|discriminate].
    destruct (hash_rows sid hl) as [rows'|]; [|discriminate].
    injection E as <-. cbn [map hash_song_id fst snd]. f_equal. now apply IH.
Qed.

Lemma hash_rows_fit (sid : Z) (hl : list (string * Z)) (rows : list hash_row) :
  hash_rows sid hl = Some rows ->
  (Forall (fun r => fits r = true) rows
   <-> Forall (fun x => int64 sid && int64 (snd x) = true) hl).
Proof.
  intros E. apply hash_rows_times in E.
  assert (A : Forall (fun r => fits r = true) rows
              <-> Forall (fun p => int64 (fst p) && int64 (snd p) = true)
                         (map (fun r : hash_row => (hash_song_id r, snd r)) rows)).
  { rewrite Forall_map. reflexivity. }
  assert (B : Forall (fun x : string * Z => int64 sid && int64 (snd x) = true) hl
              <-> Forall (fun p => int64 (fst p) && int64 (snd p) = true)
                         (map (fun x : string * Z => (sid, snd x)) hl)).
  { rewrite Forall_map. reflexivity. }
  rewrite A, B, E. reflexivity.
Qed.

Lemma Forall_or_Exists_false {A : Type} (f : A -> bool) (l : list A) :
  Forall (fun x => f x = true) l \/ Exists (fun x => f x = false) l.
Proof.
  induction l as [|x l [IH|IH]].
  - left. constructor.
  - destruct (f x) eqn:E; [left; now constructor | right; now constructor].
  - right. now apply Exists_cons_tl.
Qed.

Lemma Forall_Exists_false {A : Type} (f : A -> bool) (l : list A) :
  Forall (fun x => f x = true) l -> Exists (fun x => f x = false) l -> False.
Proof.
  intros F E. apply Exists_exists in E. destruct E as [x [Hx E]].
  rewrite Forall_forall in F. rewrite (F x Hx) in E. discriminate.
Qed.

(** X14: [add_hashes] raises exactly when one of the keys is not
    hexadecimal text, or the song_id or a time does not fit SQLite's
    64-bit integers; with a key that is not hexadecimal it raises
    [ValueError] before inserting anything.  When it returns, the songs
    are untouched and the rows selected under a binary key are the rows
    selected before followed by the postings of the new hashes with
    that key, in their order: each hash added is found again under
    [bytes.fromhex] of its key. *)
Theorem add_hashes_then_select (c : conn) (sid : Z) (hl : list (string * Z)) :
  (add_hashes c sid hl = None
   <-> Exists (fun x => fromhex (fst x) = None) hl
       \/ Exists (fun x => int64 sid && int64 (snd x) = false) hl)
  /\ (forall fails,
         Exists (fun x => fromhex (fst x) = None) hl ->
         add_hashes_run fails c sid hl = (Raised ValueError, c))
  /\ (forall c',
         add_hashes c sid hl = Some c' ->
         songs (working c') = songs (working c)
         /\ committed c' = committed c
         /\ (forall hbin,
                select_hash (working c') hbin
                = select_hash (working c) hbin ++ postings_of sid hl hbin)
         /\ (forall h t hbin,
                In (h, t) hl -> fromhex h = Some hbin ->
                In (sid, t) (select_hash (working c') hbin))).
Proof.
  split; [|split].
  - split.
    + intros N. destruct (hash_rows sid hl) as [rows|] eqn:R.
      * right.
        destruct (Forall_or_Exists_false
                    (fun x : string * Z => int64 sid && int64 (snd x)) hl)
          as [F|E]; [|exact E].
        apply (hash_rows_fit sid hl rows R) in F.
        assert (S : add_hashes c sid hl
                    = Some (mkConn (committed c)
                              (mkDb (songs (working c))
                                    (hashes (working c) ++ rows)))).
        { apply add_hashes_Some. exists rows. auto. }
        congruence.
      * left. now apply hash_rows_None in R.
    + intros H. destruct (add_hashes c sid hl) as [c'|] eqn:E; [|reflexivity].
      apply add_hashes_Some in E. destruct E as [rows [R [F _]]].
      destruct H as [H|H].
      * apply (hash_rows_None sid hl) in H. congruence.
      * apply (hash_rows_fit sid hl rows R) in F.
        destruct (Forall_Exists_false _ _ F H).
  - intros fails H. apply (hash_rows_None sid hl) in H.
    unfold add_hashes_run. now rewrite H.
  - intros c' E. apply add_hashes_Some in E.
    destruct E as [rows [Er [_ ->]]]. cbn [working committed songs hashes].
    assert (S : forall hbin,
               select_hash (mkDb (songs (working c)) (hashes (working c) ++ rows))
                           hbin
               = select_hash (working c) hbin ++ postings_of sid hl hbin).
    { intros hbin. unfold select_hash. cbn [hashes].
      rewrite filter_app, map_app. f_equal. now apply hash_rows_select. }
    repeat split; [exact S|].
    intros h t hbin Hin Hh. rewrite S. apply in_or_app. right.
    unfold postings_of. apply in_map_iff. exists (h, t). split; [reflexivity|].
    apply filter_In. split; [exact Hin|]. cbn [fst]. rewrite Hh.
    now apply bytes_eqb_eq.
Qed.

Lemma add_hashes_then_select_witness :
  let d := mkDb [] [([x0a], 1, 10)] in
  exists c',
    add_hashes (mkConn d d) 2 [("0a", 3); ("0b", 4)]%string = Some c'
    /\ select_hash (working c') [x0a] = [(1, 10); (2, 3)].
Proof.
  intros d.
  destruct (add_hashes (mkConn d d) 2 [("0a", 3); ("0b", 4)]%string)
    as [c'|] eqn:E; [|discriminate E].
  exists c'. split; [reflexivity|].
  destruct (add_hashes_then_select (mkConn d d) 2 [("0a", 3); ("0b", 4)]%string)
    as [_ [_ H]].
  destruct (H c' E) as [_ [_ [S _]]].
  exact (eq_trans (S [x0a]) eq_refl).
Defined.

(** X15: deleting a song twice is deleting it once, and [delete_song]
    undoes an indexing: when no row of the store has the song_id, the
    store after [add_song], [add_hashes] and [delete_song] of that
    song_id is the store before. *)
Theorem delete_song_undoes_indexing (c : conn) (sid : Z) :
  delete_song (delete_song c sid) sid = delete_song c sid
  /\ (forall artist title hl c',
         no_song_row (working c) sid -> no_hash_row (working c) sid ->
         add_hashes (add_song c sid artist title) sid hl = Some c' ->
         working (delete_song c' sid) = working c).
Proof.
  split.
  - unfold delete_song, commit. cbn [working committed songs hashes].
    f_equal; f_equal;
      (apply filter_all; intros r Hr; apply filter_In in Hr; tauto).
  - intros artist title hl c' Hs Hh E. apply add_hashes_Some in E.
    destruct E as [rows [Er [_ ->]]]. unfold delete_song, commit, add_song.
    cbn [working committed songs hashes].
    destruct (working c) as [ss hs] eqn:Ew. cbn [songs hashes] in *.
    f_equal.
    + rewrite filter_app. cbn [filter row_song_id fst]. rewrite Z.eqb_refl.
      cbn [negb]. rewrite app_nil_r.
      assert (F : filter (fun r => negb (row_song_id r =? sid)) ss = ss).
      { apply filter_all. intros r Hr. apply negb_true_iff, Z.eqb_neq.
        now apply Hs. }
      now rewrite !F.
    + rewrite filter_app.
      rewrite (filter_all _ hs).
      * rewrite filter_none; [apply app_nil_r|].
        intros r Hr. apply negb_false_iff, Z.eqb_eq.
        clear - Er Hr. revert rows Er Hr.
        induction hl as [|[h t] hl IH]; intros rows Er Hr; cbn [hash_rows] in Er.
        -- injection Er as <-. contradiction.
        -- destruct (fromhex h); [|discriminate].
           destruct (hash_rows sid hl) as [rows'|]; [|discriminate].
           injection Er as <-. destruct Hr as [<-|Hr]; [reflexivity|].
           exact (IH rows' eq_refl Hr).
      * intros r Hr. apply negb_true_iff, Z.eqb_neq. now apply Hh.
Qed.

Lemma delete_song_undoes_indexing_witness :
  let d := mkDb [(8, "c", "d")]%string [([x01], 8, 3)] in
  exists c',
    add_hashes (add_song (mkConn d d) 7 "a" "b") 7 [("0a", 3)]%string = Some c'
    /\ working (delete_song c' 7) = d.
Proof.
  intros d.
  destruct (add_hashes (add_song (mkConn d d) 7 "a" "b") 7 [("0a", 3)]%string)
    as [c'|] eqn:E; [|discriminate E].
  exists c'. split; [reflexivity|].
  destruct (delete_song_undoes_indexing (mkConn d d) 7) as [_ H].
  apply (H "a" "b" [("0a", 3)] c')%string.
  - intros r [<-|[]]. cbn. lia.
  - intros r [<-|[]]. cbn. lia.
  - exact E.
Defined.

(** ** What a candidate says *)

Lemma sum_values_ge (offs : histogram) (e : Z * Z) :
  Forall (fun e => 0 < snd e) offs -> In e offs -> snd e <= sum_values offs.
Proof.
  intros F. assert (P : 0 <= sum_values offs /\
                        (In e offs -> snd e <= sum_values offs)).
  { induction F as [|x offs Hx F [IH0 IH]].
    - split; [reflexivity | contradiction].
    - rewrite sum_values_cons. split; [lia|].
      intros [<-|Hin]; [lia|]. specialize (IH Hin). lia. }
  exact (proj2 P).
Qed.

Lemma score_In (v : votes) (x : candidate) :
  wf_votes v -> In x (score v) ->
  In (cand_song x) (map fst v)
  /\ cand_count x = votes_best v (cand_song x)
  /\ cand_hits x = votes_total v (cand_song x).
Proof.
  intros [ND W] Hx. unfold score in Hx. apply in_map_iff in Hx.
  destruct Hx as [[s offs] [E Hin]].
  unfold votes_best, votes_total.
  destruct (max_item offs) as [b c] eqn:Em. subst x.
  unfold cand_song, cand_count, cand_hits. cbn [fst snd].
  rewrite (dict_get_In v s offs ND Hin), Em. cbn [snd].
  split; [|split; reflexivity].
  apply in_map_iff. exists (s, offs). split; [reflexivity | exact Hin].
Qed.

Lemma score_songs (v : votes) : map cand_song (score v) = map fst v.
Proof.
  unfold score. rewrite map_map. apply map_ext. intros [s offs].
  destruct (max_item offs). reflexivity.
Qed.

Lemma votes_count_le_best (v : votes) (s d : Z) :
  wf_votes v -> votes_count v s d <= votes_best v s.
Proof.
  intros [ND W]. unfold votes_count, votes_best.
  destruct (dict_get v s) as [offs|] eqn:E; [|lia].
  rewrite Forall_forall in W.
  destruct (W _ (dict_get_Some_In _ _ _ E)) as [Hne [NDo Pos]]. cbn [snd] in *.
  destruct (max_item_spec offs Hne) as [Hm Hmax].
  rewrite Forall_forall in Pos.
  destruct (dict_get offs d) as [n|] eqn:Ed.
  - exact (Hmax _ (dict_get_Some_In _ _ _ Ed)).
  - pose proof (Pos _ Hm). lia.
Qed.

Lemma votes_best_bounds (v : votes) (s : Z) :
  wf_votes v -> In s (map fst v) ->
  1 <= votes_best v s <= votes_total v s.
Proof.
  intros [ND W] K. unfold votes_best, votes_total.
  destruct (dict_get_keys v s K) as [offs E]. rewrite E.
  rewrite Forall_forall in W.
  destruct (W _ (dict_get_Some_In _ _ _ E)) as [Hne [NDo Pos]]. cbn [snd] in *.
  destruct (max_item_spec offs Hne) as [Hm _].
  pose proof (sum_values_ge offs _ Pos Hm).
  rewrite Forall_forall in Pos. pose proof (Pos _ Hm). lia.
Qed.

Lemma song_hits_pos (E : list event) (s : Z) :
  0 < song_hits E s <-> In s (map fst E).
Proof.
  unfold song_hits. induction E as [|e E IH]; cbn [filter map In].
  - cbn. lia.
  - destruct (Z.eqb_spec (fst e) s) as [Es|Es]; cbn [List.length].
    + split; [auto | lia].
    + rewrite IH. tauto.
Qed.

Lemma tally_songs (E : list event) (s : Z) :
  In s (map fst (tally E [])) <-> 0 < song_hits E s.
Proof.
  rewrite keys_tally, seen_order_In, song_hits_pos. cbn [map In]. tauto.
Qed.

Lemma seen_order_NoDup (l K : list Z) : NoDup K -> NoDup (seen_order l K).
Proof.
  revert K. induction l as [|x l IH]; intros K ND; [exact ND|].
  cbn [seen_order fold_left]. apply IH. now apply add_key_NoDup.
Qed.

(** What the candidates of a tally say, in terms of its events. *)
Lemma candidate_meaning (E : list event) (x : candidate) :
  In x (score (tally E [])) ->
  cand_count x = offset_votes E (cand_song x) (cand_offset x)
  /\ cand_hits x = song_hits E (cand_song x)
  /\ 1 <= cand_count x <= cand_hits x
  /\ forall d, offset_votes E (cand_song x) d <= cand_count x.
Proof.
  intros Hx. pose proof (tally_wf E [] wf_votes_nil) as W.
  destruct (score_In _ _ W Hx) as [K [Hc Hh]].
  pose proof (score_offset_votes _ _ W Hx) as Ho.
  pose proof (votes_best_bounds _ _ W K) as B.
  rewrite votes_count_tally in Ho. rewrite votes_total_tally in Hh, B.
  unfold votes_count, votes_total in *. cbn [dict_get] in *.
  repeat split; try lia.
  intros d. pose proof (votes_count_le_best (tally E []) (cand_song x) d W) as L.
  rewrite votes_count_tally in L. unfold votes_count in L. cbn [dict_get] in L.
  lia.
Qed.

Lemma offset_votes_le_hits (E : list event) (s d : Z) :
  offset_votes E s d <= song_hits E s.
Proof.
  unfold offset_votes, song_hits, event_eqb. cbn [fst snd].
  induction E as [|e E IH]; cbn [filter]; [reflexivity|].
  destruct (Z.eqb_spec s (fst e)) as [->|Hs]; cbn [andb].
  - rewrite Z.eqb_refl. destruct (d =? snd e); cbn [List.length]; lia.
  - destruct (Z.eqb_spec (fst e) s); [congruence | exact IH].
Qed.

(** The first candidate of the sorted list has the most votes of all
    songs and offsets. *)
Lemma head_most_votes (E : list event) (x : candidate) (l : list candidate) :
  sort_by_count (score (tally E [])) = x :: l ->
  forall s d, offset_votes E s d <= cand_count x.
Proof.
  intros Hs s d. pose proof (tally_wf E [] wf_votes_nil) as W.
  assert (Hx : In x (score (tally E []))).
  { apply sort_by_count_In. rewrite Hs. now left. }
  destruct (Z_lt_le_dec 0 (song_hits E s)) as [Hp|Hz].
  - apply tally_songs in Hp. rewrite <- score_songs in Hp.
    apply in_map_iff in Hp. destruct Hp as [y [<- Hy]].
    destruct (candidate_meaning E y Hy) as [_ [_ [_ Hm]]].
    specialize (Hm d).
    assert (cand_count y <= cand_count x); [|lia].
    apply (sorted_head_max x l y).
    + rewrite <- Hs. apply sort_by_count_sorted.
    + rewrite <- Hs. now apply sort_by_count_In.
  - pose proof (offset_votes_le_hits E s d).
    destruct (candidate_meaning E x Hx) as [_ [_ [B _]]]. lia.
Qed.

Lemma sort_by_count_nil (l : list candidate) : sort_by_count l = [] <-> l = [].
Proof.
  split; [|now intros ->]. destruct l as [|x l]; [reflexivity|].
  intros H. assert (Hin : In x (sort_by_count (x :: l))).
  { apply sort_by_count_In. now left. }
  rewrite H in Hin. contradiction.
Qed.

Lemma tally_nil (E : list event) : tally E [] = [] <-> E = [].
Proof.
  split; [|now intros ->]. destruct E as [|e E]; [reflexivity|].
  intros H. pose proof (tally_songs (e :: E) (fst e)) as K.
  rewrite H in K. cbn [map In] in K.
  assert (0 < song_hits (e :: E) (fst e)); [|tauto].
  apply song_hits_pos. now left.
Qed.

(** X16: [match_snippet] returns at most one candidate, none exactly
    when no hash of the snippet is in the index.  The candidate's vote
    count is the number of (snippet hash, posting) pairs of its song at
    the reported offset, no pair of a song and an offset has more, and
    its total hits is the number of all pairs of its song; so
    [1 <= votes <= total_hits]. *)
Theorem match_snippet_most_votes
  (hashes : list (string * Z)) (index : pickle_index) :
  let E := events_snippet (postings index) hashes in
  (List.length (match_snippet hashes index) <= 1)%nat
  /\ (match_snippet hashes index = [] <-> E = [])
  /\ Forall
       (fun x =>
          cand_count x = offset_votes E (cand_song x) (cand_offset x)
          /\ cand_hits x = song_hits E (cand_song x)
          /\ 1 <= cand_count x <= cand_hits x
          /\ forall s d, offset_votes E s d <= cand_count x)
       (match_snippet hashes index).
Proof.
  intros E.
  assert (M : match_snippet hashes index
              = firstn 1 (sort_by_count (score (tally E [])))).
  { unfold match_snippet, E. destruct hashes as [|q qs]; [reflexivity|].
    now rewrite tally_snippet_events. }
  rewrite M. destruct (sort_by_count (score (tally E []))) as [|x l] eqn:Hs.
  - cbn [firstn List.length]. split; [lia|]. split; [|constructor].
    split; [|reflexivity]. intros _.
    apply (proj1 (sort_by_count_nil _)) in Hs. unfold score in Hs.
    apply map_eq_nil in Hs. exact (proj1 (tally_nil E) Hs).
  - cbn [firstn List.length]. split; [lia|]. split.
    + split; [discriminate|]. intros HE. rewrite HE in Hs. discriminate.
    + constructor; [|constructor].
      assert (Hx : In x (score (tally E []))).
      { apply sort_by_count_In. rewrite Hs. now left. }
      destruct (candidate_meaning E x Hx) as [H1 [H2 [H3 _]]].
      repeat split; try lia.
      apply (head_most_votes E x l Hs).
Qed.

Lemma match_snippet_most_votes_witness :
  match_snippet tie_query tie_index = [(1, 2, 20, 5)]
  /\ events_snippet (postings tie_index) tie_query <> [].
Proof.
  split; [reflexivity|].
  destruct (match_snippet_most_votes tie_query tie_index) as [_ [H _]].
  intros HE. apply (proj2 H) in HE. discriminate HE.
Defined.

(** ** The sqlite matcher: errors and candidates *)

Lemma tally_sqlite_None (d : db) (groups : list (string * list Z)) (v : votes) :
  tally_sqlite d groups v = None
  <-> Exists (fun k => fromhex k = None) (map fst groups).
Proof.
  revert v. induction groups as [|[k tqs] rest IH]; intros v;
    cbn [tally_sqlite map fst].
  - split; [discriminate | intros H; inversion H].
  - destruct (fromhex k) as [hbin|] eqn:Ek.
    + rewrite IH. split; [now apply Exists_cons_tl|].
      intros H. inversion H as [? ? Hx|? ? Hx]; subst; [congruence | exact Hx].
    + split; [|reflexivity]. intros _. now apply Exists_cons_hd.
Qed.

Lemma fold_groups_keys_of (hashes : list (string * Z)) :
  forall g k,
    In k (map fst g) \/ In k (map fst hashes) ->
    In k (map fst (fold_left group_step hashes g)).
Proof.
  induction hashes as [|[h t] rest IH]; intros g k; cbn [fold_left map fst In].
  - intros [H|[]]. exact H.
  - intros H. apply IH. cbn [group_step]. rewrite group_add_keys.
    intuition.
Qed.

Lemma ranked_sqlite_None (d : db) (hashes : list (string * Z)) :
  ranked_sqlite d hashes = None
  <-> Exists (fun x => fromhex (fst x) = None) hashes.
Proof.
  unfold ranked_sqlite.
  destruct (tally_sqlite d (by_hash hashes) []) as [v|] eqn:E; cbn [option_map].
  - split; [discriminate|]. intros H.
    assert (N : tally_sqlite d (by_hash hashes) [] = None); [|congruence].
    apply tally_sqlite_None. apply Exists_exists in H.
    destruct H as [[h t] [Hin Hh]]. apply Exists_exists. exists h.
    split; [|exact Hh]. rewrite by_hash_fold. apply fold_groups_keys_of.
    right. apply in_map_iff. now exists (h, t).
  - split; [|reflexivity]. intros _.
    apply (proj1 (tally_sqlite_None _ _ _)) in E. apply Exists_exists in E.
    destruct E as [k [Hin Hk]]. rewrite by_hash_fold in Hin.
    apply fold_groups_keys in Hin. destruct Hin as [[]|Hin].
    apply in_map_iff in Hin. destruct Hin as [[h t] [<- Hin]].
    apply Exists_exists. now exists (h, t).
Qed.

Lemma firstn_length_le {A : Type} (n : nat) (l : list A) :
  (List.length (firstn n l) <= n)%nat.
Proof. rewrite length_firstn. lia. Qed.

(** X17: [match_hashes_sqlite] raises exactly when a hash of the query
    is not hexadecimal text (an empty query returns the empty list).
    Otherwise it returns at most [topk] results when [topk >= 0], and
    none when no row of [hashes] has a key of the query. *)
Theorem match_hashes_sqlite_errors
  (hashes : list (string * Z)) (d : db) (topk : Z) :
  (match_hashes_sqlite hashes d topk = None
   <-> Exists (fun x => fromhex (fst x) = None) hashes)
  /\ (forall results,
         match_hashes_sqlite hashes d topk = Some results ->
         (0 <= topk -> Z.of_nat (List.length results) <= topk)
         /\ (events_snippet (rows_of d) hashes = [] -> results = [])).
Proof.
  split.
  - unfold match_hashes_sqlite. destruct hashes as [|q qs].
    + split; [discriminate | intros H; inversion H].
    + rewrite <- (ranked_sqlite_None d (q :: qs)).
      destruct (ranked_sqlite d (q :: qs)); split; intros H;
        try discriminate H; reflexivity.
  - intros results E. unfold match_hashes_sqlite in E.
    destruct hashes as [|q qs].
    { injection E as <-. split; [cbn; lia | reflexivity]. }
    destruct (ranked_sqlite d (q :: qs)) as [scored|] eqn:Er; [|discriminate].
    injection E as <-. rewrite length_map. split.
    + intros Hk. unfold py_prefix. destruct (Z.leb_spec 0 topk) as [_|Hn]; [|lia].
      apply Z.le_trans with (Z.of_nat (Z.to_nat topk)); [|lia].
      apply Nat2Z.inj_le, firstn_length_le.
    + intros HE.
      assert (Hq : forall h t, In (h, t) (q :: qs) ->
                               exists hbin, fromhex h = Some hbin).
      { intros h t Hin. destruct (fromhex h) as [b|] eqn:Eh; [now exists b|].
        assert (N : ranked_sqlite d (q :: qs) = None); [|congruence].
        apply ranked_sqlite_None, Exists_exists. now exists (h, t). }
      rewrite (ranked_sqlite_events d (q :: qs) Hq) in Er. injection Er as <-.
      assert (P : Permutation
                    (events_sqlite (rows_of d) (by_hash (q :: qs))) []).
      { rewrite <- HE. apply by_hash_events. }
      apply Permutation_sym, Permutation_nil in P. rewrite P.
      unfold py_prefix. cbn [tally fold_left score map sort_by_count fold_right].
      now destruct (0 <=? topk); rewrite firstn_nil.
Qed.

Lemma match_hashes_sqlite_errors_witness :
  match_hashes_sqlite [("0a", 0); ("zz", 1)]%string tie_db 1 = None
  /\ match_hashes_sqlite [("0e", 0)]%string tie_db 3 = Some [].
Proof.
  split.
  - apply (proj1 (match_hashes_sqlite_errors
                    [("0a", 0); ("zz", 1)]%string tie_db 1)).
    apply Exists_cons_tl, Exists_cons_hd. reflexivity.
  - destruct (match_hashes_sqlite [("0e", 0)]%string tie_db 3)
      as [results|] eqn:E; [|discriminate E].
    destruct (match_hashes_sqlite_errors [("0e", 0)]%string tie_db 3)
      as [_ H].
    destruct (H results E) as [_ H0]. rewrite (H0 eq_refl). reflexivity.
Defined.

Lemma insert_by_count_perm (x : candidate) (l : list candidate) :
  Permutation (insert_by_count x l) (x :: l).
Proof.
  induction l as [|y l IH]; cbn [insert_by_count]; [reflexivity|].
  destruct (cand_count y <=? cand_count x); [reflexivity|].
  rewrite IH. apply perm_swap.
Qed.

Lemma sort_by_count_perm (l : list candidate) : Permutation (sort_by_count l) l.
Proof.
  induction l as [|x l IH]; cbn [sort_by_count fold_right]; [reflexivity|].
  rewrite insert_by_count_perm. now constructor.
Qed.

Lemma offset_votes_perm (E1 E2 : list event) (s dl : Z) :
  Permutation E1 E2 -> offset_votes E1 s dl = offset_votes E2 s dl.
Proof.
  intros P. unfold offset_votes. now rewrite (filter_length_perm _ _ _ P).
Qed.

Lemma song_hits_perm (E1 E2 : list event) (s : Z) :
  Permutation E1 E2 -> song_hits E1 s = song_hits E2 s.
Proof.
  intros P. unfold song_hits. now rewrite (filter_length_perm _ _ _ P).
Qed.

(** The candidates of the sqlite matcher, in terms of the events of the
    query in its own order. *)
Lemma ranked_sqlite_meaning (hashes : list (string * Z)) (d : db)
  (scored : list candidate) :
  ranked_sqlite d hashes = Some scored ->
  NoDup (map cand_song scored)
  /\ (forall s, In s (map cand_song scored)
                <-> 0 < song_hits (events_snippet (rows_of d) hashes) s)
  /\ (forall x,
         In x scored ->
         cand_count x
         = offset_votes (events_snippet (rows_of d) hashes)
             (cand_song x) (cand_offset x)
         /\ cand_hits x = song_hits (events_snippet (rows_of d) hashes) (cand_song x)
         /\ 1 <= cand_count x <= cand_hits x
         /\ forall dl,
              offset_votes (events_snippet (rows_of d) hashes) (cand_song x) dl
              <= cand_count x)
  /\ StronglySorted by_count scored.
Proof.
  intros Er.
  assert (Hq : forall h t, In (h, t) hashes ->
                           exists hbin, fromhex h = Some hbin).
  { intros h t Hin. destruct (fromhex h) as [b|] eqn:Eh; [now exists b|].
    assert (N : ranked_sqlite d hashes = None); [|congruence].
    apply ranked_sqlite_None, Exists_exists. now exists (h, t). }
  rewrite (ranked_sqlite_events d hashes Hq) in Er. injection Er as <-.
  set (E2 := events_sqlite (rows_of d) (by_hash hashes)).
  set (E1 := events_snippet (rows_of d) hashes).
  assert (P : Permutation E2 E1) by apply by_hash_events.
  pose proof (sort_by_count_perm (score (tally E2 []))) as PS.
  split; [|split; [|split]].
  - apply (Permutation_NoDup (Permutation_sym (Permutation_map cand_song PS))).
    rewrite score_songs, keys_tally. apply seen_order_NoDup. constructor.
  - intros s. rewrite <- (song_hits_perm _ _ s P), <- tally_songs.
    rewrite <- score_songs. split; apply Permutation_in.
    + exact (Permutation_map cand_song PS).
    + exact (Permutation_sym (Permutation_map cand_song PS)).
  - intros x Hx. apply (proj1 (sort_by_count_In _ _)) in Hx.
    destruct (candidate_meaning E2 x Hx) as [H1 [H2 [H3 H4]]].
    rewrite <- (offset_votes_perm _ _ _ _ P), <- (song_hits_perm _ _ _ P).
    repeat split; try lia; try assumption.
    intros dl. rewrite <- (offset_votes_perm _ _ _ _ P). apply H4.
  - apply sort_by_count_sorted.
Qed.

(** ** The order of the candidates *)

Lemma NoDup_map_inj {A : Type} (f : A -> Z) (l : list A) (x y : A) :
  NoDup (map f l) -> In x l -> In y l -> f x = f y -> x = y.
Proof.
  induction l as [|z l IH]; cbn [map]; intros ND Hx Hy E; [contradiction|].
  inversion ND as [|? ? Hz ND']; subst.
  destruct Hx as [<-|Hx], Hy as [<-|Hy]; auto.
  - exfalso. apply Hz. rewrite E. now apply in_map.
  - exfalso. apply Hz. rewrite <- E. now apply in_map.
Qed.

Lemma filter_map_comm {A B : Type} (g : B -> bool) (f : A -> B) (l : list A) :
  filter g (map f l) = map f (filter (fun x => g (f x)) l).
Proof.
  induction l as [|x l IH]; [reflexivity|].
  cbn [map filter]. destruct (g (f x)); cbn [map]; now rewrite IH.
Qed.

(** Of a list with distinct keys, the keys of the elements that a
    filter keeps come in the order of the keys of the list. *)
Lemma kept_in_order {A : Type} (f : A -> Z) (p : A -> bool) (l : list A) :
  NoDup (map f l) ->
  filter (fun s => existsb (Z.eqb s) (map f (filter p l))) (map f l)
  = map f (filter p l).
Proof.
  intros ND. rewrite filter_map_comm. f_equal. apply filter_ext_in.
  intros x Hx. destruct (p x) eqn:Ep.
  - apply existsb_exists. exists (f x). split; [|apply Z.eqb_refl].
    apply in_map, filter_In. now split.
  - destruct (existsb (Z.eqb (f x)) (map f (filter p l))) eqn:Ee;
      [|reflexivity].
    apply existsb_exists in Ee. destruct Ee as [k [Hk Ek]].
    apply Z.eqb_eq in Ek. subst k. apply in_map_iff in Hk.
    destruct Hk as [y [Ey Hy]]. apply filter_In in Hy. destruct Hy as [Hy Py].
    rewrite (NoDup_map_inj f l x y ND Hx Hy (eq_sym Ey)) in Ep. congruence.
Qed.

Lemma first_voted_NoDup (E : list event) : NoDup (first_voted E).
Proof. apply seen_order_NoDup. constructor. Qed.

Lemma score_first_voted (E : list event) :
  map cand_song (score (tally E [])) = first_voted E.
Proof. rewrite score_songs. apply keys_tally. Qed.

(** The songs of the sorted candidates are the songs voted for. *)
Lemma sorted_songs (E : list event) :
  Permutation (map cand_song (sort_by_count (score (tally E []))))
              (first_voted E).
Proof.
  rewrite <- score_first_voted. apply Permutation_map, sort_by_count_perm.
Qed.

(** After the sort, candidates with equal counts are in the order in
    which their songs were first voted for. *)
Lemma ties_in_first_vote_order (E : list event) (c : Z) :
  in_first_vote_order E
    (map cand_song (tied c (sort_by_count (score (tally E []))))).
Proof.
  unfold in_first_vote_order, tied. rewrite sort_by_count_stable.
  rewrite <- score_first_voted. apply kept_in_order.
  rewrite score_first_voted. apply first_voted_NoDup.
Qed.

Lemma sorted_counts (E : list event) :
  Forall
    (fun x =>
       cand_count x = offset_votes E (cand_song x) (cand_offset x)
       /\ forall dl, offset_votes E (cand_song x) dl <= cand_count x)
    (sort_by_count (score (tally E []))).
Proof.
  apply Forall_forall. intros x Hx. apply (proj1 (sort_by_count_In _ _)) in Hx.
  destruct (candidate_meaning E x Hx) as [H1 [_ [_ H4]]]. now split.
Qed.

(** [scored] of [match_hashes_sqlite] is the sorted score of the votes
    on the events of the query. *)
Lemma ranked_sqlite_order (hashes : list (string * Z)) (d : db)
  (scored : list candidate) :
  ranked_sqlite d hashes = Some scored ->
  scored = sort_by_count (score (tally (sqlite_events d hashes) [])).
Proof.
  intros Er.
  assert (Hq : forall h t, In (h, t) hashes ->
                           exists hbin, fromhex h = Some hbin).
  { intros h t Hin. destruct (fromhex h) as [b|] eqn:Eh; [now exists b|].
    assert (N : ranked_sqlite d hashes = None); [|congruence].
    apply ranked_sqlite_None, Exists_exists. now exists (h, t). }
  rewrite (ranked_sqlite_events d hashes Hq) in Er. now injection Er as <-.
Qed.

(** C1, as the code has it.  Both matchers sort their candidates by
    decreasing vote count alone, with a stable sort.  The sorted list
    [scored] holds one candidate for each song voted for, its count the
    largest number of votes of the song at one offset, and candidates
    with equal counts stay in the order in which their songs first
    received a vote: neither [total_hits] nor the song_id breaks a tie.
    [match_hashes_sqlite] returns the first [topk] of [scored], printed;
    [match_snippet] returns at most its first element, a candidate with
    the largest count. *)
Theorem C1_sorted_by_votes_stable :
  (forall hashes d topk results,
      match_hashes_sqlite hashes d topk = Some results ->
      exists scored,
        ranked_sqlite d hashes = Some scored
        /\ results = map (printed d) (py_prefix scored topk)
        /\ StronglySorted by_count scored
        /\ StronglySorted by_votes results
        /\ Permutation (map cand_song scored)
                       (first_voted (sqlite_events d hashes))
        /\ (forall c,
               in_first_vote_order (sqlite_events d hashes)
                 (map cand_song (tied c scored)))
        /\ Forall
             (fun x =>
                cand_count x
                = offset_votes (sqlite_events d hashes) (cand_song x)
                    (cand_offset x)
                /\ forall dl,
                     offset_votes (sqlite_events d hashes) (cand_song x) dl
                     <= cand_count x)
             scored)
  /\ (forall hashes index,
         exists scored,
           match_snippet hashes index
           = match hashes with [] => [] | _ => firstn 1 scored end
           /\ StronglySorted by_count scored
           /\ Permutation (map cand_song scored)
                (first_voted (events_snippet (postings index) hashes))
           /\ (forall c,
                  in_first_vote_order (events_snippet (postings index) hashes)
                    (map cand_song (tied c scored)))
           /\ Forall
                (fun x =>
                   cand_count x
                   = offset_votes (events_snippet (postings index) hashes)
                       (cand_song x) (cand_offset x)
                   /\ forall dl,
                        offset_votes (events_snippet (postings index) hashes)
                          (cand_song x) dl
                        <= cand_count x)
                scored)
  /\ (forall hashes index,
         (List.length (match_snippet hashes index) <= 1)%nat
         /\ forall x y,
              In x (match_snippet hashes index) ->
              In y (score (tally_snippet index hashes)) ->
              cand_count y <= cand_count x)
  /\ (forall l c,
         filter (fun y => cand_count y =? c) (sort_by_count l)
         = filter (fun y => cand_count y =? c) l).
Proof.
  split; [|split; [|split]].
  - intros hashes d topk results Hm.
    assert (Hr : exists scored,
               ranked_sqlite d hashes = Some scored
               /\ results = map (printed d) (py_prefix scored topk)).
    { unfold match_hashes_sqlite in Hm. destruct hashes as [|q qs].
      - injection Hm as <-. exists []. split; [reflexivity|].
        unfold py_prefix. now destruct (0 <=? topk); rewrite firstn_nil.
      - destruct (ranked_sqlite d (q :: qs)) as [scored|]; [|discriminate].
        injection Hm as <-. exists scored. split; reflexivity. }
    destruct Hr as [scored [Er ->]]. exists scored.
    pose proof (ranked_sqlite_order hashes d scored Er) as Es.
    split; [exact Er|]. split; [reflexivity|].
    rewrite Es. split; [apply sort_by_count_sorted|].
    split; [|split; [apply sorted_songs|
                     split; [apply ties_in_first_vote_order|
                             apply sorted_counts]]].
    apply StronglySorted_map with (R := by_count).
    + intros [[[s1 c1] o1] h1] [[[s2 c2] o2] h2].
      unfold by_count, by_votes, cand_count, res_votes, printed.
      destruct (meta_get _ s1), (meta_get _ s2). cbn. auto.
    + apply StronglySorted_prefix, sort_by_count_sorted.
  - intros hashes index.
    exists (sort_by_count
              (score (tally (events_snippet (postings index) hashes) []))).
    split; [|split; [apply sort_by_count_sorted|
                     split; [apply sorted_songs|
                             split; [apply ties_in_first_vote_order|
                                     apply sorted_counts]]]].
    unfold match_snippet. destruct hashes as [|q qs]; [reflexivity|].
    now rewrite tally_snippet_events.
  - intros hashes index. unfold match_snippet.
    destruct hashes as [|q qs]; [simpl; split; [lia | contradiction]|].
    unfold py_prefix. cbn [Z.leb Z.compare Z.to_nat Pos.to_nat].
    change (Z.to_nat 1) with 1%nat.
    pose proof (sort_by_count_sorted (score (tally_snippet index (q :: qs))))
      as Hs.
    split.
    + rewrite length_firstn. lia.
    + intros x y Hx Hy. apply sort_by_count_In in Hy.
      destruct (sort_by_count (score (tally_snippet index (q :: qs))))
        as [|z l]; [contradiction|].
      cbn in Hx. destruct Hx as [<-|[]].
      now apply sorted_head_max with (l := l).
  - exact sort_by_count_stable.
Qed.

Lemma C1_witness :
  exists scored,
    ranked_sqlite
      (mkDb [(3, "a3", "t3")%string]
            [([x01], 5, 0); ([x02], 3, 0); ([x03], 3, 7)])
      [("01", 0); ("02", 0); ("03", 0)]%string
    = Some scored
    /\ [("?", "?", 1, 0, 1); ("a3", "t3", 1, 0, 2)]%string
       = map (printed
                (mkDb [(3, "a3", "t3")%string]
                      [([x01], 5, 0); ([x02], 3, 0); ([x03], 3, 7)]))
             (py_prefix scored 2)
    /\ in_first_vote_order
         (sqlite_events
            (mkDb [(3, "a3", "t3")%string]
                  [([x01], 5, 0); ([x02], 3, 0); ([x03], 3, 7)])
            [("01", 0); ("02", 0); ("03", 0)]%string)
         (map cand_song (tied 1 scored)).
Proof.
  destruct (proj1 C1_sorted_by_votes_stable
              [("01", 0); ("02", 0); ("03", 0)]%string
              (mkDb [(3, "a3", "t3")%string]
                    [([x01], 5, 0); ([x02], 3, 0); ([x03], 3, 7)]) 2
              [("?", "?", 1, 0, 1); ("a3", "t3", 1, 0, 2)]%string)
    as [scored [H1 [H2 [_ [_ [_ [H3 _]]]]]]].
  - reflexivity.
  - exists scored. split; [exact H1|]. split; [exact H2|]. apply H3.
Defined.

(** The documented tie-break fails: song 5 gets one vote out of one hit,
    song 3 one vote out of two hits, and song 5, voted for first, is
    returned first. *)
Lemma C1_counterexample :
  match_hashes_sqlite
    [("01", 0); ("02", 0); ("03", 0)]%string
    (mkDb [(3, "a3", "t3")%string]
          [([x01], 5, 0); ([x02], 3, 0); ([x03], 3, 7)]) 2
  = Some [("?", "?", 1, 0, 1); ("a3", "t3", 1, 0, 2)]%string
  /\ ~ documented_order ("?", "?", 1, 0, 1)%string ("a3", "t3", 1, 0, 2)%string
  /\ ranked_sqlite
       (mkDb [(3, "a3", "t3")%string]
             [([x01], 5, 0); ([x02], 3, 0); ([x03], 3, 7)])
       [("01", 0); ("02", 0); ("03", 0)]%string
     = Some [(5, 1, 0, 1); (3, 1, 0, 2)]
  /\ ~ documented_rank (5, 1, 0, 1) (3, 1, 0, 2)
  /\ ~ (forall hashes d topk results,
           match_hashes_sqlite hashes d topk = Some results ->
           StronglySorted documented_order results).
Proof.
  assert (N : ~ documented_order ("?", "?", 1, 0, 1)%string
                                 ("a3", "t3", 1, 0, 2)%string).
  { unfold documented_order, res_votes, res_hits. cbn. lia. }
  split; [reflexivity | split; [exact N|]].
  split; [reflexivity | split].
  { unfold documented_rank, cand_count, cand_hits, cand_song. cbn. lia. }
  intros H.
  specialize (H [("01", 0); ("02", 0); ("03", 0)]%string
                (mkDb [(3, "a3", "t3")%string]
                      [([x01], 5, 0); ([x02], 3, 0); ([x03], 3, 7)]) 2
                _ eq_refl).
  inversion H as [|? ? _ F]; subst. inversion F; subst. contradiction.
Qed.

(** X18: the candidates ranked by [match_hashes_sqlite] are the songs
    with at least one row under a hash of the query, each once.  A
    candidate's vote count is the number of (query hash, row) pairs of
    its song at the reported offset, the largest such number over the
    offsets of the song, and its total hits is the number of all pairs
    of the song; so [1 <= votes <= total_hits]. *)
Theorem ranked_sqlite_candidates (hashes : list (string * Z)) (d : db)
  (scored : list candidate) :
  ranked_sqlite d hashes = Some scored ->
  let E := events_snippet (rows_of d) hashes in
  NoDup (map cand_song scored)
  /\ (forall s, In s (map cand_song scored) <-> 0 < song_hits E s)
  /\ Forall
       (fun x =>
          cand_count x = offset_votes E (cand_song x) (cand_offset x)
          /\ cand_hits x = song_hits E (cand_song x)
          /\ 1 <= cand_count x <= cand_hits x
          /\ forall dl, offset_votes E (cand_song x) dl <= cand_count x)
       scored.
Proof.
  intros Er E. destruct (ranked_sqlite_meaning hashes d scored Er)
    as [H1 [H2 [H3 _]]].
  split; [exact H1|]. split; [exact H2|].
  apply Forall_forall. exact H3.
Qed.

Lemma ranked_sqlite_candidates_witness :
  ranked_sqlite tie_db tie_query = Some [(1, 2, 5, 5)]
  /\ NoDup [1]
  /\ 0 < song_hits (events_snippet (rows_of tie_db) tie_query) 1.
Proof.
  split; [reflexivity|].
  destruct (ranked_sqlite_candidates tie_query tie_db [(1, 2, 5, 5)] eq_refl)
    as [H1 [H2 _]].
  split; [exact H1|]. apply (proj1 (H2 1)). now left.
Defined.

(** ** A snippet of a stored track *)

Lemma offset_votes_app (E1 E2 : list event) (s dl : Z) :
  offset_votes (E1 ++ E2) s dl = offset_votes E1 s dl + offset_votes E2 s dl.
Proof.
  unfold offset_votes. rewrite filter_app, length_app. lia.
Qed.

Lemma offset_votes_In (E : list event) (s dl : Z) :
  In (s, dl) E -> 1 <= offset_votes E s dl.
Proof.
  unfold offset_votes. induction E as [|e E IH]; [contradiction|].
  intros [->|Hin]; cbn [filter].
  - unfold event_eqb at 1. cbn [fst snd]. rewrite !Z.eqb_refl.
    cbn [andb List.length]. lia.
  - specialize (IH Hin). destruct (event_eqb (s, dl) e); cbn [List.length]; lia.
Qed.

Lemma shifted_offset_votes (P : string -> list (Z * Z)) (sid delta : Z)
  (q : list (string * Z)) :
  (forall h t, In (h, t) q -> In (sid, t + delta) (P h)) ->
  Z.of_nat (List.length q) <= offset_votes (events_snippet P q) sid delta.
Proof.
  induction q as [|[h t] q IH]; intros H.
  - cbn. lia.
  - rewrite events_snippet_cons, offset_votes_app. cbn [List.length].
    assert (1 <= offset_votes (block P h t) sid delta).
    { apply offset_votes_In. unfold block. apply in_map_iff.
      exists (sid, t + delta). split; [f_equal; lia|].
      apply H. now left. }
    assert (Z.of_nat (List.length q)
            <= offset_votes (events_snippet P q) sid delta).
    { apply IH. intros h' t' Hin. apply H. now right. }
    lia.
Qed.

(** The votes of a query met in a stored track. *)
Lemma shifted_snippet_top (d : db) (sid delta : Z)
  (q : list (string * Z)) :
  q <> [] ->
  (forall h t,
      In (h, t) q ->
      exists hbin, fromhex h = Some hbin
                   /\ In (sid, t + delta) (select_hash d hbin)) ->
  exists scored x top,
    ranked_sqlite d q = Some scored
    /\ In x scored /\ cand_song x = sid
    /\ Z.of_nat (List.length q) <= cand_count x
    /\ match_hashes_sqlite q d 1 = Some [printed d top]
    /\ Z.of_nat (List.length q) <= res_votes (printed d top).
Proof.
  intros Hne Hq.
  assert (Hk : forall h t, In (h, t) q -> exists hbin, fromhex h = Some hbin).
  { intros h t Hin. destruct (Hq h t Hin) as [b [E _]]. now exists b. }
  assert (HP : forall h t, In (h, t) q -> In (sid, t + delta) (rows_of d h)).
  { intros h t Hin. destruct (Hq h t Hin) as [b [E Hb]]. unfold rows_of.
    now rewrite E. }
  pose proof (shifted_offset_votes (rows_of d) sid delta q HP) as Hv.
  pose proof (ranked_sqlite_events d q Hk) as Er.
  destruct (ranked_sqlite_meaning q d _ Er) as [_ [Hs [Hm Hsorted]]].
  set (scored := sort_by_count
                   (score (tally (events_sqlite (rows_of d) (by_hash q)) [])))
    in *.
  assert (Hlen : 1 <= Z.of_nat (List.length q)).
  { destruct q; [congruence | cbn [List.length]; lia]. }
  assert (Hin : In sid (map cand_song scored)).
  { apply Hs. pose proof (offset_votes_le_hits (events_snippet (rows_of d) q)
                            sid delta). lia. }
  apply in_map_iff in Hin. destruct Hin as [x [Hx Hin]].
  destruct (Hm x Hin) as [_ [_ [_ Hmax]]]. specialize (Hmax delta).
  rewrite Hx in Hmax.
  destruct scored as [|top rest] eqn:Esc; [contradiction|].
  exists (top :: rest), x, top.
  pose proof (sorted_head_max top rest x Hsorted Hin) as Htop.
  assert (Hr : res_votes (printed d top) = cand_count top).
  { destruct top as [[[s c] o] n]. unfold printed, res_votes, cand_count.
    destruct (meta_get (load_meta d) s). reflexivity. }
  repeat split; try assumption; try lia.
  unfold match_hashes_sqlite. destruct q as [|q0 q']; [congruence|].
  rewrite Er. unfold py_prefix. cbn [Z.leb Z.compare].
  change (Z.to_nat 1) with 1%nat. cbn [firstn map].
  destruct top as [[[s c] o] n]. reflexivity.
Qed.

(** X19: a query whose every hash [(h, t)] has a row of one song at the
    time [t + delta] (the hashes of a stretch of a stored track, met
    [delta] frames into it) gives that song a candidate with at least
    as many votes as the query has hashes, and the top result of
    [match_hashes_sqlite] has at least as many. *)
Theorem shifted_snippet_votes (d : db) (sid delta : Z)
  (q : list (string * Z)) :
  q <> [] ->
  (forall h t,
      In (h, t) q ->
      exists hbin, fromhex h = Some hbin
                   /\ In (sid, t + delta) (select_hash d hbin)) ->
  exists scored x top,
    ranked_sqlite d q = Some scored
    /\ In x scored /\ cand_song x = sid
    /\ Z.of_nat (List.length q) <= cand_count x
    /\ match_hashes_sqlite q d 1 = Some [printed d top]
    /\ Z.of_nat (List.length q) <= res_votes (printed d top).
Proof. exact (shifted_snippet_top d sid delta q). Qed.

Lemma shifted_snippet_votes_witness :
  exists scored x top,
    ranked_sqlite tie_db [("0b", 3); ("0d", -12)]%string = Some scored
    /\ In x scored /\ cand_song x = 1
    /\ 2 <= cand_count x
    /\ match_hashes_sqlite [("0b", 3); ("0d", -12)]%string tie_db 1
       = Some [printed tie_db top]
    /\ 2 <= res_votes (printed tie_db top).
Proof.
  apply (shifted_snippet_votes tie_db 1 17 [("0b", 3); ("0d", -12)]%string).
  - discriminate.
  - intros h t [E|[E|[]]]; injection E as <- <-.
    + exists [x0b]. split; [reflexivity | now left].
    + exists [x0d]. split; [reflexivity | now left].
Defined.

(** ** Builds: what a run does to the database *)

Lemma grown_by_refl (ok : Z -> Prop) (d : db) : grown_by ok d d.
Proof.
  exists [], []. rewrite !app_nil_r. repeat split; constructor.
Qed.

Lemma grown_by_trans (ok : Z -> Prop) (d1 d2 d3 : db) :
  grown_by ok d1 d2 -> grown_by ok d2 d3 -> grown_by ok d1 d3.
Proof.
  intros [s1 [h1 [Es1 [Eh1 [Fs1 Fh1]]]]] [s2 [h2 [Es2 [Eh2 [Fs2 Fh2]]]]].
  exists (s1 ++ s2), (h1 ++ h2). rewrite Es2, Eh2, Es1, Eh1, !app_assoc.
  repeat split; apply Forall_app; auto.
Qed.

Lemma grown_by_impl (ok ok' : Z -> Prop) (d d' : db) :
  (forall x, ok x -> ok' x) -> grown_by ok d d' -> grown_by ok' d d'.
Proof.
  intros H [s [h [Es [Eh [Fs Fh]]]]]. exists s, h.
  repeat split; auto; eapply Forall_impl; try eassumption; cbv beta; auto.
Qed.

Lemma song_exists_false (c : conn) (sid : Z) :
  song_exists c sid = false <-> no_song_row (working c) sid.
Proof.
  unfold song_exists, no_song_row. split.
  - intros H r Hin E.
    assert (T : existsb (fun r => row_song_id r =? sid) (songs (working c))
                = true); [|congruence].
    apply existsb_exists. exists r. split; [exact Hin | now apply Z.eqb_eq].
  - intros H. destruct (existsb _ _) eqn:E; [|reflexivity].
    apply existsb_exists in E. destruct E as [r [Hin E]].
    apply Z.eqb_eq in E. now destruct (H r Hin).
Qed.

Lemma add_song_new (c : conn) (sid : Z) (artist title : string) :
  song_exists c sid = false ->
  working (add_song c sid artist title)
  = mkDb (songs (working c) ++ [(sid, artist, title)]) (hashes (working c)).
Proof.
  intros H. unfold add_song. cbn [working]. f_equal. f_equal.
  apply filter_all. intros r Hr. apply negb_true_iff, Z.eqb_neq.
  apply (proj1 (song_exists_false c sid) H r Hr).
Qed.

Lemma hash_rows_song (sid : Z) (hl : list (string * Z)) (rows : list hash_row) :
  hash_rows sid hl = Some rows -> Forall (fun r => hash_song_id r = sid) rows.
Proof.
  revert rows. induction hl as [|[h t] hl IH]; intros rows E;
    cbn [hash_rows] in E.
  - injection E as <-. constructor.
  - destruct (fromhex h); [|discriminate].
    destruct (hash_rows sid hl) as [rows'|]; [|discriminate].
    injection E as <-. constructor; [reflexivity | now apply IH].
Qed.

Lemma init_db_raises (d : db) : init_db d = Raised OperationalError.
Proof. reflexivity. Qed.

(** A connection that [init_db] returns has nothing uncommitted: this
    does not depend on which of its statements are accepted. *)
Lemma init_db_conn (d : db) (c : conn) :
  init_db d = Returned c -> c = mkConn d d.
Proof.
  unfold init_db.
  repeat match goal with
         | |- context [and_then (execute ?q) _] =>
             generalize (execute q); intros [[]|e]; cbn [and_then];
             [|discriminate]
         end.
  intros E. injection E as <-. reflexivity.
Qed.

Lemma Forall_firstn {A : Type} (P : A -> Prop) (n : nat) (l : list A) :
  Forall P l -> Forall P (firstn n l).
Proof.
  intros F. apply Forall_forall. intros x Hx. rewrite Forall_forall in F.
  apply F. eapply In_firstn, Hx.
Qed.

Section BuildRuns.

Variable fingerprint_track : item -> outcome (list (string * Z)).
Variable faulty : nat -> store_call -> bool.

(** The connection after the [try] statement of an item: untouched, or
    left after [add_song], or after [add_hashes] has inserted some rows
    of the song, or after [commit]. *)
Lemma try_index_item_conn (i : nat) (it : item) (s : session) :
  let c := s_conn s in
  let c1 := add_song c (item_song_id it) (item_artist it) (item_title it) in
  let c' := s_conn (snd (try_index_item fingerprint_track faulty i it s)) in
  c' = c \/ c' = c1
  \/ exists p,
       Forall (fun r => hash_song_id r = item_song_id it) p
       /\ (c' = add_rows c1 p \/ c' = commit (add_rows c1 p)).
Proof.
  cbn zeta. unfold try_index_item, try_except, index_item, bind.
  destruct (fingerprint_track it) as [[|h hs]|e]; [now left| |now left].
  unfold add_song_io, add_hashes_io, commit_io, bind, bind_int, sql, print.
  destruct (int64 (item_song_id it)); [|now left].
  destruct (faulty i InsertSong); [now left|].
  cbn [s_conn s_log]. unfold add_hashes_run.
  destruct (hash_rows (item_song_id it) (h :: hs)) as [rows|] eqn:R;
    [|right; now left].
  cbn zeta.
  set (c1 := add_song (s_conn s) (item_song_id it) (item_artist it)
               (item_title it)).
  destruct (executemany_prefix (fun k => faulty i (InsertHashes k)) rows 0%nat
              (hashes (working c1))) as [n E].
  destruct (executemany (fun k => faulty i (InsertHashes k)) 0 rows
              (hashes (working c1))) as [r table].
  cbn [snd] in E. subst table. right. right. exists (firstn n rows).
  split; [apply Forall_firstn; exact (hash_rows_song _ _ _ R)|].
  destruct r as [e|]; [left; reflexivity|].
  cbn [s_conn s_log]. destruct (faulty i Commit); [left | right]; reflexivity.
Qed.

Lemma build_item_conn (i : nat) (it : item) (s : session) :
  let c := s_conn s in
  let c' := s_conn (snd (build_item fingerprint_track faulty i it s)) in
  c' = c
  \/ (song_exists c (item_song_id it) = false
      /\ exists s',
           s_conn s' = c
           /\ c' = s_conn (snd (try_index_item fingerprint_track faulty i it s'))).
Proof.
  cbn zeta. unfold build_item, song_exists_io, bind, bind_int, sql.
  destruct (int64 (item_song_id it)); [|now left].
  destruct (faulty i SelectSong); [now left|].
  cbn [s_conn s_log].
  destruct (song_exists (s_conn s) (item_song_id it)) eqn:E; [now left|].
  right. split; [reflexivity|]. cbn [print s_conn s_log].
  eexists. split; [|reflexivity]. reflexivity.
Qed.

(** A property of the connection that every item keeps is kept by the
    loop. *)
Lemma build_loop_keeps (I : conn -> Prop) (items : list item) :
  (forall i it s,
      In it items -> I (s_conn s) ->
      I (s_conn (snd (build_item fingerprint_track faulty i it s)))) ->
  forall i s,
    I (s_conn s) ->
    I (s_conn (snd (build_loop fingerprint_track faulty i items s))).
Proof.
  induction items as [|it rest IH]; intros Hstep i s Hs; [exact Hs|].
  cbn [build_loop]. unfold bind.
  pose proof (Hstep i it s (or_introl eq_refl) Hs) as H1.
  destruct (build_item fingerprint_track faulty i it s) as [[[]|e] s1].
  - apply IH; [|exact H1]. intros j it' s' Hin. apply Hstep. now right.
  - exact H1.
Qed.

Lemma build_inv_commit (items : list item) (d : db) (c : conn) :
  build_inv items d c -> build_inv items d (commit c).
Proof.
  intros [H1 H2]. split; cbn [commit committed working].
  - eapply grown_by_trans; eassumption.
  - apply grown_by_refl.
Qed.

Lemma grown_songs_exist (ok : Z -> Prop) (d d' : db) (sid : Z) :
  grown_by ok d d' -> no_song_row d' sid -> no_song_row d sid.
Proof.
  intros [ns [nh [Es _]]] H r Hr. apply H. rewrite Es. apply in_or_app.
  now left.
Qed.

Lemma build_inv_new (items : list item) (d : db) (c : conn) (it : item) :
  In it items -> song_exists c (item_song_id it) = false ->
  build_inv items d c -> new_song items d (item_song_id it).
Proof.
  intros Hin He [H1 H2]. split; [now apply in_map|].
  apply song_exists_false. cbn [working].
  apply (grown_songs_exist _ _ _ _ H1), (grown_songs_exist _ _ _ _ H2).
  now apply song_exists_false.
Qed.

Lemma build_inv_add_song (items : list item) (d : db) (c : conn) (it : item) :
  In it items -> song_exists c (item_song_id it) = false ->
  build_inv items d c ->
  build_inv items d
    (add_song c (item_song_id it) (item_artist it) (item_title it)).
Proof.
  intros Hin He Hc. pose proof (build_inv_new items d c it Hin He Hc) as N.
  destruct Hc as [H1 H2]. split; [exact H1|].
  eapply grown_by_trans; [exact H2|].
  rewrite (add_song_new _ _ _ _ He).
  exists [(item_song_id it, item_artist it, item_title it)], [].
  cbn [songs hashes]. rewrite app_nil_r.
  repeat split; constructor; [exact N | constructor].
Qed.

Lemma build_inv_add_rows (items : list item) (d : db) (c : conn)
  (it : item) (p : list hash_row) :
  In it items -> song_exists c (item_song_id it) = false ->
  build_inv items d c ->
  Forall (fun r => hash_song_id r = item_song_id it) p ->
  build_inv items d
    (add_rows (add_song c (item_song_id it) (item_artist it) (item_title it))
              p).
Proof.
  intros Hin He Hc F. pose proof (build_inv_new items d c it Hin He Hc) as N.
  pose proof (build_inv_add_song items d c it Hin He Hc) as [H1 H2].
  split; [exact H1|]. unfold add_rows. cbn [committed working].
  eapply grown_by_trans; [exact H2|].
  exists [], p. cbn [songs hashes]. rewrite app_nil_r.
  repeat split; [constructor|].
  eapply Forall_impl; [|exact F]. cbv beta. now intros r ->.
Qed.

Lemma build_item_inv (items : list item) (d : db) (i : nat) (it : item)
  (s : session) :
  In it items -> build_inv items d (s_conn s) ->
  build_inv items d (s_conn (snd (build_item fingerprint_track faulty i it s))).
Proof.
  intros Hin Hs.
  destruct (build_item_conn i it s) as [->|[He [s' [Es ->]]]]; [exact Hs|].
  destruct (try_index_item_conn i it s')
    as [->|[->|[p [F [->| ->]]]]]; rewrite ?Es in *.
  - exact Hs.
  - now apply build_inv_add_song.
  - now apply build_inv_add_rows.
  - apply build_inv_commit. now apply build_inv_add_rows.
Qed.

Lemma build_loop_inv (items : list item) (d : db) (i : nat) (s : session) :
  build_inv items d (s_conn s) ->
  build_inv items d
    (s_conn (snd (build_loop fingerprint_track faulty i items s))).
Proof.
  apply (build_loop_keeps (build_inv items d) items).
  intros j it s' Hin. now apply build_item_inv.
Qed.

End BuildRuns.

(** X21: a build never removes or changes a row, whatever fails on the
    way: the tables it leaves are those it found followed by new rows,
    and every new row, of [songs] or of [hashes], carries the song_id of
    an item of the manifest that had no row in [songs]. *)
Theorem build_only_appends
  (fingerprint_track : item -> outcome (list (string * Z)))
  (faulty : nat -> store_call -> bool) (items : list item) (d : db) :
  grown_by (new_song items d) d
    (snd (fst (build_fingerprint_db_from_json fingerprint_track faulty items d))).
Proof.
  unfold build_fingerprint_db_from_json.
  destruct (init_db d) as [c|e] eqn:E; [|apply grown_by_refl].
  apply init_db_conn in E. subst c.
  unfold build_body, close. cbn [fst snd].
  apply (build_loop_inv fingerprint_track faulty items d 1
           (mkSession (mkConn d d) [])).
  split; apply grown_by_refl.
Qed.

Section SkippedRuns.

Variable fingerprint_track : item -> outcome (list (string * Z)).
Variable faulty : nat -> store_call -> bool.
Variable d : db.

Lemma build_item_present (i : nat) (it : item) (s : session) :
  s_conn s = mkConn d d ->
  song_exists (mkConn d d) (item_song_id it) = true ->
  s_conn (snd (build_item fingerprint_track faulty i it s)) = mkConn d d.
Proof.
  intros Es He.
  destruct (build_item_conn fingerprint_track faulty i it s)
    as [->|[Hf _]]; [exact Es|].
  rewrite Es in Hf. congruence.
Qed.

Lemma build_loop_present (items : list item) (i : nat) (s : session) :
  Forall (fun it => song_exists (mkConn d d) (item_song_id it) = true) items ->
  s_conn s = mkConn d d ->
  s_conn (snd (build_loop fingerprint_track faulty i items s)) = mkConn d d.
Proof.
  intros F. apply (build_loop_keeps fingerprint_track faulty
                     (fun c => c = mkConn d d) items).
  intros j it s' Hin Es. apply build_item_present; [exact Es|].
  rewrite Forall_forall in F. now apply F.
Qed.

Lemma build_loop_skips (items : list item) :
  (forall i, faulty i SelectSong = false) -> ids_fit items ->
  Forall (fun it => song_exists (mkConn d d) (item_song_id it) = true) items ->
  forall i log,
    build_loop fingerprint_track faulty i items (mkSession (mkConn d d) log)
    = (Returned tt,
       mkSession (mkConn d d)
         (log ++ map (fun i => (i, SKIP)) (seq i (List.length items)))).
Proof.
  intros Hf Hi F. induction F as [|it rest He F IH]; intros i log.
  - cbn. now rewrite app_nil_r.
  - inversion Hi as [|? ? Hit Hrest]; subst.
    rewrite build_loop_next by (try apply Hf; exact Hit).
    assert (E : build_item fingerprint_track faulty i it
                  (mkSession (mkConn d d) log)
                = (Returned tt, mkSession (mkConn d d) (log ++ [(i, SKIP)]))).
    { unfold build_item. unfold bind at 1.
      rewrite song_exists_io_ok by (try apply Hf; exact Hit).
      cbn [s_conn s_log]. rewrite He. reflexivity. }
    rewrite E. cbn [snd]. rewrite (IH Hrest). cbn [List.length seq map].
    now rewrite <- app_assoc.
Qed.

End SkippedRuns.

(** X22: the loop of a build, on a connection to a database that holds
    all the songs of the manifest already, leaves the database as it
    is, whatever fails; when no [SELECT] fails and the song_ids fit
    SQLite's integers it ends normally after printing one SKIP line for
    each item, and nothing is streamed. *)
Theorem build_of_present_songs
  (fingerprint_track : item -> outcome (list (string * Z)))
  (faulty : nat -> store_call -> bool) (items : list item) (d : db) :
  Forall (fun it => song_exists (mkConn d d) (item_song_id it) = true) items ->
  snd (fst (build_body fingerprint_track faulty items (mkConn d d))) = d
  /\ ((forall i, faulty i SelectSong = false) -> ids_fit items ->
      build_body fingerprint_track faulty items (mkConn d d)
      = (Returned tt, d, skipped (List.length items))).
Proof.
  intros F. unfold build_body, close. split.
  - cbn [fst snd].
    now rewrite (build_loop_present fingerprint_track faulty d items 1
                   (mkSession (mkConn d d) []) F eq_refl).
  - intros Hf Hi.
    now rewrite (build_loop_skips fingerprint_track faulty d items Hf Hi F 1 []).
Qed.

Lemma build_of_present_songs_witness :
  let d := mkDb [(1, "a", "b"); (2, "c", "d")]%string [([x0a], 1, 1)] in
  build_body one_hash (fun _ _ => false) two_songs (mkConn d d)
  = (Returned tt, d, [(1%nat, SKIP); (2%nat, SKIP)]).
Proof.
  intros d.
  apply (proj2 (build_of_present_songs one_hash (fun _ _ => false) two_songs d
                  ltac:(repeat constructor))).
  - reflexivity.
  - repeat constructor.
Defined.

(** ** Rebuilds: the rows of the other songs *)

Lemma filter_others_delete {A : Type} (key : A -> Z) (ids : list Z) (sid : Z)
  (l : list A) :
  existsb (Z.eqb sid) ids = true ->
  filter (fun r => negb (existsb (Z.eqb (key r)) ids))
         (filter (fun r => negb (key r =? sid)) l)
  = filter (fun r => negb (existsb (Z.eqb (key r)) ids)) l.
Proof.
  intros W. induction l as [|r l IH]; [reflexivity|].
  cbn [filter]. destruct (Z.eqb_spec (key r) sid) as [E|E]; cbn [negb filter].
  - rewrite E, W. cbn [negb]. exact IH.
  - now rewrite IH.
Qed.

Lemma filter_others_add {A : Type} (key : A -> Z) (ids : list Z) (sid : Z)
  (l new : list A) :
  existsb (Z.eqb sid) ids = true ->
  Forall (fun r => key r = sid) new ->
  filter (fun r => negb (existsb (Z.eqb (key r)) ids)) (l ++ new)
  = filter (fun r => negb (existsb (Z.eqb (key r)) ids)) l.
Proof.
  intros W F. rewrite filter_app, (filter_none _ new); [apply app_nil_r|].
  intros r Hr. rewrite Forall_forall in F. rewrite (F r Hr), W. reflexivity.
Qed.

Lemma rebuild_inv_commit (ids : list Z) (d : db) (c : conn) :
  rebuild_inv ids d c -> rebuild_inv ids d (commit c).
Proof. intros [H _]. split; exact H. Qed.

Lemma rebuild_inv_delete_hashes (ids : list Z) (d : db) (c : conn) (sid : Z) :
  existsb (Z.eqb sid) ids = true ->
  rebuild_inv ids d c -> rebuild_inv ids d (delete_hashes_of sid c).
Proof.
  intros W [[H1 H2] H]. split; [|exact H]. split; [exact H1|].
  rewrite <- H2. unfold other_hashes, delete_hashes_of. cbn [working hashes].
  now apply filter_others_delete.
Qed.

Lemma rebuild_inv_delete_songs (ids : list Z) (d : db) (c : conn) (sid : Z) :
  existsb (Z.eqb sid) ids = true ->
  rebuild_inv ids d c -> rebuild_inv ids d (delete_songs_of sid c).
Proof.
  intros W [[H1 H2] H]. split; [|exact H]. split; [|exact H2].
  rewrite <- H1. unfold other_songs, delete_songs_of. cbn [working songs].
  now apply filter_others_delete.
Qed.

Lemma rebuild_inv_add_song (ids : list Z) (d : db) (c : conn) (sid : Z)
  (artist title : string) :
  existsb (Z.eqb sid) ids = true ->
  rebuild_inv ids d c -> rebuild_inv ids d (add_song c sid artist title).
Proof.
  intros W [[H1 H2] H]. split; [|exact H]. split; [|exact H2].
  rewrite <- H1. unfold other_songs, add_song. cbn [working songs].
  rewrite (filter_others_add row_song_id ids sid).
  - now apply filter_others_delete.
  - exact W.
  - repeat constructor.
Qed.

Lemma rebuild_inv_add_rows (ids : list Z) (d : db) (c : conn) (sid : Z)
  (p : list hash_row) :
  existsb (Z.eqb sid) ids = true ->
  rebuild_inv ids d c -> Forall (fun r => hash_song_id r = sid) p ->
  rebuild_inv ids d (add_rows c p).
Proof.
  intros W [[H1 H2] H] F. split; [|exact H]. split; [exact H1|].
  rewrite <- H2. unfold other_hashes, add_rows. cbn [working hashes].
  now apply (filter_others_add hash_song_id ids sid).
Qed.

Section RebuildRuns.

Variable fingerprint_track : item -> outcome (list (string * Z)).
Variable faulty : nat -> store_call -> bool.

Lemma try_index_item_others (ids : list Z) (d : db) (i : nat) (it : item)
  (s : session) :
  existsb (Z.eqb (item_song_id it)) ids = true ->
  rebuild_inv ids d (s_conn s) ->
  rebuild_inv ids d
    (s_conn (snd (try_index_item fingerprint_track faulty i it s))).
Proof.
  intros W Hs.
  destruct (try_index_item_conn fingerprint_track faulty i it s)
    as [->|[->|[p [F [->| ->]]]]].
  - exact Hs.
  - now apply rebuild_inv_add_song.
  - eapply rebuild_inv_add_rows; [exact W| |exact F].
    now apply rebuild_inv_add_song.
  - apply rebuild_inv_commit.
    eapply rebuild_inv_add_rows; [exact W| |exact F].
    now apply rebuild_inv_add_song.
Qed.

(** The connection after the statements of an item that come before the
    [try]: untouched, or left in the course of [delete_song]. *)
Lemma rebuild_item_conn (force : bool) (i : nat) (it : item) (s : session) :
  let c := s_conn s in
  let c' :=
    s_conn (snd (rebuild_item fingerprint_track faulty force i it s)) in
  exists c0,
    (c0 = c
     \/ c0 = delete_hashes_of (item_song_id it) c
     \/ c0 = delete_songs_of (item_song_id it)
               (delete_hashes_of (item_song_id it) c)
     \/ c0 = commit (delete_songs_of (item_song_id it)
                       (delete_hashes_of (item_song_id it) c)))
    /\ (c' = c0
        \/ exists s',
             s_conn s' = c0
             /\ c' = s_conn
                       (snd (try_index_item fingerprint_track faulty i it s'))).
Proof.
  cbn zeta.
  unfold rebuild_item, delete_song_io, commit_io, song_exists_io.
  unfold bind, bind_int, sql, print.
  repeat (cbn [s_conn s_log snd fst];
          match goal with
          | |- context [if ?b then _ else _] => destruct b
          end);
    cbn [s_conn s_log snd fst];
    (eexists; split;
     [|first [ right; eexists; split; [|reflexivity]; reflexivity
             | left; reflexivity ]]);
    cbn [s_conn]; auto.
Qed.

Lemma rebuild_item_others (ids : list Z) (d : db) (force : bool) (i : nat)
  (it : item) (s : session) :
  existsb (Z.eqb (item_song_id it)) ids = true ->
  rebuild_inv ids d (s_conn s) ->
  rebuild_inv ids d
    (s_conn (snd (rebuild_item fingerprint_track faulty force i it s))).
Proof.
  intros W Hs.
  destruct (rebuild_item_conn force i it s) as [c0 [H0 H1]].
  assert (I0 : rebuild_inv ids d c0).
  { destruct H0 as [->|[->|[->| ->]]]; auto using rebuild_inv_commit,
      rebuild_inv_delete_hashes, rebuild_inv_delete_songs. }
  destruct H1 as [->|[s' [Es ->]]]; [exact I0|].
  apply try_index_item_others; [exact W|]. now rewrite Es.
Qed.

Lemma rebuild_loop_keeps (I : conn -> Prop) (force : bool) (items : list item) :
  (forall i it s,
      In it items -> I (s_conn s) ->
      I (s_conn (snd (rebuild_item fingerprint_track faulty force i it s)))) ->
  forall i s,
    I (s_conn s) ->
    I (s_conn (snd (rebuild_loop fingerprint_track faulty force i items s))).
Proof.
  induction items as [|it rest IH]; intros Hstep i s Hs; [exact Hs|].
  cbn [rebuild_loop]. unfold bind.
  pose proof (Hstep i it s (or_introl eq_refl) Hs) as H1.
  destruct (rebuild_item fingerprint_track faulty force i it s) as [[[]|e] s1].
  - apply IH; [|exact H1]. intros j it' s' Hin. apply Hstep. now right.
  - exact H1.
Qed.

(** The loop of a rebuild, on any connection, keeps the rows of the
    songs that are not rebuilt. *)
Lemma rebuild_body_others (ids : list Z) (force : bool) (items : list item)
  (d : db) :
  Forall (fun it => existsb (Z.eqb (item_song_id it)) ids = true) items ->
  rebuild_inv ids d
    (s_conn (snd (rebuild_loop fingerprint_track faulty force 1 items
                    (mkSession (mkConn d d) [])))).
Proof.
  intros W. apply (rebuild_loop_keeps (rebuild_inv ids d) force items).
  - intros i it s Hin. apply rebuild_item_others.
    rewrite Forall_forall in W. now apply W.
  - repeat split.
Qed.

End RebuildRuns.

(** X23: a rebuild of the song_ids [ids], forced or not and whatever
    fails on the way, leaves the rows of every other song as they were,
    in [songs] and in [hashes], in the same order. *)
Theorem rebuild_leaves_other_songs
  (fingerprint_track : item -> outcome (list (string * Z)))
  (faulty : nat -> store_call -> bool) (items : list item) (d : db)
  (ids : list Z) (force : bool) :
  other_songs ids
    (snd (fst (rebuild_specific_ids fingerprint_track faulty items d ids force)))
  = other_songs ids d
  /\ other_hashes ids
       (snd (fst (rebuild_specific_ids fingerprint_track faulty items d ids
                    force)))
     = other_hashes ids d.
Proof.
  unfold rebuild_specific_ids.
  pose proof (rebuild_body_others fingerprint_track faulty ids force
                (filter (fun it => existsb (Z.eqb (item_song_id it)) ids) items)
                d) as H.
  destruct (filter (fun it => existsb (Z.eqb (item_song_id it)) ids) items)
    as [|it0 rest] eqn:Ew; [cbn; auto|].
  destruct (init_db d) as [c|e] eqn:E; [|cbn; auto].
  apply init_db_conn in E. subst c.
  unfold rebuild_body, close. cbn [fst snd]. apply H.
  rewrite <- Ew. apply Forall_forall. intros it Hin.
  apply filter_In in Hin. tauto.
Qed.

(** ** Builds without failures *)

Lemma select_hash_grown (ok : Z -> Prop) (d d' : db) (hbin : list byte)
  (p : Z * Z) :
  grown_by ok d d' -> In p (select_hash d hbin) -> In p (select_hash d' hbin).
Proof.
  intros [ns [nh [_ [Eh _]]]]. unfold select_hash. rewrite Eh.
  rewrite filter_app, map_app. intros H. apply in_or_app. now left.
Qed.

Lemma postings_of_In (sid : Z) (hl : list (string * Z)) (h : string) (t : Z)
  (hbin : list byte) :
  In (h, t) hl -> fromhex h = Some hbin -> In (sid, t) (postings_of sid hl hbin).
Proof.
  intros Hin Hh. unfold postings_of. apply in_map_iff. exists (h, t).
  split; [reflexivity|]. apply filter_In. split; [exact Hin|].
  cbn [fst]. rewrite Hh. now apply bytes_eqb_eq.
Qed.

Lemma storable_rows (sid : Z) (hl : list (string * Z)) :
  int64 sid = true -> storable hl ->
  exists rows,
    hash_rows sid hl = Some rows /\ Forall (fun r => fits r = true) rows.
Proof.
  intros Hs F.
  destruct (hash_rows sid hl) as [rows|] eqn:R.
  - exists rows. split; [reflexivity|]. apply (hash_rows_fit _ _ _ R).
    eapply Forall_impl; [|exact F]. cbv beta. intros x [_ Hx].
    now rewrite Hs, Hx.
  - apply hash_rows_None, Exists_exists in R. destruct R as [x [Hx E]].
    unfold storable in F. rewrite Forall_forall in F.
    now destruct (proj1 (F x Hx)).
Qed.

Section StoredRuns.

Variable fingerprint_track : item -> outcome (list (string * Z)).
Variable faulty : nat -> store_call -> bool.
Hypothesis no_fault : fault_free faulty.

Lemma build_loop_returns (items : list item) (i : nat) (s : session) :
  ids_fit items ->
  fst (build_loop fingerprint_track faulty i items s) = Returned tt.
Proof.
  intros F. revert i s. induction F as [|it rest Hit F IH]; intros i s;
    [reflexivity|].
  rewrite build_loop_next by (try apply no_fault; exact Hit). apply IH.
Qed.

Lemma build_loop_app (pre post : list item) (i : nat) (s : session) :
  ids_fit pre ->
  build_loop fingerprint_track faulty i (pre ++ post) s
  = build_loop fingerprint_track faulty (i + List.length pre) post
      (snd (build_loop fingerprint_track faulty i pre s)).
Proof.
  intros F. revert i s. induction F as [|it pre Hit F IH]; intros i s;
    cbn [app List.length].
  - cbn [build_loop ret snd]. now rewrite Nat.add_0_r.
  - rewrite !build_loop_next by (try apply no_fault; exact Hit). rewrite IH.
    now rewrite Nat.add_succ_comm.
Qed.

(** An item that is not in the database and whose track gives hashes
    that can be stored is stored and committed. *)
Lemma build_item_stores (i : nat) (it : item) (s : session)
  (hl : list (string * Z)) (rows : list hash_row) :
  int64 (item_song_id it) = true ->
  song_exists (s_conn s) (item_song_id it) = false ->
  fingerprint_track it = Returned hl -> hl <> [] ->
  hash_rows (item_song_id it) hl = Some rows ->
  Forall (fun r => fits r = true) rows ->
  s_conn (snd (build_item fingerprint_track faulty i it s))
  = commit
      (add_rows
         (add_song (s_conn s) (item_song_id it) (item_artist it)
            (item_title it))
         rows).
Proof.
  intros Hi He Hf Hne R Hfit.
  unfold build_item. unfold bind at 1.
  rewrite song_exists_io_ok by (try apply no_fault; exact Hi). rewrite He.
  unfold bind. cbn [print s_conn s_log].
  unfold try_index_item, try_except, index_item, bind. rewrite Hf.
  destruct hl as [|h hs]; [congruence|].
  unfold add_song_io, add_hashes_io, commit_io, bind, bind_int, sql, print.
  rewrite Hi, !no_fault. cbn [s_conn s_log].
  unfold add_hashes_run. rewrite R. cbn zeta.
  rewrite (executemany_ok _ rows (fun k => no_fault i (InsertHashes k)) Hfit).
  cbn [s_conn s_log]. rewrite ?no_fault. reflexivity.
Qed.

Lemma build_stores (items : list item) (d : db) (it : item)
  (hl : list (string * Z)) :
  NoDup (map item_song_id items) -> ids_fit items -> In it items ->
  song_exists (mkConn d d) (item_song_id it) = false ->
  fingerprint_track it = Returned hl -> hl <> [] -> storable hl ->
  let d' :=
    snd (fst (build_body fingerprint_track faulty items (mkConn d d))) in
  In (item_song_id it, item_artist it, item_title it) (songs d')
  /\ forall h t hbin,
       In (h, t) hl -> fromhex h = Some hbin ->
       In (item_song_id it, t) (select_hash d' hbin).
Proof.
  intros ND Hfit Hin Hd Hf Hne Hst. cbn zeta.
  apply in_split in Hin. destruct Hin as [pre [post ->]].
  unfold ids_fit in Hfit. apply Forall_app in Hfit.
  destruct Hfit as [Fpre Fpost]. inversion Fpost as [|? ? Hit Fpost']; subst.
  unfold build_body, close. cbn [fst snd].
  rewrite build_loop_app by exact Fpre.
  set (s1 := snd (build_loop fingerprint_track faulty 1 pre
                    (mkSession (mkConn d d) []))).
  assert (I1 : build_inv pre d (s_conn s1)).
  { apply build_loop_inv. split; apply grown_by_refl. }
  rewrite map_app in ND. cbn [map] in ND.
  assert (He : song_exists (s_conn s1) (item_song_id it) = false).
  { apply song_exists_false. intros r Hr E.
    destruct I1 as [[ns1 [nh1 [Es1 [_ [Fs1 _]]]]] [ns2 [nh2 [Es2 [_ [Fs2 _]]]]]].
    rewrite Es2, Es1 in Hr. rewrite Forall_forall in Fs1, Fs2.
    apply NoDup_remove_2 in ND.
    apply in_app_or in Hr. destruct Hr as [Hr|Hr];
      [apply in_app_or in Hr; destruct Hr as [Hr|Hr]|].
    - apply (proj1 (song_exists_false (mkConn d d) _) Hd r Hr E).
    - apply ND, in_or_app. left. rewrite <- E. exact (proj1 (Fs1 r Hr)).
    - apply ND, in_or_app. left. rewrite <- E. exact (proj1 (Fs2 r Hr)). }
  destruct (storable_rows (item_song_id it) hl Hit Hst) as [rows [R Frows]].
  set (c1 := add_song (s_conn s1) (item_song_id it) (item_artist it)
               (item_title it)).
  rewrite build_loop_next by (try apply no_fault; exact Hit).
  pose proof (build_item_stores (1 + List.length pre) it s1 hl rows Hit He Hf
                Hne R Frows) as E2.
  fold c1 in E2.
  set (s2 := snd (build_item fingerprint_track faulty (1 + List.length pre)
                    it s1)) in *.
  assert (I2 : build_inv post (working (add_rows c1 rows)) (s_conn s2)).
  { rewrite E2. split; apply grown_by_refl. }
  pose proof (build_loop_inv fingerprint_track faulty post
                (working (add_rows c1 rows))
                (S (1 + List.length pre)) s2 I2) as [G _].
  split.
  - destruct G as [ns [nh [Es _]]]. rewrite Es. apply in_or_app. left.
    unfold add_rows, c1, add_song. cbn [working songs]. apply in_or_app. right.
    now left.
  - intros h t hbin Hin Hh. apply (select_hash_grown _ _ _ _ _ G).
    unfold select_hash, add_rows. cbn [working hashes].
    rewrite filter_app, map_app. apply in_or_app. right.
    pose proof (postings_of_In (item_song_id it) hl h t hbin Hin Hh) as Y.
    rewrite <- (hash_rows_select _ _ _ hbin R) in Y. exact Y.
Qed.

End StoredRuns.

(** X24: the loop of a build on an open connection, when no statement
    fails and the song_ids of the manifest are distinct and fit
    SQLite's integers, ends normally, and every item that has no row
    in [songs] and whose track gives hashes (not none, all with
    hexadecimal keys and times that fit SQLite's integers) is in the
    database afterwards: its row is in [songs] with its artist and
    title, and each of its hashes is selected under its binary key with
    its song_id and time; the failure of any other item does not
    matter. *)
Theorem build_stores_new_songs
  (fingerprint_track : item -> outcome (list (string * Z)))
  (faulty : nat -> store_call -> bool) (items : list item) (d : db)
  (it : item) (hl : list (string * Z)) :
  fault_free faulty ->
  NoDup (map item_song_id items) -> ids_fit items -> In it items ->
  song_exists (mkConn d d) (item_song_id it) = false ->
  fingerprint_track it = Returned hl -> hl <> [] -> storable hl ->
  fst (fst (build_body fingerprint_track faulty items (mkConn d d)))
  = Returned tt
  /\ In (item_song_id it, item_artist it, item_title it)
        (songs (snd (fst (build_body fingerprint_track faulty items
                            (mkConn d d)))))
  /\ forall h t hbin,
       In (h, t) hl -> fromhex h = Some hbin ->
       In (item_song_id it, t)
          (select_hash
             (snd (fst (build_body fingerprint_track faulty items
                          (mkConn d d))))
             hbin).
Proof.
  intros Hff ND Hfit Hin Hd Hf Hne Hst. split.
  - unfold build_body, close. cbn [fst].
    now apply build_loop_returns.
  - now apply build_stores.
Qed.

Lemma build_stores_new_songs_witness :
  let d' :=
    snd (fst (build_body one_hash (fun _ _ => false) two_songs
                (mkConn (mkDb [] []) (mkDb [] [])))) in
  In (2, "c", "d")%string (songs d') /\ In (2, 2) (select_hash d' [x0a]).
Proof.
  intros d'.
  destruct (build_stores_new_songs one_hash (fun _ _ => false) two_songs
              (mkDb [] []) (mkItem 2 "c" "d" "u2") [("0a"%string, 2)])
    as [_ [H1 H2]].
  - intros i call. reflexivity.
  - constructor; [intros [H|[]]; discriminate H|].
    constructor; [intros []|constructor].
  - repeat constructor.
  - right. left. reflexivity.
  - reflexivity.
  - reflexivity.
  - discriminate.
  - repeat constructor. discriminate.
  - split; [exact H1|]. apply (H2 "0a"%string 2 [x0a]); [now left | reflexivity].
Defined.

(** X25: building and then matching: when no statement fails and the
    song_ids of the manifest are distinct and fit SQLite's integers,
    the hashes of a track stored by the loop of a build (an item that
    had no row in [songs], with hexadecimal keys and times that fit),
    matched against the database the build leaves, give a top result
    with at least as many votes as the track has hashes. *)
Theorem build_then_match
  (fingerprint_track : item -> outcome (list (string * Z)))
  (faulty : nat -> store_call -> bool) (items : list item) (d : db)
  (it : item) (hl : list (string * Z)) :
  fault_free faulty ->
  NoDup (map item_song_id items) -> ids_fit items -> In it items ->
  song_exists (mkConn d d) (item_song_id it) = false ->
  fingerprint_track it = Returned hl -> hl <> [] -> storable hl ->
  exists top,
    match_hashes_sqlite hl
      (snd (fst (build_body fingerprint_track faulty items (mkConn d d))))
      1
    = Some [printed
              (snd (fst (build_body fingerprint_track faulty items
                           (mkConn d d))))
              top]
    /\ Z.of_nat (List.length hl)
       <= res_votes
            (printed
               (snd (fst (build_body fingerprint_track faulty items
                            (mkConn d d))))
               top).
Proof.
  intros Hff ND Hfit Hin Hd Hf Hne Hst.
  destruct (build_stores fingerprint_track faulty Hff items d it hl
              ND Hfit Hin Hd Hf Hne Hst) as [_ S].
  set (d' := snd (fst (build_body fingerprint_track faulty items
                         (mkConn d d)))) in *.
  destruct (shifted_snippet_top d' (item_song_id it) 0 hl Hne)
    as [scored [x [top [_ [_ [_ [_ [M V]]]]]]]].
  - intros h t Hht. unfold storable in Hst. rewrite Forall_forall in Hst.
    destruct (Hst (h, t) Hht) as [Hhex _]. cbn [fst] in Hhex.
    destruct (fromhex h) as [hbin|] eqn:Eh; [|congruence].
    exists hbin. split; [reflexivity|]. rewrite Z.add_0_r.
    exact (S h t hbin Hht Eh).
  - exists top. split; assumption.
Qed.

Lemma build_then_match_witness :
  let d' :=
    snd (fst (build_body one_hash (fun _ _ => false) two_songs
                (mkConn (mkDb [] []) (mkDb [] [])))) in
  exists top,
    match_hashes_sqlite [("0a"%string, 2)] d' 1 = Some [printed d' top]
    /\ 1 <= res_votes (printed d' top).
Proof.
  intros d'.
  apply (build_then_match one_hash (fun _ _ => false) two_songs
           (mkDb [] []) (mkItem 2 "c" "d" "u2") [("0a"%string, 2)]).
  - intros i call. reflexivity.
  - constructor; [intros [H|[]]; discriminate H|].
    constructor; [intros []|constructor].
  - repeat constructor.
  - right. left. reflexivity.
  - reflexivity.
  - reflexivity.
  - discriminate.
  - repeat constructor. discriminate.
Defined.

(** ** Forced rebuilds *)

Lemma NoDup_map_filter {A B : Type} (f : A -> B) (p : A -> bool) (l : list A) :
  NoDup (map f l) -> NoDup (map f (filter p l)).
Proof.
  induction l as [|x l IH]; cbn [map filter]; intros ND; [constructor|].
  inversion ND as [|? ? Hx ND']; subst.
  destruct (p x); cbn [map]; [constructor|]; auto.
  intros Hin. apply Hx. apply in_map_iff in Hin.
  destruct Hin as [y [E Hy]]. apply filter_In in Hy.
  apply in_map_iff. exists y. tauto.
Qed.

Lemma filter_song_others {A : Type} (key : A -> Z) (ids : list Z) (sid : Z)
  (l : list A) :
  ~ In sid ids ->
  filter (fun r => key r =? sid)
         (filter (fun r => negb (existsb (Z.eqb (key r)) ids)) l)
  = filter (fun r => key r =? sid) l.
Proof.
  intros N. induction l as [|r l IH]; [reflexivity|].
  cbn [filter]. destruct (existsb (Z.eqb (key r)) ids) eqn:E; cbn [negb filter].
  - destruct (Z.eqb_spec (key r) sid) as [Es|Es]; [|exact IH].
    apply existsb_exists in E. destruct E as [x [Hx Ex]].
    apply Z.eqb_eq in Ex. subst. contradiction.
  - now rewrite IH.
Qed.

Lemma filter_deleted {A : Type} (key : A -> Z) (sid : Z) (l : list A) :
  filter (fun r => key r =? sid) (filter (fun r => negb (key r =? sid)) l) = [].
Proof.
  apply filter_none. intros r Hr. apply filter_In in Hr.
  destruct Hr as [_ Hr]. now apply negb_true_iff in Hr.
Qed.

Section ForcedRuns.

Variable fingerprint_track : item -> outcome (list (string * Z)).
Variable faulty : nat -> store_call -> bool.
Hypothesis no_fault : fault_free faulty.

Lemma rebuild_loop_app (force : bool) (pre post : list item) (i : nat)
  (s : session) :
  ids_fit pre ->
  rebuild_loop fingerprint_track faulty force i (pre ++ post) s
  = rebuild_loop fingerprint_track faulty force (i + List.length pre) post
      (snd (rebuild_loop fingerprint_track faulty force i pre s)).
Proof.
  intros F. revert i s. induction F as [|it pre Hit F IH]; intros i s;
    cbn [app List.length].
  - cbn [rebuild_loop ret snd]. now rewrite Nat.add_0_r.
  - rewrite !rebuild_loop_next
      by (try apply no_fault; try exact Hit; right; auto).
    rewrite IH. now rewrite Nat.add_succ_comm.
Qed.

(** The connection after a forced item whose song is in the database. *)
Lemma rebuild_item_forced (i : nat) (it : item) (s : session) :
  int64 (item_song_id it) = true ->
  song_exists (s_conn s) (item_song_id it) = true ->
  s_conn (snd (rebuild_item fingerprint_track faulty true i it s))
  = let c0 :=
      commit (delete_songs_of (item_song_id it)
                (delete_hashes_of (item_song_id it) (s_conn s))) in
    match fingerprint_track it with
    | Returned (x :: hl) =>
        let c1 :=
          add_song c0 (item_song_id it) (item_artist it) (item_title it) in
        match add_hashes_run (fun k => faulty i (InsertHashes k)) c1
                (item_song_id it) (x :: hl) with
        | (Returned _, c2) => commit c2
        | (Raised _, c2) => c2
        end
    | _ => c0
    end.
Proof.
  intros Hi He. cbn zeta.
  unfold rebuild_item. unfold bind at 1.
  rewrite song_exists_io_ok by (try apply no_fault; exact Hi). rewrite He.
  unfold delete_song_io, commit_io, bind, bind_int, sql, print.
  cbn [s_conn s_log]. rewrite Hi, ?no_fault. cbn [s_conn s_log].
  rewrite ?no_fault. cbn [s_conn s_log]. rewrite ?no_fault.
  unfold try_index_item, try_except, index_item, bind.
  destruct (fingerprint_track it) as [[|x hl]|e]; [reflexivity| |reflexivity].
  unfold add_song_io, add_hashes_io, bind, bind_int, sql, raise, print.
  rewrite Hi, ?no_fault. cbn [s_conn s_log].
  destruct (add_hashes_run _ _ (item_song_id it) (x :: hl)) as [[[]|e] c2];
    [|reflexivity].
  unfold commit_io, sql. rewrite ?no_fault. reflexivity.
Qed.

Lemma rebuild_loop_others (ids : list Z) (d : db) (force : bool)
  (items : list item) (i : nat) (s : session) :
  (forall it, In it items -> In (item_song_id it) ids) ->
  rebuild_inv ids d (s_conn s) ->
  rebuild_inv ids d
    (s_conn (snd (rebuild_loop fingerprint_track faulty force i items s))).
Proof.
  intros W. apply (rebuild_loop_keeps fingerprint_track faulty
                     (rebuild_inv ids d) force items).
  intros j it s' Hin. apply rebuild_item_others.
  apply existsb_exists. exists (item_song_id it).
  split; [now apply W | apply Z.eqb_refl].
Qed.

Lemma rebuild_inv_rows (ids : list Z) (d : db) (c : conn) (sid : Z) :
  rebuild_inv ids d c -> ~ In sid ids ->
  (song_rows (working c) sid = song_rows d sid
   /\ hash_rows_of (working c) sid = hash_rows_of d sid)
  /\ (song_rows (committed c) sid = song_rows d sid
      /\ hash_rows_of (committed c) sid = hash_rows_of d sid).
Proof.
  unfold rebuild_inv, other_songs, other_hashes, song_rows, hash_rows_of.
  intros [[H1 H2] [H3 H4]] N.
  rewrite <- (filter_song_others row_song_id ids sid (songs (working c)) N).
  rewrite <- (filter_song_others hash_song_id ids sid (hashes (working c)) N).
  rewrite <- (filter_song_others row_song_id ids sid (songs (committed c)) N).
  rewrite <- (filter_song_others hash_song_id ids sid (hashes (committed c)) N).
  rewrite H1, H2, H3, H4.
  now rewrite !filter_song_others.
Qed.

Lemma song_exists_rows (c : conn) (sid : Z) :
  song_exists c sid
  = match song_rows (working c) sid with [] => false | _ => true end.
Proof.
  unfold song_exists, song_rows.
  induction (songs (working c)) as [|r l IH]; [reflexivity|].
  cbn [existsb filter]. destruct (row_song_id r =? sid); [reflexivity | exact IH].
Qed.

Lemma deleted_rows (c : conn) (sid : Z) :
  song_rows (working (delete_songs_of sid (delete_hashes_of sid c))) sid = []
  /\ hash_rows_of (working (delete_songs_of sid (delete_hashes_of sid c))) sid
     = [].
Proof.
  unfold song_rows, hash_rows_of, delete_songs_of, delete_hashes_of.
  cbn [working songs hashes]. split; apply filter_deleted.
Qed.

Lemma forced_rebuild_rows (items : list item) (d : db) (it : item) :
  NoDup (map item_song_id items) -> ids_fit items -> In it items ->
  song_exists (mkConn d d) (item_song_id it) = true ->
  let d' :=
    snd (fst (rebuild_body fingerprint_track faulty true items (mkConn d d))) in
  match fingerprint_track it with
  | Returned (x :: hl) =>
      forall rows,
        hash_rows (item_song_id it) (x :: hl) = Some rows ->
        Forall (fun r => fits r = true) rows ->
        song_rows d' (item_song_id it)
        = [(item_song_id it, item_artist it, item_title it)]
        /\ hash_rows_of d' (item_song_id it) = rows
  | _ =>
      song_rows d' (item_song_id it) = []
      /\ hash_rows_of d' (item_song_id it) = []
  end.
Proof.
  intros NDw Hfit Hw He. cbn zeta.
  destruct (in_split _ _ Hw) as [pre [post Ew]].
  rewrite Ew in *. clear Ew Hw.
  unfold ids_fit in Hfit. apply Forall_app in Hfit.
  destruct Hfit as [Fpre Fpost]. inversion Fpost as [|? ? Hit Fpost']; subst.
  unfold rebuild_body, close. cbn [fst snd].
  rewrite rebuild_loop_app by exact Fpre.
  set (s1 := snd (rebuild_loop fingerprint_track faulty true 1 pre
                    (mkSession (mkConn d d) []))).
  rewrite map_app in NDw. cbn [map] in NDw.
  pose proof (NoDup_remove_2 _ _ _ NDw) as Nid.
  assert (Npre : ~ In (item_song_id it) (map item_song_id pre)).
  { intros H. apply Nid, in_or_app. now left. }
  assert (Npost : ~ In (item_song_id it) (map item_song_id post)).
  { intros H. apply Nid, in_or_app. now right. }
  assert (I1 : rebuild_inv (map item_song_id pre) d (s_conn s1)).
  { apply rebuild_loop_others; [intros x Hx; now apply in_map|].
    repeat split. }
  destruct (rebuild_inv_rows _ _ _ _ I1 Npre) as [[R1 _] _].
  assert (He1 : song_exists (s_conn s1) (item_song_id it) = true).
  { rewrite song_exists_rows, R1. now rewrite song_exists_rows in He. }
  rewrite rebuild_loop_next
    by (try apply no_fault; try exact Hit; right; auto).
  pose proof (rebuild_item_forced (1 + List.length pre) it s1 Hit He1) as E2.
  cbn zeta in E2.
  set (s2 := snd (rebuild_item fingerprint_track faulty true
                    (1 + List.length pre) it s1)) in *.
  assert (Post : forall d2,
             committed (s_conn s2) = d2 -> working (s_conn s2) = d2 ->
             song_rows
               (committed
                  (s_conn (snd (rebuild_loop fingerprint_track faulty true
                                  (S (1 + List.length pre)) post s2))))
               (item_song_id it)
             = song_rows d2 (item_song_id it)
             /\ hash_rows_of
                  (committed
                     (s_conn (snd (rebuild_loop fingerprint_track faulty true
                                     (S (1 + List.length pre)) post s2))))
                  (item_song_id it)
                = hash_rows_of d2 (item_song_id it)).
  { intros d2 Ec Ew2.
    assert (I2 : rebuild_inv (map item_song_id post) d2 (s_conn s2)).
    { unfold rebuild_inv. rewrite Ec, Ew2. auto. }
    pose proof (rebuild_loop_others (map item_song_id post) d2 true post
                  (S (1 + List.length pre)) s2
                  (fun x Hx => in_map item_song_id post x Hx) I2) as I3.
    exact (proj2 (rebuild_inv_rows _ _ _ _ I3 Npost)). }
  destruct (deleted_rows (s_conn s1) (item_song_id it)) as [D1 D2].
  destruct (fingerprint_track it) as [[|x hl]|e].
  - rewrite E2 in Post. destruct (Post _ eq_refl eq_refl) as [P1 P2].
    rewrite P1, P2. now split.
  - intros rows R Frows. unfold add_hashes_run in E2. rewrite R in E2.
    cbn zeta in E2.
    rewrite (executemany_ok _ rows
               (fun k => no_fault (1 + List.length pre)%nat (InsertHashes k))
               Frows) in E2.
    rewrite E2 in Post. destruct (Post _ eq_refl eq_refl) as [P1 P2].
    rewrite P1, P2. clear Post P1 P2.
    unfold song_rows, hash_rows_of, commit, add_song in *.
    cbn [working committed songs hashes] in *. split.
    + rewrite filter_app, filter_deleted. cbn [filter row_song_id fst app].
      now rewrite Z.eqb_refl.
    + rewrite filter_app, D2. cbn [app]. apply filter_all.
      intros r Hr. apply Z.eqb_eq.
      pose proof (hash_rows_song _ _ _ R) as F. rewrite Forall_forall in F.
      now apply F.
  - rewrite E2 in Post. destruct (Post _ eq_refl eq_refl) as [P1 P2].
    rewrite P1, P2. now split.
Qed.

End ForcedRuns.

(** X26: the loop of a forced rebuild replaces a song.  When no
    statement fails, for an item of the selected items (of distinct
    song_ids that fit SQLite's integers) whose song is in [songs]: if
    its track gives hashes whose rows can all be inserted, the rows of
    the song are afterwards its one row in [songs], with the artist and
    the title of the manifest, and in [hashes] the rows of the new
    hashes, in their order; if the track gives no hashes or fetching it
    raises, the song is left with no row at all, the old ones having
    been deleted and committed before the [try]. *)
Theorem forced_rebuild_replaces
  (fingerprint_track : item -> outcome (list (string * Z)))
  (faulty : nat -> store_call -> bool) (items : list item) (d : db)
  (it : item) :
  fault_free faulty ->
  NoDup (map item_song_id items) -> ids_fit items -> In it items ->
  song_exists (mkConn d d) (item_song_id it) = true ->
  (forall hl rows,
      fingerprint_track it = Returned hl -> hl <> [] ->
      hash_rows (item_song_id it) hl = Some rows ->
      Forall (fun r => fits r = true) rows ->
      song_rows
        (snd (fst (rebuild_body fingerprint_track faulty true items
                     (mkConn d d))))
        (item_song_id it)
      = [(item_song_id it, item_artist it, item_title it)]
      /\ hash_rows_of
           (snd (fst (rebuild_body fingerprint_track faulty true items
                        (mkConn d d))))
           (item_song_id it)
         = rows)
  /\ (fingerprint_track it = Returned []
      \/ (exists e, fingerprint_track it = Raised e) ->
      song_rows
        (snd (fst (rebuild_body fingerprint_track faulty true items
                     (mkConn d d))))
        (item_song_id it) = []
      /\ hash_rows_of
           (snd (fst (rebuild_body fingerprint_track faulty true items
                        (mkConn d d))))
           (item_song_id it) = []).
Proof.
  intros Hff ND Hfit Hin He.
  pose proof (forced_rebuild_rows fingerprint_track faulty Hff items d it
                ND Hfit Hin He) as H. cbn zeta in H.
  split.
  - intros hl rows Hf Hne R Frows. rewrite Hf in H.
    destruct hl as [|x hl]; [congruence|]. now apply H.
  - intros [Hf|[e Hf]]; rewrite Hf in H; exact H.
Qed.

Lemma forced_rebuild_replaces_witness :
  let d := mkDb [(1, "old", "row")]%string [([x0b], 1, 9); ([x0c], 1, 12)] in
  let d' :=
    snd (fst (rebuild_body one_hash (fun _ _ => false) true
                [mkItem 1 "a" "b" "u1"] (mkConn d d))) in
  song_rows d' 1 = [(1, "a", "b")]%string
  /\ hash_rows_of d' 1 = [([x0a], 1, 1)].
Proof.
  intros d d'.
  destruct (forced_rebuild_replaces one_hash (fun _ _ => false)
              [mkItem 1 "a" "b" "u1"] d (mkItem 1 "a" "b" "u1")) as [H _].
  - intros i call. reflexivity.
  - constructor; [intros []|constructor].
  - repeat constructor.
  - left. reflexivity.
  - reflexivity.
  - apply (H [("0a"%string, 1)] [([x0a], 1, 1)]);
      [reflexivity | discriminate | reflexivity | repeat constructor].
Defined.

(** ** The pickle index *)

Lemma index_get_add (h k : string) (p : Z * Z) (index : pickle_index) :
  postings (index_add h p index) k
  = if String.eqb h k then postings index k ++ [p] else postings index k.
Proof.
  unfold postings. induction index as [|[k' ps] rest IH]; cbn [index_add index_get].
  - destruct (String.eqb h k); reflexivity.
  - destruct (String.eqb_spec k' h) as [->|Hne]; cbn [index_get].
    + destruct (String.eqb h k); reflexivity.
    + destruct (String.eqb_spec k' k) as [->|Hk].
      * destruct (String.eqb_spec h k); [congruence | reflexivity].
      * exact IH.
Qed.

Lemma index_add_nonempty (h : string) (p : Z * Z) (index : pickle_index) :
  Forall (fun e => snd e <> []) index ->
  Forall (fun e => snd e <> []) (index_add h p index).
Proof.
  induction 1 as [|[k ps] rest Hk F IH]; cbn [index_add].
  - repeat constructor. discriminate.
  - destruct (String.eqb k h); constructor; auto.
    cbn [snd]. now destruct ps.
Qed.

Lemma index_add_keys_In (h k : string) (p : Z * Z) (index : pickle_index) :
  In k (map fst (index_add h p index)) -> k = h \/ In k (map fst index).
Proof.
  induction index as [|[k' ps] rest IH]; cbn [index_add map fst In].
  - intros [E|[]]. now left.
  - destruct (String.eqb k' h); cbn [map fst In].
    + intros [H|H]; auto.
    + intros [H|H]; auto. apply IH in H. destruct H; auto.
Qed.

Lemma index_add_keys (h : string) (p : Z * Z) (index : pickle_index) :
  NoDup (map fst index) -> NoDup (map fst (index_add h p index)).
Proof.
  induction index as [|[k' ps] rest IH]; cbn [index_add map fst]; intros ND.
  - repeat constructor. intros [].
  - inversion ND as [|? ? Hk ND']; subst.
    destruct (String.eqb_spec k' h) as [->|Hne]; cbn [map fst].
    + now constructor.
    + constructor; [|now apply IH]. intros Hin.
      apply index_add_keys_In in Hin.
      destruct Hin as [E|Hin]; [congruence | contradiction].
Qed.

Lemma index_track_postings (sid : Z) (hl : list (string * Z))
  (index : pickle_index) (k : string) :
  postings (index_track sid hl index) k
  = postings index k
    ++ map (fun x => (sid, snd x)) (filter (fun x => String.eqb (fst x) k) hl).
Proof.
  unfold index_track. revert index.
  induction hl as [|[h t] hl IH]; intros index; cbn [fold_left filter fst].
  - now rewrite app_nil_r.
  - rewrite IH, index_get_add.
    destruct (String.eqb h k); cbn [map snd]; [|reflexivity].
    now rewrite <- app_assoc.
Qed.

Lemma index_track_wf (sid : Z) (hl : list (string * Z)) (index : pickle_index) :
  NoDup (map fst index) /\ Forall (fun e => snd e <> []) index ->
  NoDup (map fst (index_track sid hl index))
  /\ Forall (fun e => snd e <> []) (index_track sid hl index).
Proof.
  unfold index_track. revert index.
  induction hl as [|[h t] hl IH]; intros index [ND F]; cbn [fold_left].
  - now split.
  - apply IH. split; [now apply index_add_keys | now apply index_add_nonempty].
Qed.

Lemma build_index_fold {Meta : Type} (gen : string -> list (string * Z))
  (lib : list (Z * string * Meta)) (index : pickle_index)
  (songs : list (Z * Meta)) (k : string) :
  NoDup (map fst index) /\ Forall (fun e => snd e <> []) index ->
  let r :=
    fold_left
      (fun '(index, songs) '(song_id, path, meta) =>
         (index_track song_id (gen path) index, dict_set song_id meta songs))
      lib (index, songs) in
  postings (fst r) k = postings index k ++ postings_in (tracks_of gen lib) k
  /\ NoDup (map fst (fst r))
  /\ Forall (fun e => snd e <> []) (fst r).
Proof.
  revert index songs. induction lib as [|[[sid path] meta] lib IH];
    intros index songs W; cbn zeta.
  - cbn. rewrite app_nil_r. tauto.
  - cbn [fold_left tracks_of map postings_in flat_map].
    pose proof (IH (index_track sid (gen path) index)
                  (dict_set sid meta songs)
                  (index_track_wf sid (gen path) index W)) as H.
    cbn zeta in H. destruct H as [H1 H2]. split; [|exact H2].
    rewrite H1, index_track_postings. now rewrite <- app_assoc.
Qed.

Lemma postings_nil (index : pickle_index) (k : string) :
  Forall (fun e => snd e <> []) index ->
  (index_get index k = None <-> postings index k = []).
Proof.
  intros F. unfold postings. induction F as [|[k' ps] rest Hk F IH];
    cbn [index_get]; [tauto|].
  destruct (String.eqb k' k); [|exact IH].
  cbn [snd] in Hk. split; [discriminate | congruence].
Qed.

(** X28: [build_index] files under each hash the places where it occurs,
    [(song_id, time)], file by file in the order of the library and, for
    one file, in the order of its hashes; a hash is a key of the index
    exactly when it occurs in a file, so that no key has an empty
    list. *)
Theorem build_index_postings {Meta : Type}
  (generate_hashes_from_file : string -> list (string * Z))
  (library_files : list (Z * string * Meta)) (h : string) :
  let index := fst (build_index generate_hashes_from_file library_files) in
  postings index h
  = postings_in (tracks_of generate_hashes_from_file library_files) h
  /\ (index_get index h = None
      <-> postings_in (tracks_of generate_hashes_from_file library_files) h
          = [])
  /\ NoDup (map fst index).
Proof.
  cbn zeta. unfold build_index.
  destruct (build_index_fold generate_hashes_from_file library_files [] [] h)
    as [H1 [H2 H3]]; [split; constructor|].
  cbn zeta in H1, H2, H3.
  change (postings [] h) with (@nil (Z * Z)) in H1. cbn [app] in H1.
  split; [exact H1|]. split; [|exact H2].
  rewrite <- H1. now apply postings_nil.
Qed.

Lemma build_index_postings_witness :
  let gen := fun path : string =>
               if String.eqb path "a.wav" then [("0a", 3); ("0b", 4)]%string
               else [("0b", 7); ("0a", 9); ("0a", 11)]%string in
  let index :=
    fst (build_index gen [(1, "a.wav", tt); (2, "b.wav", tt)]%string) in
  postings index "0a" = [(1, 3); (2, 9); (2, 11)]
  /\ index_get index "0c" = None.
Proof.
  intros gen index.
  destruct (build_index_postings gen [(1, "a.wav", tt); (2, "b.wav", tt)]%string
              "0a"%string) as [H _].
  split; [exact H|].
  destruct (build_index_postings gen [(1, "a.wav", tt); (2, "b.wav", tt)]%string
              "0c"%string) as [_ [H' _]].
  apply (proj2 H'). reflexivity.
Defined.

(** ** The pickle index and the database of the same tracks *)

Lemma hexdigest_rows (sid : Z) (hl : list (string * Z)) :
  Forall (fun x => is_hexdigest (fst x)) hl ->
  exists rows, hash_rows sid hl = Some rows.
Proof.
  induction 1 as [|[h t] hl [b Hb] F [rows IH]]; cbn [hash_rows].
  - now exists [].
  - cbn [fst] in Hb. subst h. rewrite fromhex_hex_of_bytes, IH.
    cbn [option_map]. eauto.
Qed.

Lemma hexdigest_postings (sid : Z) (hl : list (string * Z)) (b : list byte) :
  Forall (fun x => is_hexdigest (fst x)) hl ->
  postings_of sid hl b
  = map (fun x => (sid, snd x))
        (filter (fun x => String.eqb (fst x) (hex_of_bytes b)) hl).
Proof.
  unfold postings_of. intros F. f_equal.
  induction F as [|[h t] hl [b' Hb] F IH]; [reflexivity|].
  cbn [filter fst] in *. subst h. rewrite fromhex_hex_of_bytes, IH.
  destruct (String.eqb_spec (hex_of_bytes b') (hex_of_bytes b)) as [E|E].
  - apply hex_of_bytes_inj in E. subst b'.
    now rewrite (proj2 (bytes_eqb_eq b b) eq_refl).
  - destruct (bytes_eqb b' b) eqn:Eb; [|reflexivity].
    apply bytes_eqb_eq in Eb. now subst.
Qed.

Section SameTracks.

Variable fingerprint_track : item -> outcome (list (string * Z)).
Variable faulty : nat -> store_call -> bool.
Hypothesis no_fault : fault_free faulty.

(** The connection after an item that is not in the database and whose
    track is fingerprinted, with hashes or without. *)
Lemma build_item_exact (i : nat) (it : item) (s : session)
  (hl : list (string * Z)) :
  int64 (item_song_id it) = true ->
  song_exists (s_conn s) (item_song_id it) = false ->
  fingerprint_track it = Returned hl ->
  Forall (fun x => is_hexdigest (fst x)) hl ->
  Forall (fun x => int64 (snd x) = true) hl ->
  exists rows new_songs,
    hash_rows (item_song_id it) hl = Some rows
    /\ Forall (fun r => row_song_id r = item_song_id it) new_songs
    /\ songs (working (s_conn (snd (build_item fingerprint_track faulty i it s))))
       = songs (working (s_conn s)) ++ new_songs
    /\ hashes
         (working (s_conn (snd (build_item fingerprint_track faulty i it s))))
       = hashes (working (s_conn s)) ++ rows
    /\ (committed (s_conn s) = working (s_conn s) ->
        committed (s_conn (snd (build_item fingerprint_track faulty i it s)))
        = working (s_conn (snd (build_item fingerprint_track faulty i it s)))).
Proof.
  intros Hi He Hf Hx Ht.
  destruct (hexdigest_rows (item_song_id it) hl Hx) as [rows R].
  destruct hl as [|x hl].
  - exists [], []. cbn [hash_rows] in R. injection R as <-.
    assert (E : s_conn (snd (build_item fingerprint_track faulty i it s))
                = s_conn s).
    { unfold build_item. unfold bind at 1.
      rewrite song_exists_io_ok by (try apply no_fault; exact Hi). rewrite He.
      unfold bind. cbn [print s_conn s_log].
      unfold try_index_item, try_except, index_item, bind. rewrite Hf.
      reflexivity. }
    rewrite E, !app_nil_r. repeat split; auto.
  - assert (Frows : Forall (fun r => fits r = true) rows).
    { apply (hash_rows_fit _ _ _ R). eapply Forall_impl; [|exact Ht].
      cbv beta. intros y Hy. now rewrite Hi, Hy. }
    rewrite (build_item_stores fingerprint_track faulty no_fault i it s
               (x :: hl) rows Hi He Hf ltac:(discriminate) R Frows).
    exists rows, [(item_song_id it, item_artist it, item_title it)].
    split; [exact R|]. split; [repeat constructor|].
    unfold add_rows, commit. cbn [working committed songs hashes].
    rewrite (add_song_new _ _ _ _ He). cbn [songs hashes].
    repeat split.
Qed.

Lemma build_loop_exact (items : list item)
  (tracks : list (Z * list (string * Z))) :
  Forall2 (item_of_track fingerprint_track) items tracks ->
  Forall (fun tr => Forall (fun x => is_hexdigest (fst x)) (snd tr)) tracks ->
  Forall (fun tr => Forall (fun x => int64 (snd x) = true) (snd tr)) tracks ->
  NoDup (map item_song_id items) -> ids_fit items ->
  forall i s,
    committed (s_conn s) = working (s_conn s) ->
    (forall it, In it items ->
                song_exists (s_conn s) (item_song_id it) = false) ->
    committed (s_conn (snd (build_loop fingerprint_track faulty i items s)))
    = working (s_conn (snd (build_loop fingerprint_track faulty i items s)))
    /\ forall b,
         select_hash
           (working
              (s_conn (snd (build_loop fingerprint_track faulty i items s))))
           b
         = select_hash (working (s_conn s)) b
           ++ postings_in tracks (hex_of_bytes b).
Proof.
  induction 1 as [|it [sid hl] items tracks [Hid Hf] F2 IH];
    intros Hx Ht ND Hfit i s Hc Hnew.
  - cbn [build_loop ret snd postings_in flat_map]. split; [exact Hc|].
    intros b. now rewrite app_nil_r.
  - cbn [fst snd] in Hid, Hf. inversion Hx as [|? ? Hx1 Hx2]; subst.
    inversion Ht as [|? ? Ht1 Ht2]; subst.
    inversion Hfit as [|? ? Hit Hfit']; subst.
    cbn [snd] in Hx1, Ht1. cbn [map] in ND.
    inversion ND as [|? ? Nit ND']; subst.
    rewrite build_loop_next by (try apply no_fault; exact Hit).
    destruct (build_item_exact i it s hl Hit (Hnew it (or_introl eq_refl)) Hf
                Hx1 Ht1)
      as [rows [ns [R [Fs [Es [Eh Ec]]]]]].
    set (s' := snd (build_item fingerprint_track faulty i it s)) in *.
    destruct (IH Hx2 Ht2 ND' Hfit' (S i) s' (Ec Hc)) as [IH1 IH2].
    { intros it' Hin'. apply song_exists_false. intros r Hr E.
      rewrite Es in Hr. apply in_app_or in Hr. destruct Hr as [Hr|Hr].
      - apply (proj1 (song_exists_false (s_conn s) _)
                 (Hnew it' (or_intror Hin')) r Hr E).
      - rewrite Forall_forall in Fs. apply Nit. rewrite <- (Fs r Hr), E.
        now apply in_map. }
    split; [exact IH1|]. intros b. rewrite IH2.
    cbn [postings_in flat_map]. rewrite app_assoc. f_equal.
    unfold select_hash. rewrite Eh, filter_app, map_app. f_equal.
    rewrite <- (hexdigest_postings (item_song_id it) hl b Hx1).
    pose proof (hash_rows_select (item_song_id it) hl rows b R) as Y.
    exact Y.
Qed.

End SameTracks.

(** X29: the pickle index and the database of the same tracks hold the
    same postings.  When no statement fails and the items of a manifest
    of distinct song_ids that fit SQLite's integers are the files of
    the library, in the same order and with the same hashes, all keyed
    as [hexdigest] writes them and with times that fit SQLite's
    integers, then the rows selected under the bytes of a key from the
    database that the loop of a build leaves, started on a connection
    to an empty database, are the list that [build_index] files under
    the key, in the same order: every query of such keys meets the same
    postings in both. *)
Theorem pickle_and_sqlite_postings {Meta : Type}
  (fingerprint_track : item -> outcome (list (string * Z)))
  (faulty : nat -> store_call -> bool)
  (generate_hashes_from_file : string -> list (string * Z))
  (library_files : list (Z * string * Meta)) (items : list item) :
  fault_free faulty ->
  NoDup (map item_song_id items) -> ids_fit items ->
  Forall2 (item_of_track fingerprint_track) items
          (tracks_of generate_hashes_from_file library_files) ->
  Forall (fun tr => Forall (fun x => is_hexdigest (fst x)) (snd tr))
         (tracks_of generate_hashes_from_file library_files) ->
  Forall (fun tr => Forall (fun x => int64 (snd x) = true) (snd tr))
         (tracks_of generate_hashes_from_file library_files) ->
  (forall b,
      select_hash
        (snd (fst (build_body fingerprint_track faulty items
                     (mkConn (mkDb [] []) (mkDb [] [])))))
        b
      = postings (fst (build_index generate_hashes_from_file library_files))
                 (hex_of_bytes b))
  /\ forall q,
       Forall (fun x => is_hexdigest (fst x)) q ->
       same_postings
         (fst (build_index generate_hashes_from_file library_files))
         (snd (fst (build_body fingerprint_track faulty items
                      (mkConn (mkDb [] []) (mkDb [] [])))))
         q.
Proof.
  intros Hff ND Hfit F2 Hx Ht.
  assert (S : forall b,
             select_hash
               (snd (fst (build_body fingerprint_track faulty items
                            (mkConn (mkDb [] []) (mkDb [] [])))))
               b
             = postings
                 (fst (build_index generate_hashes_from_file library_files))
                 (hex_of_bytes b)).
  { intros b. unfold build_body, close. cbn [fst snd].
    destruct (build_loop_exact fingerprint_track faulty Hff items _ F2 Hx Ht ND
                Hfit 1
                (mkSession (mkConn (mkDb [] []) (mkDb [] [])) []) eq_refl)
      as [Ec Es]; [reflexivity|].
    rewrite Ec, Es.
    destruct (build_index_fold generate_hashes_from_file library_files [] []
                (hex_of_bytes b)) as [H1 _]; [split; constructor|].
    symmetry. exact H1. }
  split; [exact S|].
  intros q Hq h t Hin. rewrite Forall_forall in Hq.
  destruct (Hq (h, t) Hin) as [b Hb]. cbn [fst] in Hb. subst h.
  split.
  - exists b. apply fromhex_hex_of_bytes.
  - unfold rows_of. rewrite fromhex_hex_of_bytes. symmetry. apply S.
Qed.

Lemma pickle_and_sqlite_postings_witness :
  let gen := fun path : string =>
               if String.eqb path "u1" then [("0a", 1)]%string
               else [("0a", 2)]%string in
  select_hash
    (snd (fst (build_body one_hash (fun _ _ => false) two_songs
                 (mkConn (mkDb [] []) (mkDb [] [])))))
    [x0a]
  = postings (fst (build_index gen [(1, "u1", tt); (2, "u2", tt)]%string))
             "0a".
Proof.
  intros gen.
  destruct (pickle_and_sqlite_postings one_hash (fun _ _ => false) gen
              [(1, "u1", tt); (2, "u2", tt)]%string two_songs) as [H _].
  - intros i call. reflexivity.
  - constructor; [intros [H|[]]; discriminate H|].
    constructor; [intros []|constructor].
  - repeat constructor.
  - repeat constructor.
  - repeat constructor; exists [x0a]; reflexivity.
  - repeat constructor.
  - exact (H [x0a]).
Defined.

(** ** The loudest cell *)

Lemma power_to_db_In (S : list (list R)) (ref floor top_db : R) (p : R) :
  In p (List.concat S) ->
  exists top,
    In (Rmax (10 * log10 (Rmax floor p) - 10 * log10 (Rmax floor (Rabs ref)))
             (top - top_db))
       (List.concat (power_to_db S ref floor top_db)).
Proof.
  intros Hp. unfold power_to_db. cbv zeta. eexists.
  apply (concat_map_map_In' (fun x => Rmax x (_ - top_db))).
  apply (concat_map_map_In'
           (fun p => (10 * log10 (Rmax floor p)
                      - 10 * log10 (Rmax floor (Rabs ref)))%R)).
  exact Hp.
Qed.

(** X8: a spectrogram with at least one cell has a cell at 0 dB, its
    largest value: the cells of the largest magnitude, which is the
    reference of [amplitude_to_db]. *)
Theorem loudest_cell_is_0_dB (spec : list (list R)) :
  List.concat spec <> [] ->
  In (Fin 0) (List.concat (spec_in_dB spec))
  /\ array_max (List.concat (amplitude_to_db spec)) = 0%R.
Proof.
  intros Hne.
  assert (H0 : In 0%R (List.concat (amplitude_to_db spec))).
  { set (magnitude := map (map Rabs) spec).
    assert (Hm : List.concat magnitude <> []).
    { destruct (List.concat spec) as [|x l] eqn:E; [congruence|].
      assert (Hx : In x (List.concat spec)) by (rewrite E; now left).
      apply (concat_map_map_In' Rabs) in Hx. fold magnitude in Hx.
      intros E'. now rewrite E' in Hx. }
    pose proof (array_max_In _ Hm) as HM.
    set (M := array_max (List.concat magnitude)) in *.
    apply (concat_map_map_In' (fun m => (m * m)%R)) in HM.
    destruct (power_to_db_In _ (M * M) (amin * amin) top_db _ HM) as [top Hin].
    change (In (Rmax (10 * log10 (Rmax (amin * amin) (M * M))
                      - 10 * log10 (Rmax (amin * amin) (Rabs (M * M))))
                     (top - top_db))
               (List.concat (amplitude_to_db spec))) in Hin.
    rewrite (Rabs_pos_eq (M * M)) in Hin by nra.
    pose proof (amplitude_to_db_le_0 spec _ Hin) as Hle.
    pose proof (Rmax_l (10 * log10 (Rmax (amin * amin) (M * M))
                        - 10 * log10 (Rmax (amin * amin) (M * M)))
                       (top - top_db)) as Hge.
    replace 0%R
      with (Rmax (10 * log10 (Rmax (amin * amin) (M * M))
                  - 10 * log10 (Rmax (amin * amin) (M * M)))
                 (top - top_db)) by lra.
    exact Hin. }
  split.
  - unfold spec_in_dB. now apply (concat_map_map_In' Fin).
  - apply Rle_antisym.
    + apply array_max_le_0. intros x. apply amplitude_to_db_le_0.
    + now apply array_max_ge.
Qed.

Lemma loudest_cell_is_0_dB_witness :
  In (Fin 0) (List.concat (spec_in_dB [[1%R; 2%R]; [3%R; 0%R]])).
Proof.
  apply (loudest_cell_is_0_dB [[1%R; 2%R]; [3%R; 0%R]]). discriminate.
Defined.

(** ** A query taken later *)

Lemma bump_earlier (k delta : Z) (offs : histogram) :
  bump (delta - k) (earlier_offsets k offs) = earlier_offsets k (bump delta offs).
Proof.
  induction offs as [|[d n] offs IH]; cbn [earlier_offsets map bump fst snd];
    [reflexivity|].
  replace (d - k =? delta - k) with (d =? delta).
  - destruct (d =? delta); cbn [map fst snd]; [reflexivity|].
    f_equal. exact IH.
  - destruct (Z.eqb_spec d delta), (Z.eqb_spec (d - k) (delta - k)); lia.
Qed.

Lemma vote_earlier (k s delta : Z) (v : votes) :
  vote s (delta - k) (earlier_votes k v) = earlier_votes k (vote s delta v).
Proof.
  induction v as [|[s' offs] v IH]; cbn [earlier_votes map vote fst snd];
    [reflexivity|].
  destruct (s' =? s); cbn [map fst snd].
  - f_equal. f_equal. apply bump_earlier.
  - f_equal. exact IH.
Qed.

Lemma vote_postings_earlier (k t : Z) (ps : list (Z * Z)) (v : votes) :
  vote_postings (t + k) ps (earlier_votes k v)
  = earlier_votes k (vote_postings t ps v).
Proof.
  unfold vote_postings. revert v.
  induction ps as [|[s ts] ps IH]; intros v; cbn [fold_left]; [reflexivity|].
  replace (ts - (t + k)) with (ts - t - k) by lia.
  rewrite vote_earlier. apply IH.
Qed.

Lemma tally_snippet_earlier (k : Z) (index : pickle_index)
  (hashes : list (string * Z)) :
  tally_snippet index (delayed k hashes)
  = earlier_votes k (tally_snippet index hashes).
Proof.
  unfold tally_snippet.
  change (@nil (Z * histogram)) with (earlier_votes k []) at 1.
  generalize (@nil (Z * histogram)).
  induction hashes as [|[h t] hashes IH]; intros v;
    cbn [delayed map fold_left fst snd]; [reflexivity|].
  destruct (index_get index h) as [ps|]; [|apply IH].
  rewrite vote_postings_earlier. apply IH.
Qed.

Lemma vote_rows_earlier (k : Z) (tqs : list Z) (rows : list (Z * Z))
  (v : votes) :
  vote_rows (map (fun t => t + k) tqs) rows (earlier_votes k v)
  = earlier_votes k (vote_rows tqs rows v).
Proof.
  unfold vote_rows. revert v.
  induction rows as [|[s ts] rows IH]; intros v; cbn [fold_left];
    [reflexivity|].
  rewrite <- IH. f_equal. clear IH. revert v.
  induction tqs as [|tq tqs IH]; intros v; cbn [map fold_left]; [reflexivity|].
  replace (ts - (tq + k)) with (ts - tq - k) by lia.
  rewrite vote_earlier. apply IH.
Qed.

Lemma tally_sqlite_earlier (k : Z) (d : db) (groups : list (string * list Z))
  (v : votes) :
  tally_sqlite d
    (map (fun g => (fst g, map (fun t => t + k) (snd g))) groups)
    (earlier_votes k v)
  = option_map (earlier_votes k) (tally_sqlite d groups v).
Proof.
  revert v. induction groups as [|[h tqs] groups IH]; intros v;
    cbn [map tally_sqlite fst snd]; [reflexivity|].
  destruct (fromhex h) as [hbin|]; [|reflexivity].
  rewrite vote_rows_earlier. apply IH.
Qed.

Lemma group_add_delayed (k : Z) (h : string) (t : Z)
  (g : list (string * list Z)) :
  group_add h (t + k) (map (fun g => (fst g, map (fun t => t + k) (snd g))) g)
  = map (fun g => (fst g, map (fun t => t + k) (snd g))) (group_add h t g).
Proof.
  induction g as [|[h' ts] g IH]; cbn [map group_add fst snd]; [reflexivity|].
  destruct (String.eqb h' h); cbn [map fst snd].
  - now rewrite map_app.
  - f_equal. exact IH.
Qed.

Lemma by_hash_delayed (k : Z) (hashes : list (string * Z)) :
  by_hash (delayed k hashes)
  = map (fun g => (fst g, map (fun t => t + k) (snd g))) (by_hash hashes).
Proof.
  unfold by_hash.
  change (@nil (string * list Z))
    with (map (fun g : string * list Z =>
                 (fst g, map (fun t => t + k) (snd g))) []) at 1.
  generalize (@nil (string * list Z)).
  induction hashes as [|[h t] hashes IH]; intros g;
    cbn [delayed map fold_left group_step fst snd]; [reflexivity|].
  rewrite group_add_delayed. apply IH.
Qed.

Lemma max_item_earlier (k : Z) (offs : histogram) :
  offs <> [] ->
  max_item (earlier_offsets k offs)
  = (fst (max_item offs) - k, snd (max_item offs)).
Proof.
  destruct offs as [|x rest]; [congruence|]. intros _.
  unfold max_item. cbn [earlier_offsets map]. revert x.
  induction rest as [|y rest IH]; intros x; cbn [map fold_left fst snd];
    [reflexivity|].
  destruct (snd x <? snd y); apply IH.
Qed.

Lemma sum_values_earlier (k : Z) (offs : histogram) :
  sum_values (earlier_offsets k offs) = sum_values offs.
Proof.
  unfold sum_values. generalize 0.
  induction offs as [|e offs IH]; intros a; cbn [earlier_offsets map fold_left];
    [reflexivity|].
  cbn [snd]. apply IH.
Qed.

Lemma score_earlier (k : Z) (v : votes) :
  wf_votes v -> score (earlier_votes k v) = map (earlier k) (score v).
Proof.
  intros [_ W]. unfold score, earlier_votes. rewrite !map_map.
  apply map_ext_in. intros [s offs] Hin. cbn [fst snd].
  rewrite Forall_forall in W. destruct (W _ Hin) as [Hne _]. cbn [snd] in Hne.
  rewrite (max_item_earlier k offs Hne), sum_values_earlier.
  destruct (max_item offs). reflexivity.
Qed.

Lemma cand_count_earlier (k : Z) (x : candidate) :
  cand_count (earlier k x) = cand_count x.
Proof. now destruct x as [[[s c] o] n]. Qed.

Lemma sort_by_count_earlier (k : Z) (l : list candidate) :
  sort_by_count (map (earlier k) l) = map (earlier k) (sort_by_count l).
Proof.
  induction l as [|x l IH]; [reflexivity|].
  cbn [map sort_by_count fold_right]. fold (sort_by_count (map (earlier k) l)).
  fold (sort_by_count l). rewrite IH. generalize (sort_by_count l).
  intros m. induction m as [|y m IHm]; [reflexivity|].
  cbn [map insert_by_count]. rewrite !cand_count_earlier.
  destruct (cand_count y <=? cand_count x); [reflexivity|].
  cbn [map]. f_equal. exact IHm.
Qed.

Lemma py_prefix_map {A B : Type} (f : A -> B) (l : list A) (k : Z) :
  py_prefix (map f l) k = map f (py_prefix l k).
Proof.
  unfold py_prefix. rewrite length_map.
  destruct (0 <=? k); now rewrite firstn_map.
Qed.

Lemma vote_rows_wf (tqs : list Z) (rows : list (Z * Z)) (v : votes) :
  wf_votes v -> wf_votes (vote_rows tqs rows v).
Proof.
  unfold vote_rows. revert v.
  induction rows as [|[s ts] rows IH]; intros v W; [exact W|].
  cbn [fold_left]. apply IH. clear IH. revert v W.
  induction tqs as [|tq tqs IH]; intros v W; [exact W|].
  cbn [fold_left]. apply IH. now apply vote_wf.
Qed.

Lemma tally_sqlite_wf (d : db) (groups : list (string * list Z)) (v v' : votes) :
  wf_votes v -> tally_sqlite d groups v = Some v' -> wf_votes v'.
Proof.
  revert v. induction groups as [|[h tqs] groups IH]; intros v W E;
    cbn [tally_sqlite] in E.
  - now injection E as <-.
  - destruct (fromhex h); [|discriminate].
    apply (IH _ (vote_rows_wf _ _ _ W) E).
Qed.

Lemma printed_earlier (k : Z) (d : db) (x : candidate) :
  printed d (earlier k x) = earlier_result k (printed d x).
Proof.
  destruct x as [[[s c] o] n]. unfold printed, earlier, earlier_result.
  destruct (meta_get (load_meta d) s). reflexivity.
Qed.

(** X20: taking the query [k] frames later changes nothing but the
    offsets: both matchers return the same candidates in the same
    order, with the same votes and total hits, each offset [k] frames
    earlier; [match_hashes_sqlite] raises on the one query exactly when
    it does on the other. *)
Theorem matching_a_delayed_query
  (k : Z) (hashes : list (string * Z)) (index : pickle_index) (d : db)
  (topk : Z) :
  match_snippet (delayed k hashes) index
  = map (earlier k) (match_snippet hashes index)
  /\ match_hashes_sqlite (delayed k hashes) d topk
     = option_map (map (earlier_result k)) (match_hashes_sqlite hashes d topk).
Proof.
  split.
  - unfold match_snippet. destruct hashes as [|q qs]; [reflexivity|].
    change (delayed k (q :: qs))
      with ((fst q, snd q + k) :: delayed k qs) at 1.
    cbv iota. change ((fst q, snd q + k) :: delayed k qs)
      with (delayed k (q :: qs)).
    rewrite tally_snippet_earlier, score_earlier.
    + now rewrite sort_by_count_earlier, py_prefix_map.
    + rewrite tally_snippet_events. apply tally_wf, wf_votes_nil.
  - unfold match_hashes_sqlite. destruct hashes as [|q qs]; [reflexivity|].
    change (delayed k (q :: qs))
      with ((fst q, snd q + k) :: delayed k qs) at 1.
    cbv iota. change ((fst q, snd q + k) :: delayed k qs)
      with (delayed k (q :: qs)).
    unfold ranked_sqlite. rewrite by_hash_delayed.
    change (@nil (Z * histogram)) with (earlier_votes k []) at 1.
    rewrite tally_sqlite_earlier.
    destruct (tally_sqlite d (by_hash (q :: qs)) []) as [v|] eqn:E;
      cbn [option_map]; [|reflexivity].
    rewrite score_earlier by (apply (tally_sqlite_wf _ _ _ _ wf_votes_nil E)).
    rewrite sort_by_count_earlier, py_prefix_map, !map_map.
    apply (f_equal Some). apply map_ext. intros x.
    exact (printed_earlier k d x).
Qed.

(** ** A rebuild that is not forced *)

Section UnforcedRuns.

Variable fingerprint_track : item -> outcome (list (string * Z)).
Variable faulty : nat -> store_call -> bool.

(** What the [try] statement returns and does to the connection does
    not depend on what was printed before. *)
Lemma try_index_item_same (i : nat) (it : item) (s s' : session) :
  s_conn s = s_conn s' ->
  fst (try_index_item fingerprint_track faulty i it s)
  = fst (try_index_item fingerprint_track faulty i it s')
  /\ s_conn (snd (try_index_item fingerprint_track faulty i it s))
     = s_conn (snd (try_index_item fingerprint_track faulty i it s')).
Proof.
  intros E. destruct s as [c l], s' as [c' l']. cbn [s_conn] in E. subst c'.
  unfold try_index_item, try_except, index_item, add_song_io, add_hashes_io,
    commit_io.
  unfold bind, bind_int, sql, raise, print.
  destruct (fingerprint_track it) as [[|h hs]|e]; cbn [print fst snd s_conn];
    auto.
  destruct (int64 (item_song_id it)); cbn [fst snd s_conn s_log]; auto.
  destruct (faulty i InsertSong); cbn [fst snd s_conn s_log]; auto.
  destruct (add_hashes_run (fun k => faulty i (InsertHashes k))
              (add_song c (item_song_id it) (item_artist it) (item_title it))
              (item_song_id it) (h :: hs)) as [[[]|e] c2];
    cbn [fst snd s_conn s_log]; auto.
  destruct (faulty i Commit); cbn [fst snd s_conn s_log]; auto.
Qed.

Lemma rebuild_item_unforced (i : nat) (it : item) (s s' : session) :
  s_conn s = s_conn s' ->
  fst (rebuild_item fingerprint_track faulty false i it s)
  = fst (build_item fingerprint_track faulty i it s')
  /\ s_conn (snd (rebuild_item fingerprint_track faulty false i it s))
     = s_conn (snd (build_item fingerprint_track faulty i it s')).
Proof.
  intros E. destruct s as [c l], s' as [c' l']. cbn [s_conn] in E. subst c'.
  unfold rebuild_item, build_item, song_exists_io.
  unfold bind, bind_int, sql.
  destruct (int64 (item_song_id it)); cbn [fst snd s_conn s_log]; auto.
  destruct (faulty i SelectSong); cbn [fst snd s_conn s_log]; auto.
  destruct (song_exists c (item_song_id it)); cbn [print fst snd s_conn s_log];
    auto.
  apply try_index_item_same. reflexivity.
Qed.

Lemma rebuild_loop_unforced (items : list item) (i : nat) (s s' : session) :
  s_conn s = s_conn s' ->
  fst (rebuild_loop fingerprint_track faulty false i items s)
  = fst (build_loop fingerprint_track faulty i items s')
  /\ s_conn (snd (rebuild_loop fingerprint_track faulty false i items s))
     = s_conn (snd (build_loop fingerprint_track faulty i items s')).
Proof.
  revert i s s'. induction items as [|it rest IH]; intros i s s' E.
  - cbn. auto.
  - cbn [rebuild_loop build_loop]. unfold bind.
    destruct (rebuild_item_unforced i it s s' E) as [E1 E2].
    destruct (rebuild_item fingerprint_track faulty false i it s) as [r1 s1].
    destruct (build_item fingerprint_track faulty i it s') as [r2 s2].
    cbn [fst snd] in E1, E2. subst r2.
    destruct r1 as [[]|e]; [now apply IH | cbn; auto].
Qed.

End UnforcedRuns.

(** X27: the loop of a rebuild that is not forced is the loop of a
    build: on the same connection and the same items,
    [rebuild_specific_ids] with [force] false and
    [build_fingerprint_db_from_json] end alike, normally or with the
    same exception, and leave the same database; only the lines printed
    differ. *)
Theorem unforced_rebuild_is_a_build
  (fingerprint_track : item -> outcome (list (string * Z)))
  (faulty : nat -> store_call -> bool) (items : list item) (c : conn) :
  fst (rebuild_body fingerprint_track faulty false items c)
  = fst (build_body fingerprint_track faulty items c).
Proof.
  unfold rebuild_body, build_body, close. cbn [fst].
  destruct (rebuild_loop_unforced fingerprint_track faulty items 1
              (mkSession c []) (mkSession c []) eq_refl)
    as [E1 E2].
  now rewrite E1, E2.
Qed.

(** ** Opening the database *)


(** ** The strongest peaks of a frame *)

Lemma insert_by_strength_In (x y : Z * dB) (l : list (Z * dB)) :
  In y (insert_by_strength x l) <-> y = x \/ In y l.
Proof.
  induction l as [|z l IH]; cbn [insert_by_strength In].
  - intuition.
  - destruct (dB_leb (snd z) (snd x)); cbn [In].
    + intuition.
    + rewrite IH. intuition.
Qed.

Lemma sort_by_strength_In (y : Z * dB) (l : list (Z * dB)) :
  In y (sort_by_strength l) <-> In y l.
Proof.
  induction l as [|x l IH]; cbn [sort_by_strength fold_right In]; [tauto|].
  fold (sort_by_strength l). rewrite insert_by_strength_In, IH. intuition.
Qed.

Lemma insert_by_strength_sorted (x : Z * dB) (l : list (Z * dB)) :
  StronglySorted by_strength l ->
  StronglySorted by_strength (insert_by_strength x l).
Proof.
  induction 1 as [|y l Hs IH Hy]; cbn [insert_by_strength].
  - repeat constructor.
  - destruct (dB_leb (snd y) (snd x)) eqn:E.
    + constructor; [now constructor|]. constructor; [exact E|].
      eapply Forall_impl; [|exact Hy]. unfold by_strength. intros z Hz.
      now apply dB_leb_trans with (snd y).
    + constructor; [exact IH|]. apply Forall_forall. intros z Hz.
      apply insert_by_strength_In in Hz. destruct Hz as [->|Hz].
      * now apply dB_leb_total.
      * rewrite Forall_forall in Hy. now apply Hy.
Qed.

Lemma sort_by_strength_sorted (l : list (Z * dB)) :
  StronglySorted by_strength (sort_by_strength l).
Proof.
  induction l as [|x l IH]; cbn [sort_by_strength fold_right]; [constructor|].
  now apply insert_by_strength_sorted.
Qed.

Lemma sorted_firstn_skipn {A : Type} (R : A -> A -> Prop) (n : nat)
  (l : list A) (a b : A) :
  StronglySorted R l -> In a (firstn n l) -> In b (skipn n l) -> R a b.
Proof.
  intros H. revert n. induction H as [|x l Hs IH Hx]; intros n Ha Hb.
  - now rewrite firstn_nil in Ha.
  - destruct n as [|n]; [contradiction|]. cbn [firstn skipn] in Ha, Hb.
    destruct Ha as [<-|Ha].
    + rewrite Forall_forall in Hx. apply Hx.
      rewrite <- (firstn_skipn n l). apply in_or_app. now right.
    + now apply (IH n).
Qed.

Lemma frame_add_entries (time : Z) (x : Z * dB) (g : list (Z * list (Z * dB)))
  (y : Z * (Z * dB)) :
  In y (frame_entries (frame_add time x g))
  <-> In y (frame_entries g) \/ y = (time, x).
Proof.
  induction g as [|[k arr] g IH]; cbn [frame_add].
  - cbn. intuition.
  - destruct (Z.eqb_spec k time) as [->|Hne];
      cbn [frame_entries flat_map fst snd];
      fold (frame_entries g); fold (frame_entries (frame_add time x g)).
    + rewrite map_app. cbn [map]. rewrite !in_app_iff. cbn [In]. intuition.
    + rewrite !in_app_iff, IH. intuition.
Qed.

Lemma frames_fold_entries (S : list (list dB)) (cells : list (Z * Z))
  (t f : Z) (v : dB) :
  forall g,
    In (t, (f, v)) (frame_entries (fold_left (frame_step S) cells g))
    <-> In (t, (f, v)) (frame_entries g)
        \/ (In (f, t) cells /\ cell S f t = Some v).
Proof.
  induction cells as [|[f' t'] cells IH]; intros g; cbn [fold_left In].
  - tauto.
  - rewrite IH. unfold frame_step.
    destruct (cell S f' t') as [x|] eqn:E.
    + rewrite frame_add_entries. split.
      * intros [[H|H]|H]; [now left| |right; tauto].
        injection H as -> -> ->. right. auto.
      * intros [H|[[H|H] Hc]]; [now left; left| |right; auto].
        injection H as -> ->. left. right. congruence.
    + split; [intuition|].
      intros [H|[[H|H] Hc]]; [now left| |right; auto].
      injection H as -> ->. congruence.
Qed.

Lemma frame_entries_In (g : list (Z * list (Z * dB))) (t : Z) (x : Z * dB) :
  In (t, x) (frame_entries g) <-> exists arr, In (t, arr) g /\ In x arr.
Proof.
  unfold frame_entries. rewrite in_flat_map. split.
  - intros [[k arr] [He Hx]]. cbn [fst snd] in Hx. apply in_map_iff in Hx.
    destruct Hx as [z [E Hz]]. injection E as -> ->. eauto.
  - intros [arr [He Hx]]. exists (t, arr). split; [exact He|].
    cbn [fst snd]. now apply in_map.
Qed.

Lemma frame_of_time (g : list (Z * list (Z * dB))) (t : Z)
  (a b : list (Z * dB)) :
  NoDup (map fst g) -> In (t, a) g -> In (t, b) g -> a = b.
Proof.
  induction g as [|[k arr] g IH]; cbn [map fst In]; [contradiction|].
  intros ND Ha Hb. inversion ND as [|? ? Hk ND']; subst.
  destruct Ha as [Ha|Ha], Hb as [Hb|Hb].
  - congruence.
  - injection Ha as -> ->. destruct Hk. apply in_map_iff. now exists (t, b).
  - injection Hb as -> ->. destruct Hk. apply in_map_iff. now exists (t, a).
  - now apply IH.
Qed.

Lemma kept_In (S : list (list dB)) (p : peak) :
  In p (kept S)
  <-> exists arr x,
        In (snd p, arr) (peak_by_time_frame S)
        /\ In x (firstn (Z.to_nat TOP_PEAKS_PER_FRAME) (sort_by_strength arr))
        /\ fst x = fst p.
Proof.
  unfold kept. rewrite in_flat_map. split.
  - intros [[t arr] [He Hp]]. unfold top_of_frame in Hp. cbn [fst snd] in Hp.
    apply in_map_iff in Hp. destruct Hp as [x [E Hx]]. subst p.
    cbn [fst snd]. eauto.
  - intros [arr [x [He [Hx E]]]]. exists (snd p, arr). split; [exact He|].
    unfold top_of_frame. cbn [fst snd]. apply in_map_iff. exists x.
    split; [|exact Hx]. rewrite E. now destruct p.
Qed.

Lemma local_maxima_kept (S : list (list dB)) (p : peak) :
  In p (local_maxima S) <-> In p (kept S).
Proof.
  unfold local_maxima. split; apply Permutation_in;
    [apply sort_by_time_perm | apply Permutation_sym, sort_by_time_perm].
Qed.

(** A cell accepted and not kept is no stronger than a peak kept of its
    frame. *)
Lemma kept_are_strongest (S : list (list dB)) (p q : peak)
  (x y : dB) :
  In p (local_maxima S) ->
  In q (argwhere S) -> ~ In q (local_maxima S) ->
  snd q = snd p ->
  cell S (fst p) (snd p) = Some x -> cell S (fst q) (snd q) = Some y ->
  dB_leb y x = true.
Proof.
  intros Hp Hq Nq Et Cx Cy.
  assert (ND : NoDup (map fst (peak_by_time_frame S))).
  { apply frames_fold_keys. constructor. }
  assert (Ent : forall t f v,
             In (t, (f, v)) (frame_entries (peak_by_time_frame S))
             <-> In (f, t) (argwhere S) /\ cell S f t = Some v).
  { intros t f v. unfold peak_by_time_frame. rewrite frames_fold_entries.
    cbn [frame_entries flat_map In]. tauto. }
  apply local_maxima_kept, kept_In in Hp.
  destruct Hp as [arr [z [He [Hz Ez]]]].
  assert (Hzv : snd z = x).
  { assert (Hin : In (snd p, (fst z, snd z))
                     (frame_entries (peak_by_time_frame S))).
    { apply frame_entries_In. exists arr. split; [exact He|].
      apply sort_by_strength_In. apply In_firstn in Hz.
      now destruct z. }
    apply Ent in Hin. rewrite Ez in Hin. destruct Hin as [_ Hc]. congruence. }
  assert (Hqe : In (snd q, (fst q, y)) (frame_entries (peak_by_time_frame S))).
  { apply Ent. split; [now destruct q | exact Cy]. }
  apply frame_entries_In in Hqe. destruct Hqe as [arr' [He' Hy]].
  rewrite Et in He'. rewrite (frame_of_time _ _ _ _ ND He' He) in Hy.
  apply sort_by_strength_In in Hy.
  rewrite <- (firstn_skipn (Z.to_nat TOP_PEAKS_PER_FRAME) (sort_by_strength arr))
    in Hy.
  apply in_app_or in Hy. destruct Hy as [Hy|Hy].
  - destruct Nq. apply local_maxima_kept, kept_In.
    exists arr, (fst q, y). rewrite Et. auto.
  - pose proof (sorted_firstn_skipn by_strength _ _ z (fst q, y)
                  (sort_by_strength_sorted arr) Hz Hy) as R.
    unfold by_strength in R. cbn [snd] in R. now rewrite Hzv in R.
Qed.

Lemma argwhere_cell (S : list (list dB)) (p : Z * Z) :
  In p (argwhere S) -> cell S (fst p) (snd p) = Some (padded S (fst p) (snd p)).
Proof.
  intros H. apply argwhere_In in H. unfold actual_peaks, padded in *.
  destruct (cell S (fst p) (snd p)); [reflexivity | discriminate].
Qed.

Lemma peak_eq_dec (a b : peak) : {a = b} + {a <> b}.
Proof. decide equality; apply Z.eq_dec. Qed.

(** X6: the peaks kept of a frame are its strongest: for a peak
    returned by [local_maxima] and a cell accepted as a peak, the cell
    is returned as well, or it lies in another frame, or it is no
    stronger than the peak. *)
Theorem local_maxima_keeps_strongest (S : list (list dB)) :
  Forall
    (fun p =>
       Forall
         (fun q =>
            In q (local_maxima S)
            \/ (snd q =? snd p) = false
            \/ dB_leb (padded S (fst q) (snd q)) (padded S (fst p) (snd p))
               = true)
         (argwhere S))
    (local_maxima S).
Proof.
  apply Forall_forall. intros p Hp. apply Forall_forall. intros q Hq.
  destruct (in_dec peak_eq_dec q (local_maxima S)) as [Hin|Hout]; [now left|].
  right. destruct (Z.eqb_spec (snd q) (snd p)) as [Et|Et]; [|now left].
  right. apply (kept_are_strongest S p q _ _ Hp Hq Hout Et).
  - apply argwhere_cell. now apply local_maxima_argwhere.
  - now apply argwhere_cell.
Qed.
